(** * DHTExporter: the export pipeline and the offline viewer store

    A shallow embedding of [dhtexporter.py]: the Python export functions
    ([fetch_metadata], [process_message], [generate_messages_ndjson]) and
    the JavaScript viewer that the script embeds in the generated page
    ([sorter], [state_default], [dom_default.escapeHTML],
    [processMessageContents]).

    Conventions.
    - JavaScript and Python strings are modelled by [string] (sequences of
      8-bit code units); comparison of strings is the lexicographic order
      on code units, as both languages define it.
    - JavaScript numbers that the code only uses as integers are [Z].
    - A JavaScript [Map] or [Set] and a Python [dict] keep insertion
      order, so they are association lists and duplicate-free lists.
    - A function that can throw or recurse without bound returns
      [option] (or an [outcome]); recursion that is not structural takes
      a fuel argument and returns [None] when the fuel runs out. *)

From Stdlib Require Import List String Ascii ZArith Lia Bool Arith DecimalString.
From Stdlib Require Import Permutation Sorted.
From Stdlib Require DecimalZ DecimalPos OrderedTypeEx.
Import ListNotations.

Set Warnings "-register-all".

Local Open Scope string_scope.
Local Open Scope Z_scope.

(* ================================================================== *)
(** * Part I. Definitions *)
(* ================================================================== *)

(** ** JavaScript helpers *)

Module JS.

(** [a < b] on strings: lexicographic order on code units. *)
Definition str_lt (a b : string) : bool := String.ltb a b.

(** [a > b] on strings. *)
Definition str_gt (a b : string) : bool := String.ltb b a.

(** [s.length] as a JavaScript number. *)
Definition str_length (s : string) : Z := Z.of_nat (String.length s).

(** [Array.prototype.sort(cmp)] is a stable sort: an element moves in
    front of another only when the comparator says it is smaller.  It is
    modelled by a stable insertion sort. *)
Fixpoint sort_insert {A : Type} (cmp : A -> A -> Z) (x : A) (l : list A) : list A :=
  match l with
  | [] => [x]
  | y :: l' => if cmp x y <=? 0 then x :: y :: l' else y :: sort_insert cmp x l'
  end.

Fixpoint sort {A : Type} (cmp : A -> A -> Z) (l : list A) : list A :=
  match l with
  | [] => []
  | x :: l' => sort_insert cmp x (sort cmp l')
  end.

(** The comparator [Array.prototype.sort] uses when none is given. *)
Definition default_compare (a b : string) : Z :=
  if str_lt a b then -1 else if str_gt a b then 1 else 0.

End JS.

(** ** scripts/processor.mjs: [sorter] *)

Module sorter.

Definition oldestToNewest (key1 key2 : string) : Z :=
  if JS.str_length key1 =? JS.str_length key2 then
    if JS.str_gt key1 key2 then 1 else if JS.str_lt key1 key2 then -1 else 0
  else
    if JS.str_length key1 >? JS.str_length key2 then 1 else -1.

Definition newestToOldest (key1 key2 : string) : Z :=
  if JS.str_length key1 =? JS.str_length key2 then
    if JS.str_gt key1 key2 then -1 else if JS.str_lt key1 key2 then 1 else 0
  else
    if JS.str_length key1 >? JS.str_length key2 then -1 else 1.

End sorter.

(** ** Python values and [json.dumps] *)

Module Py.

(** The Python objects the exporter builds.  A [dict] keeps insertion
    order, which [json.dumps] follows. *)
Inductive value : Type :=
| None_
| Bool (b : bool)
| Int (z : Z)
| Str (s : string)
| List (l : list value)
| Dict (d : list (string * value)).

(** Truth value of an object, as [if x:] tests it. *)
Definition truthy (v : value) : bool :=
  match v with
  | None_ => false
  | Bool b => b
  | Int z => negb (z =? 0)
  | Str s => negb (s =? "")%string
  | List l => match l with [] => false | _ => true end
  | Dict d => match d with [] => false | _ => true end
  end.

(** [x or y]. *)
Definition or_ (x y : value) : value := if truthy x then x else y.

(** A nullable column as the object [sqlite3] returns for it. *)
Definition of_text (o : option string) : value :=
  match o with Some s => Str s | None => None_ end.

Definition of_int (o : option Z) : value :=
  match o with Some z => Int z | None => None_ end.

(** [str(n)] for an [int]. *)
Definition str_int (z : Z) : string := NilZero.string_of_int (Z.to_int z).

(** [d[k] = v]: replaces the value of an existing key in place, appends
    a new key. *)
Fixpoint dict_set (k : string) (v : value) (d : list (string * value)) : list (string * value) :=
  match d with
  | [] => [(k, v)]
  | (k', v') :: d' => if (k' =? k)%string then (k, v) :: d' else (k', v') :: dict_set k v d'
  end.

Fixpoint dict_get (k : string) (d : list (string * value)) : option value :=
  match d with
  | [] => None
  | (k', v') :: d' => if (k' =? k)%string then Some v' else dict_get k d'
  end.

(** [k in d]. *)
Definition dict_has (k : string) (d : list (string * value)) : bool :=
  match dict_get k d with Some _ => true | None => false end.

(** [d.update(e)]. *)
Definition dict_update (d e : list (string * value)) : list (string * value) :=
  fold_left (fun acc kv => dict_set (fst kv) (snd kv) acc) e d.

(** *** [json.dumps(obj, ensure_ascii=False)] *)

Definition dquote : string := String (ascii_of_nat 34) EmptyString.

Definition hex_digit (n : nat) : string :=
  match String.get n "0123456789abcdef" with
  | Some c => String c EmptyString
  | None => "0"
  end.

(** The escape of one character inside a JSON string: the quote, the
    backslash and the control characters below 0x20. *)
Definition json_escape_char (c : ascii) : string :=
  let n := nat_of_ascii c in
  if (n =? 34)%nat then "\" ++ dquote
  else if (n =? 92)%nat then "\\"
  else if (n =? 10)%nat then "\n"
  else if (n =? 13)%nat then "\r"
  else if (n =? 9)%nat then "\t"
  else if (n =? 8)%nat then "\b"
  else if (n =? 12)%nat then "\f"
  else if (n <? 32)%nat then "\u00" ++ hex_digit (n / 16) ++ hex_digit (n mod 16)
  else String c EmptyString.

Fixpoint json_escape (s : string) : string :=
  match s with
  | EmptyString => EmptyString
  | String c s' => json_escape_char c ++ json_escape s'
  end.

Definition json_string (s : string) : string := dquote ++ json_escape s ++ dquote.

(** The default separators are a comma and a colon, each followed by a
    space. *)
Fixpoint json_dumps (v : value) : string :=
  match v with
  | None_ => "null"
  | Bool true => "true"
  | Bool false => "false"
  | Int z => str_int z
  | Str s => json_string s
  | List l => "[" ++ String.concat ", " (map json_dumps l) ++ "]"
  | Dict d =>
      "{" ++ String.concat ", "
               (map (fun kv => json_string (fst kv) ++ ": " ++ json_dumps (snd kv)) d)
          ++ "}"
  end.

End Py.

(** ** The source store *)

(** Rows of the SQLite database the exporter reads, one record per table
    (or per query) with the columns the queries select.  INTEGER columns
    are [Z], TEXT columns [string], and a column that can hold NULL is an
    [option]. *)

Record user_row := {
  user_id : Z;
  user_name : string;
  user_display_name : option string;
  user_avatar_url : option string }.

Record server_row := {
  server_id : Z;
  server_name : string;
  server_type : string;
  server_icon_hash : option string }.

Record channel_row := {
  channel_id : Z;
  channel_server : Z;
  channel_name : string }.

(** A row of [SELECT message_id, sender_id, channel_id, text, timestamp
    FROM messages]. *)
Record message_row := {
  message_id : Z;
  sender_id : Z;
  msg_channel_id : Z;
  text : option string;
  timestamp : Z }.

Record attachment_row := {
  attachment_id : Z;
  attachment_name : string;
  download_url : string;
  width : option Z;
  height : option Z }.

Record reaction_row := {
  reaction_message_id : Z;
  emoji_id : option Z;
  emoji_name : option string;
  emoji_flags : Z;
  reaction_count : Z }.

(** The database: each table in the order a cursor walks it; [messages]
    is the result of the query [... FROM messages ORDER BY timestamp]. *)
Record database := {
  users : list user_row;
  servers : list server_row;
  channels : list channel_row;
  messages : list message_row;
  message_attachments : list (Z * Z);
  attachments : list attachment_row;
  message_edit_timestamps : list (Z * Z);
  message_embeds : list (Z * string);
  message_reactions : list reaction_row;
  message_replied_to : list (Z * Z) }.

(** ** dhtexporter.py: the export functions *)

Module Exporter.

Import Py.

(** *** [fetch_metadata] *)

(** The body of the loop over the [users] rows. *)
Definition user_data (r : user_row) : list (string * value) :=
  let user_data := [("name", Str (user_name r)); ("avatar", of_text (user_avatar_url r))] in
  if truthy (of_text (user_display_name r))
  then dict_set "displayName" (of_text (user_display_name r)) user_data
  else user_data.

(** [str.lower()] on the ASCII letters. *)
Definition lower_char (c : ascii) : ascii :=
  let n := nat_of_ascii c in
  if ((65 <=? n) && (n <=? 90))%nat then ascii_of_nat (n + 32) else c.

Fixpoint lower (s : string) : string :=
  match s with
  | EmptyString => EmptyString
  | String c s' => String (lower_char c) (lower s')
  end.

Definition server_data (r : server_row) : list (string * value) :=
  let server_data := [("name", Str (server_name r)); ("type", Str (lower (server_type r)))] in
  if truthy (of_text (server_icon_hash r))
  then dict_set "iconUrl"
         (Str ("https://cdn.discordapp.com/icons/" ++ str_int (server_id r) ++ "/"
               ++ match server_icon_hash r with Some h => h | None => "None" end
               ++ ".webp"))
         server_data
  else server_data.

Definition channel_data (r : channel_row) : list (string * value) :=
  [("server", Str (str_int (channel_server r))); ("name", Str (channel_name r))].

(** [metadata[section][key] = data]. *)
Definition metadata_set (section key : string) (data : list (string * value))
  (metadata : list (string * value)) : list (string * value) :=
  match dict_get section metadata with
  | Some (Dict d) => dict_set section (Dict (dict_set key (Dict data) d)) metadata
  | _ => metadata
  end.

Definition fetch_metadata (db : database) : list (string * value) :=
  let metadata := [("users", Dict []); ("servers", Dict []); ("channels", Dict [])] in
  let metadata :=
    fold_left (fun m r => metadata_set "users" (str_int (user_id r)) (user_data r) m)
      (users db) metadata in
  let metadata :=
    fold_left (fun m r => metadata_set "servers" (str_int (server_id r)) (server_data r) m)
      (servers db) metadata in
  let metadata :=
    fold_left (fun m r => metadata_set "channels" (str_int (channel_id r)) (channel_data r) m)
      (channels db) metadata in
  metadata.

(** *** The five lookups keyed by message id *)

(** [x if x else None] for a list. *)
Definition nonempty_or_none (l : list value) : value :=
  match l with [] => None_ | _ => List l end.

Definition attachment_obj (a : attachment_row) : value :=
  let attachment := [("url", Str (download_url a)); ("name", Str (attachment_name a))] in
  if truthy (of_int (width a)) && truthy (of_int (height a))
  then Dict (dict_update attachment
               [("width", of_int (width a)); ("height", of_int (height a))])
  else Dict attachment.

(** The rows of [message_attachments ma JOIN attachments a ON
    ma.attachment_id = a.attachment_id WHERE ma.message_id = ?]. *)
Definition attachment_rows (db : database) (id : Z) : list attachment_row :=
  flat_map
    (fun ma => filter (fun a => attachment_id a =? snd ma) (attachments db))
    (filter (fun ma => fst ma =? id) (message_attachments db)).

Definition get_message_attachments (db : database) (id : Z) : value :=
  nonempty_or_none (map attachment_obj (attachment_rows db id)).

Definition get_message_edit_timestamp (db : database) (id : Z) : value :=
  match filter (fun r => fst r =? id) (message_edit_timestamps db) with
  | result :: _ => Int (snd result)
  | [] => None_
  end.

Definition embed_rows (db : database) (id : Z) : list string :=
  map snd (filter (fun r => fst r =? id) (message_embeds db)).

Definition get_message_embeds (db : database) (id : Z) : value :=
  nonempty_or_none (map Str (embed_rows db id)).

Definition reaction_obj (r : reaction_row) : value :=
  let reaction :=
    [("n", of_text (emoji_name r)); ("a", Bool (truthy (Int (emoji_flags r))));
     ("c", Int (reaction_count r))] in
  if truthy (of_int (emoji_id r))
  then Dict (dict_set "id"
               (Str (match emoji_id r with Some e => str_int e | None => "None" end))
               reaction)
  else Dict reaction.

Definition get_message_reactions (db : database) (id : Z) : value :=
  nonempty_or_none
    (map reaction_obj (filter (fun r => reaction_message_id r =? id) (message_reactions db))).

Definition get_message_reply (db : database) (id : Z) : value :=
  match filter (fun r => fst r =? id) (message_replied_to db) with
  | result :: _ => Str (str_int (snd result))
  | [] => None_
  end.

(** *** [should_include_message_text] and [process_message] *)

Definition should_include_message_text (text attachments embeds : value) : bool :=
  if truthy text then true
  else if truthy attachments || truthy embeds then false
  else true.

(** [if cond: obj[key] = v]. *)
Definition set_if (cond : bool) (k : string) (v : value) (d : list (string * value))
  : list (string * value) :=
  if cond then dict_set k v d else d.

(** The dictionary [message_obj] that [process_message] serializes. *)
Definition message_obj (db : database) (m : message_row) : list (string * value) :=
  let message_id_str := str_int (message_id m) in
  let text := of_text (text m) in
  let attachments := get_message_attachments db (message_id m) in
  let embeds := get_message_embeds db (message_id m) in
  let edit_timestamp := get_message_edit_timestamp db (message_id m) in
  let reactions := get_message_reactions db (message_id m) in
  let reply_to := get_message_reply db (message_id m) in
  let message_obj :=
    [("id", Str message_id_str); ("c", Str (str_int (msg_channel_id m)));
     ("u", Str (str_int (sender_id m))); ("t", Int (timestamp m))] in
  let message_obj :=
    set_if (should_include_message_text text attachments embeds) "m" (or_ text (Str ""))
      message_obj in
  let message_obj := set_if (truthy attachments) "a" attachments message_obj in
  let message_obj := set_if (truthy embeds) "e" embeds message_obj in
  let message_obj := set_if (truthy edit_timestamp) "te" edit_timestamp message_obj in
  let message_obj := set_if (truthy reactions) "re" reactions message_obj in
  let message_obj := set_if (truthy reply_to) "r" reply_to message_obj in
  message_obj.

(** [message_data] is the row with its index and the total, which only
    feed the progress line printed on the terminal. *)
Definition process_message (db : database) (message_data : message_row * nat * nat) : string :=
  let '(m, idx, total) := message_data in
  json_dumps (Dict (message_obj db m)).

(** *** [ThreadPoolExecutor.map] *)

(** [executor.map(fn, items)] submits one task per item, in order, and
    then yields the result of each task in submission order, waiting for
    it.  The pool runs at most [max_workers] tasks at once, taken from
    the head of the queue; which running task finishes next is up to the
    scheduler, here the function [choice] of the step number. *)

(** [futures[i] = r]. *)
Fixpoint set_future {R : Type} (i : nat) (r : R) (futures : list (option R)) : list (option R) :=
  match futures, i with
  | [], _ => []
  | _ :: fs, O => Some r :: fs
  | f :: fs, S i' => f :: set_future i' r fs
  end.

(** Idle workers take tasks from the head of the queue. *)
Fixpoint pool_fill {A : Type} (max_workers : nat) (queue running : list (nat * A))
  : list (nat * A) * list (nat * A) :=
  match queue with
  | [] => ([], running)
  | task :: queue' =>
      if (List.length running <? max_workers)%nat
      then pool_fill max_workers queue' (running ++ [task])
      else (queue, running)
  end.

(** The running task at position [k] leaves the list. *)
Fixpoint remove_nth {A : Type} (k : nat) (l : list A) : list A :=
  match l, k with
  | [], _ => []
  | _ :: l', O => l'
  | x :: l', S k' => x :: remove_nth k' l'
  end.

(** One step completes one running task; [steps] bounds the number of
    completions. *)
Fixpoint pool_run {A R : Type} (fn : A -> R) (max_workers : nat) (choice : nat -> nat)
  (steps step : nat) (queue running : list (nat * A)) (futures : list (option R))
  : list (option R) :=
  match steps with
  | O => futures
  | S steps' =>
      let '(queue, running) := pool_fill max_workers queue running in
      match running with
      | [] => futures
      | first :: _ =>
          let k := (choice step mod List.length running)%nat in
          let '(i, item) := nth k running first in
          pool_run fn max_workers choice steps' (S step) queue (remove_nth k running)
            (set_future i (fn item) futures)
      end
  end.

(** The results in submission order; a task that never ran leaves the
    iteration waiting for ever. *)
Fixpoint collect {R : Type} (futures : list (option R)) : option (list R) :=
  match futures with
  | [] => Some []
  | Some r :: fs => option_map (cons r) (collect fs)
  | None :: _ => None
  end.

(** [ThreadPoolExecutor(max_workers)] raises [ValueError] unless
    [max_workers] is positive. *)
Definition executor_map {A R : Type} (max_workers : Z) (choice : nat -> nat)
  (fn : A -> R) (items : list A) : option (list R) :=
  if max_workers <=? 0 then None
  else
    let tasks := combine (seq 0 (List.length items)) items in
    collect (pool_run fn (Z.to_nat max_workers) choice (List.length items) 0 tasks []
               (map (fun _ => None) items)).

(** *** [generate_messages_ndjson] *)

(** Each row of [all_messages] with its index and the total count. *)
Definition messages_with_progress (all_messages : list message_row)
  : list (message_row * nat * nat) :=
  map (fun im => (snd im, fst im, List.length all_messages))
    (combine (seq 0 (List.length all_messages)) all_messages).

(** The list of lines the generator yields. *)
Definition generate_messages_ndjson (db : database) (num_threads : Z) (choice : nat -> nat)
  : option (list string) :=
  let all_messages := messages db in
  executor_map num_threads choice (process_message db) (messages_with_progress all_messages).

End Exporter.

(** ** The viewer: documents and JavaScript values *)

Module Viewer.

(** What a function of the viewer can be handed where it expects an
    object: [undefined], [null], an object, or a primitive value. *)
Inductive jsvalue (T : Type) : Type :=
| Undefined
| Null
| Object (o : T)
| PString (s : string)
| PNumber (z : Z)
| PBoolean (b : bool).

Arguments Undefined {T}.
Arguments Null {T}.
Arguments Object {T} o.
Arguments PString {T} s.
Arguments PNumber {T} z.
Arguments PBoolean {T} b.

Definition typeof {T : Type} (v : jsvalue T) : string :=
  match v with
  | Undefined => "undefined"
  | Null => "object"
  | Object _ => "object"
  | PString _ => "string"
  | PNumber _ => "number"
  | PBoolean _ => "boolean"
  end.

(** [v != null]: false for [null] and for [undefined]. *)
Definition not_nullish {T : Type} (v : jsvalue T) : bool :=
  match v with
  | Undefined | Null => false
  | _ => true
  end.

(** A call either returns or throws. *)
Inductive outcome (A : Type) : Type :=
| Return (a : A)
| Throw (message : string).

Arguments Return {A} a.
Arguments Throw {A} message.

(** A number that may be [NaN]; [undefined] behaves like [NaN] in every
    arithmetic operation and comparison the store applies to it. *)
Definition number := option Z.

Definition num_add (x : number) (k : Z) : number := option_map (fun v => v + k) x.

(** [Math.max(k, x)] and [Math.min(k, x)] are [NaN] when [x] is. *)
Definition num_max (k : Z) (x : number) : number := option_map (Z.max k) x.
Definition num_min (k : Z) (x : number) : number := option_map (Z.min k) x.

(** [obj[key]] on an object given by its entries. *)
Fixpoint lookup {V : Type} (key : string) (entries : list (string * V)) : option V :=
  match entries with
  | [] => None
  | (k, v) :: rest => if (k =? key)%string then Some v else lookup key rest
  end.

(** [Array.prototype.indexOf]. *)
Fixpoint index_of (x : string) (l : list string) : option nat :=
  match l with
  | [] => None
  | y :: l' => if (y =? x)%string then Some O else option_map S (index_of x l')
  end.

(** [Array.prototype.slice(start, end)]; a negative index counts from
    the end, and an absent [end] is the length. *)
Definition slice_index (len i : Z) : Z :=
  if i <? 0 then Z.max (len + i) 0 else Z.min i len.

Definition slice {A : Type} (l : list A) (start : Z) (end_ : option Z) : list A :=
  let len := Z.of_nat (List.length l) in
  let k := slice_index len start in
  let final := match end_ with Some e => slice_index len e | None => len end in
  firstn (Z.to_nat (final - k)) (skipn (Z.to_nat k) l).

(** *** The metadata document *)

Record user := {
  u_name : string;
  u_displayName : option string;
  u_avatar : option string }.

Record server := {
  s_name : string;
  s_type : string }.

Record channel := {
  c_server : string;
  c_name : string;
  c_parent : option string;
  c_position : option Z;
  c_topic : option string;
  c_nsfw : option bool }.

Record metadata := {
  users : list (string * user);
  servers : list (string * server);
  channels : list (string * channel) }.

(** *** The message documents *)

Record attachment := {
  att_url : string;
  att_name : string;
  att_width : option Z;
  att_height : option Z }.

Record reaction := {
  rx_n : option string;
  rx_a : bool;
  rx_c : Z;
  rx_id : option string }.

(** A message as the store holds it: the fields [id] and [c] have been
    moved into the keys of the two maps.  The embeds are the JSON texts
    the exporter wrote. *)
Record message := {
  msg_u : string;
  msg_t : Z;
  msg_m : option string;
  msg_e : option (list string);
  msg_a : option (list attachment);
  msg_te : option Z;
  msg_re : option (list reaction);
  msg_r : option string;
  msg_f : option Z }.

(** Messages by channel, then by message id. *)
Definition filedata := list (string * list (string * message)).

(** ** scripts/processor.mjs: [filter] *)

Module filter.

Section Filters.

(** [new URL(url).pathname], or [None] when the constructor throws. *)
Variable url_pathname : string -> option string.

Definition byUser (user : string) (message : message) : bool :=
  (msg_u message =? user)%string.

Definition byTime (timeStart timeEnd : Z) (message : message) : bool :=
  (timeStart <=? msg_t message) && (msg_t message <=? timeEnd).

Definition contents_of (message : message) : string :=
  match msg_m message with Some m => m | None => "" end.

Definition byContents (substr : string) (message : message) : bool :=
  match String.index 0 substr (contents_of message) with
  | Some _ => true
  | None => false
  end.

(** The position of the last dot of a string. *)
Fixpoint last_dot (s : string) (pos : nat) (found : option nat) : option nat :=
  match s with
  | EmptyString => found
  | String c s' =>
      last_dot s' (S pos) (if (c =? ".")%char then Some pos else found)
  end.

Definition isImageUrl (pathname : string) : bool :=
  let ext :=
    match last_dot pathname 0 None with
    | None => ""
    | Some dot =>
        Exporter.lower (String.substring dot (String.length pathname - dot) pathname)
    end in
  (ext =? ".png")%string || (ext =? ".gif")%string
  || (ext =? ".jpg")%string || (ext =? ".jpeg")%string.

Definition isImageAttachment (attachment : attachment) : bool :=
  match url_pathname (att_url attachment) with
  | Some pathname => isImageUrl pathname
  | None => false
  end.

(** An embed of the store is a string, whose [type] is undefined, so the
    first disjunct never holds. *)
Definition withImages (message : message) : bool :=
  match msg_e message with
  | Some e => existsb (fun embed : string => false) e
  | None => false
  end
  || match msg_a message with
     | Some a => existsb isImageAttachment a
     | None => false
     end.

Definition withDownloads (message : message) : bool :=
  match msg_a message with
  | Some a => existsb (fun attachment => negb (isImageAttachment attachment)) a
  | None => false
  end.

Definition withEmbeds (message : message) : bool :=
  match msg_e message with
  | Some e => (0 <? List.length e)%nat
  | None => false
  end.

Definition withAttachments (message : message) : bool :=
  match msg_a message with
  | Some a => (0 <? List.length a)%nat
  | None => false
  end.

Definition isEdited (message : message) : bool :=
  match msg_te message with
  | Some te => negb (te =? 0)
  | None =>
      match msg_f message with
      | Some f => Z.land f 1 =? 1
      | None => false
      end
  end.

End Filters.

End filter.

(** ** scripts/state.mjs: the store *)

(** The variables of the closure [state_default].  The store notifies
    at most one listener of a refreshed message list;
    [eventOnMessagesRefreshed] says whether one is registered. *)
Record state := {
  loadedFileMeta : jsvalue metadata;
  loadedFileData : jsvalue filedata;
  loadedMessages : option (list string);
  filterFunction : option (message -> bool);
  selectedChannel : option string;
  currentPage : number;
  messagesPerPage : number;
  hasActiveFilter : bool;
  eventOnMessagesRefreshed : bool }.

Definition initial_state : state := {|
  loadedFileMeta := Undefined;
  loadedFileData := Undefined;
  loadedMessages := None;
  filterFunction := None;
  selectedChannel := None;
  currentPage := None;
  messagesPerPage := None;
  hasActiveFilter := false;
  eventOnMessagesRefreshed := false |}.

Definition set_currentPage (p : number) (s : state) : state := {|
  loadedFileMeta := loadedFileMeta s;
  loadedFileData := loadedFileData s;
  loadedMessages := loadedMessages s;
  filterFunction := filterFunction s;
  selectedChannel := selectedChannel s;
  currentPage := p;
  messagesPerPage := messagesPerPage s;
  hasActiveFilter := hasActiveFilter s;
  eventOnMessagesRefreshed := eventOnMessagesRefreshed s |}.

Definition set_messagesPerPage (n : number) (s : state) : state := {|
  loadedFileMeta := loadedFileMeta s;
  loadedFileData := loadedFileData s;
  loadedMessages := loadedMessages s;
  filterFunction := filterFunction s;
  selectedChannel := selectedChannel s;
  currentPage := currentPage s;
  messagesPerPage := n;
  hasActiveFilter := hasActiveFilter s;
  eventOnMessagesRefreshed := eventOnMessagesRefreshed s |}.

Definition set_selectedChannel (c : option string) (s : state) : state := {|
  loadedFileMeta := loadedFileMeta s;
  loadedFileData := loadedFileData s;
  loadedMessages := loadedMessages s;
  filterFunction := filterFunction s;
  selectedChannel := c;
  currentPage := currentPage s;
  messagesPerPage := messagesPerPage s;
  hasActiveFilter := hasActiveFilter s;
  eventOnMessagesRefreshed := eventOnMessagesRefreshed s |}.

Definition set_loadedMessages (l : option (list string)) (s : state) : state := {|
  loadedFileMeta := loadedFileMeta s;
  loadedFileData := loadedFileData s;
  loadedMessages := l;
  filterFunction := filterFunction s;
  selectedChannel := selectedChannel s;
  currentPage := currentPage s;
  messagesPerPage := messagesPerPage s;
  hasActiveFilter := hasActiveFilter s;
  eventOnMessagesRefreshed := eventOnMessagesRefreshed s |}.

Definition set_filterFunction (f : option (message -> bool)) (s : state) : state := {|
  loadedFileMeta := loadedFileMeta s;
  loadedFileData := loadedFileData s;
  loadedMessages := loadedMessages s;
  filterFunction := f;
  selectedChannel := selectedChannel s;
  currentPage := currentPage s;
  messagesPerPage := messagesPerPage s;
  hasActiveFilter := match f with Some _ => true | None => false end;
  eventOnMessagesRefreshed := eventOnMessagesRefreshed s |}.

(** [onMessagesRefreshed(callback)]. *)
Definition onMessagesRefreshed (s : state) : state := {|
  loadedFileMeta := loadedFileMeta s;
  loadedFileData := loadedFileData s;
  loadedMessages := loadedMessages s;
  filterFunction := filterFunction s;
  selectedChannel := selectedChannel s;
  currentPage := currentPage s;
  messagesPerPage := messagesPerPage s;
  hasActiveFilter := hasActiveFilter s;
  eventOnMessagesRefreshed := true |}.

Definition type_error : string := "TypeError".

Definition unknown_user : user :=
  {| u_name := "&lt;unknown&gt;"; u_displayName := None; u_avatar := None |}.

(** [loadedFileMeta.users[id] || { name: ... }]; reading a property of
    [null] or [undefined] throws, and a primitive has no [users]. *)
Definition getUser (s : state) (id : string) : outcome user :=
  match loadedFileMeta s with
  | Object meta =>
      Return (match lookup id (users meta) with Some u => u | None => unknown_user end)
  | _ => Throw type_error
  end.

Definition unknown_server : server := {| s_name := "&lt;unknown&gt;"; s_type := "unknown" |}.

Definition getServer (meta : metadata) (id : string) : server :=
  match lookup id (servers meta) with Some sv => sv | None => unknown_server end.

(** [loadedFileData[channel] || {}]. *)
Definition getMessages (s : state) (channel : string) : outcome (list (string * message)) :=
  match loadedFileData s with
  | Object data =>
      Return (match lookup channel data with Some msgs => msgs | None => [] end)
  | PString _ | PNumber _ | PBoolean _ => Return []
  | Undefined | Null => Throw type_error
  end.

(** The entries of the store, for the two functions that scan them. *)
Definition data_entries (s : state) : outcome filedata :=
  match loadedFileData s with
  | Object data => Return data
  | PString _ | PNumber _ | PBoolean _ => Return []
  | Undefined | Null => Throw type_error
  end.

Fixpoint find_message (id : string) (data : filedata) : option message :=
  match data with
  | [] => None
  | (_, messages) :: rest =>
      match lookup id messages with
      | Some message => Some message
      | None => find_message id rest
      end
  end.

Definition getMessageById (s : state) (id : string) : outcome (option message) :=
  match data_entries s with
  | Return data => Return (find_message id data)
  | Throw e => Throw e
  end.

Fixpoint find_channel (id : string) (data : filedata) : option string :=
  match data with
  | [] => None
  | (channel, messages) :: rest =>
      match lookup id messages with
      | Some _ => Some channel
      | None => find_channel id rest
      end
  end.

Definition getMessageChannel (s : state) (id : string) : outcome (option string) :=
  match data_entries s with
  | Return data => Return (find_channel id data)
  | Throw e => Throw e
  end.

Definition getFilteredMessageKeys (s : state) (channel : string) : outcome (list string) :=
  match getMessages s channel with
  | Return messages =>
      Return (match filterFunction s with
              | Some f => map fst (filter (fun km => f (snd km)) messages)
              | None => map fst messages
              end)
  | Throw e => Throw e
  end.

(** [Math.ceil(a / b)] for integers. *)
Definition ceil_div (a b : Z) : Z := - ((- a) / b).

Definition getPageCount (s : state) : Z :=
  match loadedMessages s with
  | None => 0
  | Some l =>
      match messagesPerPage s with
      | None => 1
      | Some n => if n =? 0 then 1 else ceil_div (Z.of_nat (List.length l)) n
      end
  end.

(** [getCurrentPage] clamps the stored page before it returns it. *)
Definition getCurrentPage (s : state) : Z * state :=
  let total := getPageCount s in
  let s' :=
    match currentPage s with
    | Some c => if (c >? total) && (total >? 0) then set_currentPage (Some total) s else s
    | None => s
    end in
  (match currentPage s' with
   | Some c => if c =? 0 then 1 else c
   | None => 1
   end, s').

(** What [getMessageList] makes of one message. *)
Record reply_view := {
  reply_id : string;
  reply_user : user;
  reply_avatar : option (string * string);
  reply_contents : option string }.

Record message_view := {
  view_user : user;
  view_avatar : option (string * string);
  view_timestamp : Z;
  view_jump : string;
  view_contents : option string;
  view_embeds : option (list string);
  view_attachments : option (list attachment);
  view_edit : option Z;
  view_reply : option (option reply_view);
  view_reactions : option (list reaction) }.

(** [user.avatar ? { id, path } : null]. *)
Definition avatar_of (id : string) (u : user) : option (string * string) :=
  match u_avatar u with
  | Some path => if (path =? "")%string then None else Some (id, path)
  | None => None
  end.

Definition view_of (s : state) (messages : list (string * message)) (key : string)
  : outcome message_view :=
  match lookup key messages with
  | None => Throw type_error
  | Some message =>
      match getUser s (msg_u message) with
      | Throw e => Throw e
      | Return user =>
          let reply :=
            match msg_r message with
            | None => Return None
            | Some r =>
                match getMessageById s r with
                | Throw e => Throw e
                | Return None => Return (Some None)
                | Return (Some replyMessage) =>
                    match getUser s (msg_u replyMessage) with
                    | Throw e => Throw e
                    | Return replyUser =>
                        Return (Some (Some {|
                          reply_id := r;
                          reply_user := replyUser;
                          reply_avatar := avatar_of (msg_u replyMessage) replyUser;
                          reply_contents := msg_m replyMessage |}))
                    end
                end
            end in
          match reply with
          | Throw e => Throw e
          | Return reply =>
              Return {|
                view_user := user;
                view_avatar := avatar_of (msg_u message) user;
                view_timestamp := msg_t message;
                view_jump := key;
                view_contents := msg_m message;
                view_embeds := msg_e message;
                view_attachments := msg_a message;
                view_edit := msg_te message;
                view_reply := reply;
                view_reactions := msg_re message |}
          end
      end
  end.

(** [Array.prototype.map] with a callback that can throw. *)
Fixpoint map_outcome {A B : Type} (f : A -> outcome B) (l : list A) : outcome (list B) :=
  match l with
  | [] => Return []
  | x :: l' =>
      match f x with
      | Throw e => Throw e
      | Return y =>
          match map_outcome f l' with
          | Throw e => Throw e
          | Return ys => Return (y :: ys)
          end
      end
  end.

(** The keys of the current page: [messagesPerPage * (page - 1)] is
    [NaN] when the page size is, and [slice] reads [NaN] as 0. *)
Definition page_keys (s : state) (page : Z) (l : list string) : list string :=
  match messagesPerPage s with
  | None => slice l 0 None
  | Some n =>
      let startIndex := n * (page - 1) in
      slice l startIndex (if n =? 0 then None else Some (startIndex + n))
  end.

Definition getMessageList (s : state) : outcome (list message_view) * state :=
  match loadedMessages s with
  | None => (Return [], s)
  | Some l =>
      match match selectedChannel s with
            | Some channel => getMessages s channel
            | None => getMessages s "null"
            end with
      | Throw e => (Throw e, s)
      | Return messages =>
          let '(page, s') := getCurrentPage s in
          (map_outcome (view_of s' messages) (page_keys s' page l), s')
      end
  end.

(** [triggerMessagesRefreshed]: without a listener nothing is computed;
    the listener registered by the page reads [getCurrentPage] and
    [getPageCount] and draws the list it is given. *)
Definition triggerMessagesRefreshed (s : state) : outcome unit * state :=
  if eventOnMessagesRefreshed s then
    match getMessageList s with
    | (Throw e, s') => (Throw e, s')
    | (Return _, s') => (Return tt, snd (getCurrentPage s'))
    end
  else (Return tt, s).

(** [uploadFile(meta, data)].  The listeners of the user list and of the
    channel list only read the store. *)
Definition uploadFile (s : state) (meta : jsvalue metadata) (data : jsvalue filedata)
  : outcome unit * state :=
  if not_nullish (loadedFileMeta s) then (Throw "A file is already loaded!", s)
  else if negb (typeof meta =? "object")%string || negb (typeof data =? "object")%string
  then (Throw "Invalid file format!", s)
  else
    triggerMessagesRefreshed {|
      loadedFileMeta := meta;
      loadedFileData := data;
      loadedMessages := None;
      filterFunction := filterFunction s;
      selectedChannel := None;
      currentPage := Some 1;
      messagesPerPage := messagesPerPage s;
      hasActiveFilter := hasActiveFilter s;
      eventOnMessagesRefreshed := eventOnMessagesRefreshed s |}.

Definition selectChannel (s : state) (channel : string) : outcome unit * state :=
  let s1 := set_selectedChannel (Some channel) (set_currentPage (Some 1) s) in
  match getFilteredMessageKeys s1 channel with
  | Throw e => (Throw e, s1)
  | Return keys =>
      triggerMessagesRefreshed
        (set_loadedMessages (Some (JS.sort sorter.oldestToNewest keys)) s1)
  end.

Definition setMessagesPerPage (s : state) (amount : number) : outcome unit * state :=
  triggerMessagesRefreshed (set_messagesPerPage amount s).

(** The argument of [updateCurrentPage]; [pick] carries what [parseInt]
    made of the answer to the prompt. *)
Inductive page_action :=
| first
| prev
| next
| last
| pick (page : number)
| other_action.

Definition updateCurrentPage (s : state) (action : page_action) : outcome unit * state :=
  match action with
  | first => triggerMessagesRefreshed (set_currentPage (Some 1) s)
  | prev =>
      triggerMessagesRefreshed (set_currentPage (num_max 1 (num_add (currentPage s) (-1))) s)
  | next =>
      triggerMessagesRefreshed
        (set_currentPage (num_min (getPageCount s) (num_add (currentPage s) 1)) s)
  | last => triggerMessagesRefreshed (set_currentPage (Some (getPageCount s)) s)
  | pick None => (Return tt, s)
  | pick (Some page) =>
      triggerMessagesRefreshed
        (set_currentPage (Some (Z.max 1 (Z.min (getPageCount s) page))) s)
  | other_action => triggerMessagesRefreshed s
  end.

(** [1 + Math.floor(index / messagesPerPage)]: a division by 0 gives
    [Infinity] (or [NaN] for index 0), a division by [NaN] gives [NaN];
    [Math.min(total, Infinity)] is [total]. *)
Definition page_of_index (s : state) (index : Z) : number :=
  match messagesPerPage s with
  | None => None
  | Some n =>
      if n =? 0 then
        if index =? 0 then None else Some (Z.max 1 (getPageCount s))
      else Some (Z.max 1 (Z.min (getPageCount s) (1 + index / n)))
  end.

(** [index % messagesPerPage]. *)
Definition index_in_page (s : state) (index : Z) : number :=
  match messagesPerPage s with
  | None => None
  | Some n => if n =? 0 then None else Some (Z.rem index n)
  end.

(** [navigateToMessage(id)] returns -1 when the message is not in the
    list, and the index of the message in its page otherwise. *)
Definition navigateToMessage (s : state) (id : string) : outcome number * state :=
  match loadedMessages s with
  | None => (Return (Some (-1)), s)
  | Some _ =>
      match getMessageChannel s id with
      | Throw e => (Throw e, s)
      | Return channel =>
          let switched :=
            match channel with
            | Some c =>
                if match selectedChannel s with
                   | Some sel => (c =? sel)%string
                   | None => false
                   end
                then (Return tt, s)
                else selectChannel s c
            | None => (Return tt, s)
            end in
          match switched with
          | (Throw e, s1) => (Throw e, s1)
          | (Return _, s1) =>
              match loadedMessages s1 with
              | None => (Throw type_error, s1)
              | Some l =>
                  match index_of id l with
                  | None => (Return (Some (-1)), s1)
                  | Some index =>
                      match triggerMessagesRefreshed
                              (set_currentPage (page_of_index s1 (Z.of_nat index)) s1) with
                      | (Throw e, s2) => (Throw e, s2)
                      | (Return _, s2) => (Return (index_in_page s2 (Z.of_nat index)), s2)
                      end
                  end
              end
          end
      end
  end.

(** The argument of [setActiveFilter]: [null], or a type and a value. *)
Definition active_filter := option (string * string).

Section ActiveFilter.

Variable url_pathname : string -> option string.

Definition filter_of (filter2 : active_filter) : option (message -> bool) :=
  match filter2 with
  | None => None
  | Some (type, value) =>
      if (type =? "user")%string then Some (filter.byUser value)
      else if (type =? "contents")%string then Some (filter.byContents value)
      else if (type =? "withimages")%string then Some (filter.withImages url_pathname)
      else if (type =? "withdownloads")%string then Some (filter.withDownloads url_pathname)
      else if (type =? "edited")%string then Some filter.isEdited
      else None
  end.

Definition setActiveFilter (s : state) (filter2 : active_filter) : outcome unit * state :=
  let s1 := set_filterFunction (filter_of filter2) s in
  match selectedChannel s1 with
  | Some channel => if (channel =? "")%string then (Return tt, s1) else selectChannel s1 channel
  | None => (Return tt, s1)
  end.

(** *** The store as a transition system *)

Inductive action :=
| OnMessagesRefreshed
| UploadFile (meta : jsvalue metadata) (data : jsvalue filedata)
| SelectChannel (channel : string)
| SetMessagesPerPage (amount : number)
| UpdateCurrentPage (a : page_action)
| GetCurrentPage
| NavigateToMessage (id : string)
| SetActiveFilter (filter2 : active_filter).

(** The store after a call, whether it returned or threw. *)
Definition step (s : state) (a : action) : state :=
  match a with
  | OnMessagesRefreshed => onMessagesRefreshed s
  | UploadFile meta data => snd (uploadFile s meta data)
  | SelectChannel channel => snd (selectChannel s channel)
  | SetMessagesPerPage amount => snd (setMessagesPerPage s amount)
  | UpdateCurrentPage a => snd (updateCurrentPage s a)
  | GetCurrentPage => snd (getCurrentPage s)
  | NavigateToMessage id => snd (navigateToMessage s id)
  | SetActiveFilter filter2 => snd (setActiveFilter s filter2)
  end.

(** The page sizes the page offers are not negative. *)
Definition admissible (a : action) : Prop :=
  match a with
  | SetMessagesPerPage (Some n) => 0 <= n
  | _ => True
  end.

Definition run (actions : list action) : state := fold_left step actions initial_state.

End ActiveFilter.

End Viewer.

(** ** scripts/state.mjs: the channel hierarchy *)

Module Hierarchy.

Import Viewer.

(** The [Map] from a parent id to the [Set] of its children; both keep
    insertion order.  The key of the root is the empty string. *)
Definition hierarchy := list (string * list string).

(** [set.add(x)]. *)
Definition set_add (x : string) (set : list string) : list string :=
  if existsb (String.eqb x) set then set else (set ++ [x])%list.

(** [set.delete(x)]. *)
Definition set_delete (x : string) (set : list string) : list string :=
  filter (fun y => negb (y =? x)%string) set.

(** [map.delete(key)]. *)
Definition map_delete (key : string) (h : hierarchy) : hierarchy :=
  filter (fun entry => negb (fst entry =? key)%string) h.

(** [hierarchy.get(parentId).add(id)]: the set is shared with the map,
    so the entry of the map changes; nothing happens to a map that has
    no such entry. *)
Fixpoint children_add (parentId id : string) (h : hierarchy) : hierarchy :=
  match h with
  | [] => []
  | (key, children) :: h' =>
      if (key =? parentId)%string then (key, set_add id children) :: h'
      else (key, children) :: children_add parentId id h'
  end.

(** [getChildren(parentId)] creates the entry when it is missing. *)
Definition getChildren (parentId : string) (h : hierarchy) : list string * hierarchy :=
  match lookup parentId h with
  | Some children => (children, h)
  | None => ([], (h ++ [(parentId, [])])%list)
  end.

(** [channel.parent || ""]. *)
Definition parent_key (c : channel) : string :=
  match c_parent c with Some p => p | None => "" end.

(** The body of the loop over [Object.entries(loadedFileMeta.channels)]. *)
Definition add_channel (h : hierarchy) (entry : string * channel) : hierarchy :=
  children_add (parent_key (snd entry)) (fst entry)
    (snd (getChildren (parent_key (snd entry)) h)).

Definition build (channels : list (string * channel)) : hierarchy :=
  fold_left add_channel channels [].

(** A loop whose body can fail. *)
Fixpoint fold_opt {A S : Type} (body : S -> A -> option S) (l : list A) (s : S) : option S :=
  match l with
  | [] => Some s
  | x :: l' =>
      match body s x with
      | Some s' => fold_opt body l' s'
      | None => None
      end
  end.

(** [reachIds(parentId)] removes from [unreachableIds] the ids it
    visits; the recursion has no other bound than the shape of the map. *)
Fixpoint reachIds (fuel : nat) (h : hierarchy) (parentId : string)
  (unreachableIds : list string) : option (list string) :=
  match fuel with
  | O => None
  | S fuel' =>
      let unreachableIds := set_delete parentId unreachableIds in
      match lookup parentId h with
      | Some children =>
          fold_opt (fun unreachable id => reachIds fuel' h id unreachable)
            children unreachableIds
      | None => Some unreachableIds
      end
  end.

(** The body of the loop over [unreachableIds]; iterating over a
    missing entry throws. *)
Definition flatten (h : hierarchy) (unreachableId : string) : option hierarchy :=
  match lookup unreachableId h with
  | Some children =>
      Some (map_delete unreachableId
              (fold_left (fun h' id => children_add "" id h') children h))
  | None => None
  end.

Definition generateChannelHierarchy_of (fuel : nat) (channels : list (string * channel))
  : option hierarchy :=
  let hierarchy := build channels in
  match reachIds fuel hierarchy "" (map fst hierarchy) with
  | Some unreachableIds => fold_opt flatten unreachableIds (snd (getChildren "" hierarchy))
  | None => None
  end.

(** Truth value of what [loadedFileMeta] holds. *)
Definition truthy {T : Type} (v : jsvalue T) : bool :=
  match v with
  | Undefined | Null => false
  | Object _ => true
  | PString s => negb (s =? "")%string
  | PNumber z => negb (z =? 0)
  | PBoolean b => b
  end.

Definition generateChannelHierarchy (fuel : nat) (s : state) : option hierarchy :=
  if negb (truthy (loadedFileMeta s)) then Some []
  else
    match loadedFileMeta s with
    | Object meta => generateChannelHierarchy_of fuel (channels meta)
    | _ => None
    end.

(** The collation of the host: [localeCompare] in the locale [en],
    [localeCompare] with the option [numeric], and [toLocaleLowerCase]. *)
Record collation := {
  localeCompare : string -> string -> Z;
  localeCompareNumeric : string -> string -> Z;
  toLocaleLowerCase : string -> string }.

(** [a || b] on two numbers. *)
Definition or_number (a b : Z) : Z := if a =? 0 then b else a.

Definition unknown_channel : channel := {|
  c_server := ""; c_name := ""; c_parent := None; c_position := None;
  c_topic := None; c_nsfw := None |}.

(** [c.position || -1]. *)
Definition position_or (c : channel) : Z :=
  match c_position c with
  | Some p => if p =? 0 then -1 else p
  | None => -1
  end.

(** The comparator of [sortedChildren.sort]; the ids it is given are
    keys of [channels]. *)
Definition compare_channels (intl : collation) (meta : metadata) (id1 id2 : string) : Z :=
  let c1 := match lookup id1 (channels meta) with Some c => c | None => unknown_channel end in
  let c2 := match lookup id2 (channels meta) with Some c => c | None => unknown_channel end in
  let s1 := getServer meta (c_server c1) in
  let s2 := getServer meta (c_server c2) in
  or_number (localeCompare intl (s_type s1) (s_type s2))
    (or_number
       (localeCompareNumeric intl (toLocaleLowerCase intl (s_name s1))
          (toLocaleLowerCase intl (s_name s2)))
       (or_number (position_or c1 - position_or c2)
          (localeCompareNumeric intl (toLocaleLowerCase intl (c_name c1))
             (toLocaleLowerCase intl (c_name c2))))).

(** [getSortedSubTree(parentId)]: each sorted child, followed by its own
    sub-tree. *)
Fixpoint getSortedSubTree (fuel : nat) (cmp : string -> string -> Z) (h : hierarchy)
  (parentId : string) : option (list string) :=
  match fuel with
  | O => None
  | S fuel' =>
      match lookup parentId h with
      | None => Some []
      | Some children =>
          fold_opt
            (fun subTree id =>
               match getSortedSubTree fuel' cmp h id with
               | Some sub => Some (subTree ++ id :: sub)%list
               | None => None
               end)
            (JS.sort cmp children) []
      end
  end.

(** The array [orderArray] of [generateChannelOrder]. *)
Definition orderArray (fuel : nat) (intl : collation) (meta : metadata)
  : option (list string) :=
  match generateChannelHierarchy_of fuel (channels meta) with
  | Some hierarchy => getSortedSubTree fuel (compare_channels intl meta) hierarchy ""
  | None => None
  end.

(** [obj[key] = value] on an object given by its entries. *)
Fixpoint assign {V : Type} (key : string) (value : V) (entries : list (string * V))
  : list (string * V) :=
  match entries with
  | [] => [(key, value)]
  | (k, v) :: rest =>
      if (k =? key)%string then (k, value) :: rest else (k, v) :: assign key value rest
  end.

(** [generateChannelOrder]: the rank of each id in [orderArray]. *)
Definition generateChannelOrder (fuel : nat) (intl : collation) (s : state)
  : option (list (string * Z)) :=
  if negb (truthy (loadedFileMeta s)) then Some []
  else
    match loadedFileMeta s with
    | Object meta =>
        match orderArray fuel intl meta with
        | Some order =>
            Some (fold_left (fun orderMap ik => assign (snd ik) (Z.of_nat (fst ik)) orderMap)
                    (combine (seq 0 (List.length order)) order) [])
        | None => None
        end
    | _ => None
    end.

(** *** Reachability from the root, as the statements name it *)

(** The parent key of an id; the empty string for an id of no channel. *)
Definition parent_of (channels : list (string * channel)) (id : string) : string :=
  match lookup id channels with Some c => parent_key c | None => "" end.

(** [reach_in channels k id]: following the parent links from [id]
    arrives at the root after exactly [k] channels. *)
Fixpoint reach_in (channels : list (string * channel)) (k : nat) (id : string) : bool :=
  match k with
  | O => (id =? "")%string
  | S k' =>
      match lookup id channels with
      | Some c => reach_in channels k' (parent_key c)
      | None => false
      end
  end.

(** The level of an id below the root, when its parent links lead there. *)
Definition level (channels : list (string * channel)) (id : string) : option nat :=
  find (fun k => reach_in channels k id) (seq 0 (S (List.length channels))).

Definition reachable (channels : list (string * channel)) (id : string) : bool :=
  match level channels id with Some _ => true | None => false end.

(** The ids [reachIds] visits from [parentId]. *)
Fixpoint visit (fuel : nat) (h : hierarchy) (parentId : string) : list string :=
  match fuel with
  | O => []
  | S fuel' =>
      parentId ::
      match lookup parentId h with
      | Some children => flat_map (visit fuel' h) children
      | None => []
      end
  end.

(** The children of [parentId] among the entries, in their order. *)
Definition kids (parentId : string) (channels : list (string * channel)) : list string :=
  fold_left
    (fun children entry =>
       if (parent_key (snd entry) =? parentId)%string
       then set_add (fst entry) children else children)
    channels [].

(** The parent of an id in the resolved tree: its own parent when that
    is reachable from the root, the root otherwise. *)
Definition resolved_parent (channels : list (string * channel)) (id : string) : string :=
  if reachable channels (parent_of channels id) then parent_of channels id else "".

(** The level of an id in the resolved tree. *)
Definition resolved_level (channels : list (string * channel)) (id : string) : nat :=
  match lookup id channels with
  | Some c =>
      S (match level channels (parent_key c) with Some k => k | None => O end)
  | None => O
  end.

(** The ids on the way from [id] up to the root of a tree given by its
    parent function. *)
Fixpoint chain (ids : list string) (parent : string -> string) (fuel : nat) (id : string)
  : list string :=
  match fuel with
  | O => []
  | S fuel' =>
      if existsb (String.eqb id) ids then id :: chain ids parent fuel' (parent id) else []
  end.

End Hierarchy.

(** ** Regular expressions *)

(** The fragment of JavaScript regular expressions the viewer uses, with
    the backtracking semantics of the language: alternatives are tried
    from left to right, a greedy quantifier tries one more iteration
    before it tries what follows, a lazy one the other way round. *)
Module Regex.

Inductive regex : Type :=
| Eps
| Chr (p : ascii -> bool)
| Seq (r1 r2 : regex)
| Alt (r1 r2 : regex)
| Star (greedy : bool) (r : regex)
| Group (n : nat) (r : regex)
| Backref (n : nat)
| NotAhead (r : regex)
| WordBoundary.

(** The text of each capturing group that has matched. *)
Definition captures := list (nat * string).

Fixpoint capture (n : nat) (caps : captures) : option string :=
  match caps with
  | [] => None
  | (m, s) :: caps' => if (m =? n)%nat then Some s else capture n caps'
  end.

(** [$n] in a replacement, and an argument of a replacement function
    where the code only uses groups that have matched. *)
Definition group (n : nat) (caps : captures) : string :=
  match capture n caps with Some s => s | None => "" end.

Definition code (c : ascii) : nat := nat_of_ascii c.

Definition in_range (lo hi : nat) (c : ascii) : bool :=
  ((lo <=? code c) && (code c <=? hi))%nat.

(** [\w], [\d] and [\s] on 8-bit code units. *)
Definition is_word (c : ascii) : bool :=
  in_range 65 90 c || in_range 97 122 c || in_range 48 57 c || (code c =? 95)%nat.

Definition is_digit (c : ascii) : bool := in_range 48 57 c.

Definition is_space (c : ascii) : bool :=
  in_range 9 13 c || (code c =? 32)%nat || (code c =? 160)%nat.

Definition is_char (a : ascii) (c : ascii) : bool := (a =? c)%char.

Definition any_char (c : ascii) : bool := true.

(** A string as the sequence of its characters. *)
Fixpoint lit (s : string) : regex :=
  match s with
  | EmptyString => Eps
  | String c s' => Seq (Chr (is_char c)) (lit s')
  end.

(** A letter under the flag [i]. *)
Definition is_letter_ci (a : ascii) (c : ascii) : bool :=
  (Exporter.lower_char a =? Exporter.lower_char c)%char.

Fixpoint lit_ci (s : string) : regex :=
  match s with
  | EmptyString => Eps
  | String c s' => Seq (Chr (is_letter_ci c)) (lit_ci s')
  end.

Definition Plus (greedy : bool) (r : regex) : regex := Seq r (Star greedy r).

(** [r?] *)
Definition Opt (r : regex) : regex := Alt r Eps.

Fixpoint last_char (prev : option ascii) (s : string) : option ascii :=
  match s with
  | EmptyString => prev
  | String c s' => last_char (Some c) s'
  end.

(** The text [t] at the head of [s]. *)
Fixpoint strip_prefix (t s : string) : option string :=
  match t, s with
  | EmptyString, _ => Some s
  | String a t', String b s' => if (a =? b)%char then strip_prefix t' s' else None
  | String _ _, EmptyString => None
  end.

Definition word_before (prev : option ascii) : bool :=
  match prev with Some c => is_word c | None => false end.

Definition word_after (s : string) : bool :=
  match s with String c _ => is_word c | EmptyString => false end.

Definition set_capture (n : nat) (s : string) (caps : captures) : captures := (n, s) :: caps.

(** [rmatch r prev s caps k]: match [r] at the head of [s], where
    [prev] is the character before, then go on with [k]; the result is
    the rest of the subject after the whole match, with the captures. *)
Fixpoint rmatch (r : regex) (prev : option ascii) (s : string) (caps : captures)
  (k : option ascii -> string -> captures -> option (string * captures))
  {struct r} : option (string * captures) :=
  match r with
  | Eps => k prev s caps
  | Chr p =>
      match s with
      | String c s' => if p c then k (Some c) s' caps else None
      | EmptyString => None
      end
  | Seq r1 r2 =>
      rmatch r1 prev s caps (fun prev' s' caps' => rmatch r2 prev' s' caps' k)
  | Alt r1 r2 =>
      match rmatch r1 prev s caps k with
      | Some res => Some res
      | None => rmatch r2 prev s caps k
      end
  | Star greedy r1 =>
      (fix loop (n : nat) (prev : option ascii) (s : string) (caps : captures)
         : option (string * captures) :=
         match n with
         | O => k prev s caps
         | S n' =>
             let again :=
               rmatch r1 prev s caps
                 (fun prev' s' caps' =>
                    if (String.length s' <? String.length s)%nat
                    then loop n' prev' s' caps' else None) in
             if greedy then
               match again with
               | Some res => Some res
               | None => k prev s caps
               end
             else
               match k prev s caps with
               | Some res => Some res
               | None => again
               end
         end) (S (String.length s)) prev s caps
  | Group n r1 =>
      rmatch r1 prev s caps
        (fun prev' s' caps' =>
           k prev' s'
             (set_capture n (String.substring 0 (String.length s - String.length s') s)
                caps'))
  | Backref n =>
      match strip_prefix (group n caps) s with
      | Some s' => k (last_char prev (group n caps)) s' caps
      | None => None
      end
  | NotAhead r1 =>
      match rmatch r1 prev s caps (fun _ s' caps' => Some (s', caps')) with
      | Some _ => None
      | None => k prev s caps
      end
  | WordBoundary =>
      if xorb (word_before prev) (word_after s) then k prev s caps else None
  end.

Definition accept (prev : option ascii) (s : string) (caps : captures)
  : option (string * captures) := Some (s, caps).

(** [s.replace(r, f)] for a regular expression with the flag [g]: the
    matches are found from left to right, each after the end of the one
    before; [f] gets the matched text and the captures. *)
Fixpoint replace_from (fuel : nat) (r : regex) (f : string -> captures -> string)
  (prev : option ascii) (s : string) : string :=
  match fuel with
  | O => s
  | S fuel' =>
      match rmatch r prev s [] accept with
      | Some (rest, caps) =>
          let n := (String.length s - String.length rest)%nat in
          if (n =? 0)%nat then
            match s with
            | String c s' => f "" caps ++ String c (replace_from fuel' r f (Some c) s')
            | EmptyString => f "" caps
            end
          else
            let full := String.substring 0 n s in
            f full caps ++ replace_from fuel' r f (last_char prev full) rest
      | None =>
          match s with
          | String c s' => String c (replace_from fuel' r f (Some c) s')
          | EmptyString => EmptyString
          end
      end
  end.

Definition replace (r : regex) (f : string -> captures -> string) (s : string) : string :=
  replace_from (S (String.length s)) r f None s.

End Regex.

(** ** scripts/dom.mjs: [escapeHTML] *)

Module dom.

Import Regex.

Definition double_quote : ascii := ascii_of_nat 34.

(** [HTML_ENTITY_MAP[s]]. *)
Definition HTML_ENTITY_MAP (c : ascii) : string :=
  if (c =? "&")%char then "&amp;"
  else if (c =? "<")%char then "&lt;"
  else if (c =? ">")%char then "&gt;"
  else if (c =? double_quote)%char then "&quot;"
  else if (c =? "'")%char then "&#39;"
  else String c EmptyString.

(** The characters of [HTML_ENTITY_REGEX]. *)
Definition is_html_special (c : ascii) : bool :=
  (c =? "&")%char || (c =? "<")%char || (c =? ">")%char
  || (c =? double_quote)%char || (c =? "'")%char.

Definition HTML_ENTITY_REGEX : regex := Chr is_html_special.

Definition escapeHTML (html : string) : string :=
  replace HTML_ENTITY_REGEX
    (fun s _ => match s with String c _ => HTML_ENTITY_MAP c | EmptyString => "" end)
    html.

End dom.

(** ** scripts/discord.mjs: [processMessageContents] *)

Module discord.

Import Regex Viewer.

(** The character class of the body of a URL, [[-A-Z0-9+&@#/%?=~_|!:,.;]]
    under the flag [i], and the class of its last character. *)
Definition is_url_end (c : ascii) : bool :=
  in_range 65 90 c || in_range 97 122 c || in_range 48 57 c
  || existsb (fun a => (a =? c)%char)
       ["-"; "+"; "&"; "@"; "#"; "/"; "%"; "="; "~"; "_"; "|"]%char.

Definition is_url_body (c : ascii) : bool :=
  is_url_end c || existsb (fun a => (a =? c)%char) ["?"; "!"; ":"; ","; "."; ";"]%char.

(** [\b(?:https?|ftp|file):\/\/[...]*[...]] *)
Definition url : regex :=
  Seq WordBoundary
    (Seq (Alt (Seq (lit_ci "http") (Opt (Chr (is_letter_ci "s"))))
            (Alt (lit_ci "ftp") (lit_ci "file")))
       (Seq (lit "://") (Seq (Star true (Chr is_url_body)) (Chr is_url_end)))).

Definition formatUrl : regex := Group 1 url.

Definition formatUrlNoEmbed : regex :=
  Seq (Chr (is_char "<")) (Seq (Group 1 url) (Chr (is_char ">"))).

Definition not_char (a : ascii) (c : ascii) : bool := negb (a =? c)%char.

(** The five inline styles: an opening mark, the shortest nonempty
    text (group 1), the closing mark, not followed by [not_after]. *)
Definition delimited (open close : string) (not_after : ascii) : regex :=
  Seq (lit open)
    (Seq (Group 1 (Plus false (Chr any_char)))
       (Seq (lit close) (NotAhead (Chr (is_char not_after))))).

Definition formatBold : regex := delimited "**" "**" "*".
Definition formatItalic1 : regex := delimited "*" "*" "*".
Definition formatItalic2 : regex := Seq (delimited "_" "_" "_") WordBoundary.
Definition formatUnderline : regex := delimited "__" "__" "_".
Definition formatStrike : regex := delimited "~~" "~~" "~".

(** [(`+)\s*([\s\S]*?[^`])\s*\1(?!`)] *)
Definition formatCodeInline : regex :=
  Seq (Group 1 (Plus true (Chr (is_char "`"))))
    (Seq (Star true (Chr is_space))
       (Seq (Group 2 (Seq (Star false (Chr any_char)) (Chr (not_char "`"))))
          (Seq (Star true (Chr is_space))
             (Seq (Backref 1) (NotAhead (Chr (is_char "`"))))))).

Definition newline : ascii := ascii_of_nat 10.

(** [[A-z0-9\-]]: the range from A to z holds six more characters than
    the letters. *)
Definition is_language_tag (c : ascii) : bool :=
  in_range 65 122 c || in_range 48 57 c || (c =? "-")%char.

(** [```(?:([A-z0-9\-]+?)\n+)?\n*([^]+?)\n*```] *)
Definition formatCodeBlock : regex :=
  Seq (lit "```")
    (Seq (Opt (Seq (Group 1 (Plus false (Chr is_language_tag)))
                 (Plus true (Chr (is_char newline)))))
       (Seq (Star true (Chr (is_char newline)))
          (Seq (Group 2 (Plus false (Chr any_char)))
             (Seq (Star true (Chr (is_char newline))) (lit "```"))))).

Definition specialEscapedBacktick : regex := lit "\`".

Definition is_escapable (c : ascii) : bool :=
  (c =? "*")%char || (c =? "_")%char || (c =? "\")%char.

(** [\\([*_\\])] *)
Definition specialEscapedSingle : regex :=
  Seq (Chr (is_char "\")) (Group 1 (Chr is_escapable)).

(** [\\__|_\\_|\\_\\_|\\~~|~\\~|\\~\\~] *)
Definition specialEscapedDouble : regex :=
  Alt (lit "\__") (Alt (lit "_\_") (Alt (lit "\_\_")
    (Alt (lit "\~~") (Alt (lit "~\~") (lit "\~\~"))))).

(** [([*_~\\])] *)
Definition specialUnescaped : regex :=
  Group 1 (Chr (fun c => is_escapable c || (c =? "~")%char)).

Definition digits_lazy : regex := Plus false (Chr is_digit).

(** [&lt;#(\d+?)&gt;] *)
Definition mentionChannel : regex :=
  Seq (lit "&lt;#") (Seq (Group 1 digits_lazy) (lit "&gt;")).

(** [&lt;@!?(\d+?)&gt;] *)
Definition mentionUser : regex :=
  Seq (lit "&lt;@")
    (Seq (Opt (Chr (is_char "!"))) (Seq (Group 1 digits_lazy) (lit "&gt;"))).

(** [&lt;:([^:]+):(\d+?)&gt;] and [&lt;a:([^:]+):(\d+?)&gt;] *)
Definition customEmoji (prefix : string) : regex :=
  Seq (lit prefix)
    (Seq (Group 1 (Plus true (Chr (not_char ":"))))
       (Seq (Chr (is_char ":")) (Seq (Group 2 digits_lazy) (lit "&gt;")))).

Definition customEmojiStatic : regex := customEmoji "&lt;:".
Definition customEmojiAnimated : regex := customEmoji "&lt;a:".

(** What the renderer reads besides the text: two settings, the
    metadata of the store, and [fileUrlProcessor], which depends on the
    token of the page. *)
Record environment := {
  enableFormatting : bool;
  enableAnimatedEmoji : bool;
  fileUrlProcessor : string -> string;
  meta : metadata }.

(** [channelObj && channelObj.name || channel] *)
Definition getChannelName (env : environment) (channel : string) : string :=
  match lookup channel (channels (meta env)) with
  | Some channelObj => if (c_name channelObj =? "")%string then channel else c_name channelObj
  | None => channel
  end.

Definition getUserName (env : environment) (user : string) : string :=
  match lookup user (users (meta env)) with
  | Some userObj => if (u_name userObj =? "")%string then user else u_name userObj
  | None => user
  end.

(** [userObj && (userObj.displayName || userObj.name) || user] *)
Definition getUserDisplayName (env : environment) (user : string) : string :=
  match lookup user (users (meta env)) with
  | Some userObj =>
      let name :=
        match u_displayName userObj with
        | Some d => if (d =? "")%string then u_name userObj else d
        | None => u_name userObj
        end in
      if (name =? "")%string then user else name
  | None => user
  end.

Definition getEmoji (env : environment) (name id extension : string) : string :=
  let tag := ":" ++ name ++ ":" in
  "<img src='"
  ++ fileUrlProcessor env ("https://cdn.discordapp.com/emojis/" ++ id ++ "." ++ extension)
  ++ "' alt='" ++ tag ++ "' title='" ++ tag ++ "' class='emoji'>".

(** The numeric character reference of the first code unit of the
    captured text. *)
Definition escapeHtmlMatch (match_ : string) : string :=
  match match_ with
  | String c _ => "&#" ++ Py.str_int (Z.of_nat (code c)) ++ ";"
  | EmptyString => "&#NaN;"
  end.

Definition escape_special (s : string) : string :=
  replace specialUnescaped (fun _ caps => escapeHtmlMatch (group 1 caps)) s.

(** [.] matches every character but a line terminator. *)
Definition is_dot (c : ascii) : bool := negb ((code c =? 10) || (code c =? 13))%nat.

(** The first statement: the wrapper of a URL that asks for no embed is
    removed from the raw text, and the result is escaped. *)
Definition unwrapNoEmbed (contents : string) : string :=
  replace formatUrlNoEmbed (fun _ caps => group 1 caps) contents.

(** The chain of replacements under [enableFormatting]. *)
Definition applyFormatting (processed : string) : string :=
  let processed := replace specialEscapedBacktick (fun _ _ => "&#96;") processed in
  let processed :=
    replace formatCodeBlock
      (fun _ caps => "<code class='block'>" ++ escape_special (group 2 caps) ++ "</code>")
      processed in
  let processed :=
    replace formatCodeInline
      (fun _ caps => "<code class='inline'>" ++ escape_special (group 2 caps) ++ "</code>")
      processed in
  let processed :=
    replace specialEscapedSingle (fun _ caps => escapeHtmlMatch (group 1 caps)) processed in
  let processed :=
    replace specialEscapedDouble
      (fun full _ =>
         replace (Group 1 (Chr is_dot)) (fun _ caps => escapeHtmlMatch (group 1 caps))
           (replace (lit "\") (fun _ _ => "") full))
      processed in
  let processed := replace formatBold (fun _ caps => "<b>" ++ group 1 caps ++ "</b>") processed in
  let processed :=
    replace formatUnderline (fun _ caps => "<u>" ++ group 1 caps ++ "</u>") processed in
  let processed :=
    replace formatItalic1 (fun _ caps => "<i>" ++ group 1 caps ++ "</i>") processed in
  let processed :=
    replace formatItalic2 (fun _ caps => "<i>" ++ group 1 caps ++ "</i>") processed in
  replace formatStrike (fun _ caps => "<s>" ++ group 1 caps ++ "</s>") processed.

(** The replacements that do not depend on [enableFormatting]. *)
Definition applyLinks (env : environment) (processed : string) : string :=
  let animatedEmojiExtension := if enableAnimatedEmoji env then "gif" else "webp" in
  let processed :=
    replace formatUrl
      (fun _ caps =>
         "<a href='" ++ group 1 caps ++ "' target='_blank' rel='noreferrer'>"
         ++ group 1 caps ++ "</a>")
      processed in
  let processed :=
    replace mentionChannel
      (fun _ caps =>
         "<span class='link mention-chat'>#" ++ getChannelName env (group 1 caps) ++ "</span>")
      processed in
  let processed :=
    replace mentionUser
      (fun _ caps =>
         "<span class='link mention-user' title='" ++ getUserName env (group 1 caps)
         ++ "'>@" ++ getUserDisplayName env (group 1 caps) ++ "</span>")
      processed in
  let processed :=
    replace customEmojiStatic
      (fun _ caps => getEmoji env (group 1 caps) (group 2 caps) "webp") processed in
  replace customEmojiAnimated
    (fun _ caps => getEmoji env (group 1 caps) (group 2 caps) animatedEmojiExtension)
    processed.

Definition processMessageContents (env : environment) (contents : string) : string :=
  let processed := dom.escapeHTML (unwrapNoEmbed contents) in
  let processed := if enableFormatting env then applyFormatting processed else processed in
  let processed := applyLinks env processed in
  "<p>" ++ processed ++ "</p>".

(** The pipeline as the specification words it: the text is escaped
    before any other transform, the removal of the no-embed wrapper
    included. *)
Definition processMessageContents_escaped_first (env : environment) (contents : string)
  : string :=
  let processed := unwrapNoEmbed (dom.escapeHTML contents) in
  let processed := if enableFormatting env then applyFormatting processed else processed in
  let processed := applyLinks env processed in
  "<p>" ++ processed ++ "</p>".

End discord.

(** ** dhtexporter.py: [main]; scripts/bootstrap.mjs: [loadData] and [processLines] *)

Module bootstrap.

Import Viewer.

Definition line_feed : ascii := ascii_of_nat 10.

Definition newline : string := String line_feed EmptyString.






(** [s.split("\n")]: the pieces between the line feeds; the empty text
    has one empty piece. *)
Fixpoint split (s : string) : list string :=
  match s with
  | EmptyString => [EmptyString]
  | String c s' =>
      if (c =? line_feed)%char then EmptyString :: split s'
      else
        match split s' with
        | piece :: pieces => String c piece :: pieces
        | [] => [String c EmptyString]
        end
  end.



(** What [JSON.parse] makes of a line of the export: the fields [id] and
    [c], and the message that is left when the two are deleted. *)
Record parsed := {
  parsed_id : string;
  parsed_c : string;
  parsed_message : message }.

(** The body of the loop of [loadData]:
    [messages[channel] || (messages[channel] = {})], then
    [channelMessages[message.id] = message]. *)
Definition add_message (messages : filedata) (line : parsed) : filedata :=
  let channelMessages :=
    match lookup (parsed_c line) messages with
    | Some channelMessages => channelMessages
    | None => []
    end in
  Hierarchy.assign (parsed_c line)
    (Hierarchy.assign (parsed_id line) (parsed_message line) channelMessages)
    messages.

Definition load_messages (lines : list parsed) : filedata := fold_left add_message lines [].

(** *** [processLines] *)

(** The loop [while (true)] over one value of [body]: each line feed
    found from [startIndex] on ends a line, which goes to the callback.
    [calls] lists the arguments of the calls made so far. *)
Fixpoint scan (fuel : nat) (body : string) (startIndex : nat) (calls : list string)
  : list string * nat :=
  match fuel with
  | O => (calls, startIndex)
  | S fuel' =>
      match String.index startIndex newline body with
      | None => (calls, startIndex)
      | Some endIndex =>
          scan fuel' body (S endIndex)
            (calls ++ [String.substring startIndex (endIndex - startIndex) body])%list
      end
  end.

(** The body of the loop over the chunks of the response. *)
Definition process_chunk (state : string * list string) (chunk : string)
  : string * list string :=
  let body := (fst state ++ chunk)%string in
  let '(calls, startIndex) := scan (S (String.length body)) body 0 (snd state) in
  (String.substring startIndex (String.length body - startIndex) body, calls).

(** The arguments of the calls of [callback], in order. *)
Definition processLines (chunks : list string) : list string :=
  let '(body, calls) := fold_left process_chunk chunks (EmptyString, []) in
  if (body =? "")%string then calls else (calls ++ [body])%list.

End bootstrap.

(** ** scripts/gui.mjs: [updateNavigation] *)

Module gui.

(** What [updateNavigation] writes into the page: the two numbers of the
    button [nav-pick] (a total of 0 is shown as a question mark), and
    the property [disabled] of the five buttons. *)
Record navigation := {
  nav_page_current : Z;
  nav_page_total : option Z;
  nav_first : bool;
  nav_prev : bool;
  nav_pick : bool;
  nav_next : bool;
  nav_last : bool }.

(** [totalPages || k] *)
Definition total_or (totalPages k : Z) : Z := if totalPages =? 0 then k else totalPages.

Definition updateNavigation (currentPage totalPages : Z) : navigation := {|
  nav_page_current := currentPage;
  nav_page_total := if totalPages =? 0 then None else Some totalPages;
  nav_first := currentPage =? 1;
  nav_prev := currentPage =? 1;
  nav_pick := total_or totalPages 0 <=? 1;
  nav_next := currentPage =? total_or totalPages 1;
  nav_last := currentPage =? total_or totalPages 1 |}.

(** The listener of the message list calls
    [updateNavigation(getCurrentPage(), getPageCount())]. *)
Definition refreshNavigation (s : Viewer.state) : navigation :=
  let '(currentPage, s') := Viewer.getCurrentPage s in
  updateNavigation currentPage (Viewer.getPageCount s').

End gui.

(** ** scripts/settings.mjs *)

Module settings.

Import Viewer.

(** [localStorage]: its items, or [None] where every access throws. *)
Definition storage := option (list (string * string)).

(** [getStorageItem] catches the exception and returns [null]. *)
Definition getStorageItem (localStorage : storage) (property : string) : option string :=
  match localStorage with
  | Some items => lookup property items
  | None => None
  end.

(** [setStorageItem] catches the exception and stores nothing. *)
Definition setStorageItem (localStorage : storage) (property value : string) : storage :=
  match localStorage with
  | Some items => Some (Hierarchy.assign property value items)
  | None => None
  end.

Definition fromBooleanString (value : string) : option bool :=
  if (value =? "true")%string then Some true
  else if (value =? "false")%string then Some false
  else None.

(** The text [localStorage.setItem] stores for a boolean. *)
Definition string_of_boolean (value : bool) : string := if value then "true" else "false".

(** The object [root] with its fields [_property], the store of the
    browser, the number of callbacks in [settingsChangedEvents], and the
    arguments of the calls of these callbacks so far. *)
Record state := {
  root : list (string * bool);
  localStorage : storage;
  settingsChangedEvents : nat;
  calls : list string }.

(** [onSettingsChanged(callback)] *)
Definition onSettingsChanged (s : state) : state := {|
  root := root s;
  localStorage := localStorage s;
  settingsChangedEvents := S (settingsChangedEvents s);
  calls := calls s |}.

(** The value [defineSettingProperty] gives the field of a property. *)
Definition stored_or_default (localStorage : storage) (property : string)
  (defaultValue : bool) (storageToValue : string -> option bool) : bool :=
  let stored :=
    match getStorageItem localStorage property with
    | Some stored => storageToValue stored
    | None => None
    end in
  match stored with
  | None => defaultValue
  | Some stored => stored
  end.

Definition defineSettingProperty (property : string) (defaultValue : bool)
  (storageToValue : string -> option bool) (s : state) : state := {|
  root :=
    Hierarchy.assign ("_" ++ property)
      (stored_or_default (localStorage s) property defaultValue storageToValue) (root s);
  localStorage := localStorage s;
  settingsChangedEvents := settingsChangedEvents s;
  calls := calls s |}.

(** The getter and the setter of a property. *)
Definition get (s : state) (property : string) : option bool :=
  lookup ("_" ++ property) (root s).

Definition set (s : state) (property : string) (value : bool) : state := {|
  root := Hierarchy.assign ("_" ++ property) value (root s);
  localStorage := setStorageItem (localStorage s) property (string_of_boolean value);
  settingsChangedEvents := settingsChangedEvents s;
  calls := (calls s ++ repeat property (settingsChangedEvents s))%list |}.

(** The module when the page is loaded. *)
Definition load (localStorage : storage) : state :=
  defineSettingProperty "enableAnimatedEmoji" true fromBooleanString
    (defineSettingProperty "enableUserAvatars" true fromBooleanString
       (defineSettingProperty "enableFormatting" true fromBooleanString
          (defineSettingProperty "enableImagePreviews" true fromBooleanString
             {| root := []; localStorage := localStorage;
                settingsChangedEvents := 0; calls := [] |}))).

Definition properties : list string :=
  ["enableImagePreviews"; "enableFormatting"; "enableUserAvatars"; "enableAnimatedEmoji"].

End settings.

(** ** Predicates used in the statements *)

Module Inv.

Import Viewer.

(** What holds of the worker pool between two steps: every queued or
    running task carries the item of its index, a future that is still
    empty belongs to such a task, and a future that is set holds the
    result of its own item. *)
Definition pool_inv {A R : Type} (fn : A -> R) (items : list A)
  (queue running : list (nat * A)) (futures : list (option R)) : Prop :=
  (forall i a, In (i, a) (running ++ queue)%list -> nth_error items i = Some a) /\
  List.length futures = List.length items /\
  (forall i, nth_error futures i = Some None -> In i (map fst (running ++ queue)%list)) /\
  (forall i r, nth_error futures i = Some (Some r) ->
     exists a, nth_error items i = Some a /\ r = fn a).

(** Two stores that differ at most in the current page. *)
Definition same_but_page (s s' : state) : Prop :=
  loadedFileMeta s' = loadedFileMeta s /\
  loadedFileData s' = loadedFileData s /\
  loadedMessages s' = loadedMessages s /\
  filterFunction s' = filterFunction s /\
  selectedChannel s' = selectedChannel s /\
  messagesPerPage s' = messagesPerPage s /\
  hasActiveFilter s' = hasActiveFilter s /\
  eventOnMessagesRefreshed s' = eventOnMessagesRefreshed s.

(** The page size is not negative. *)
Definition page_size_ok (s : state) : Prop :=
  match messagesPerPage s with Some n => 0 <= n | None => True end.

(** The stored page is not negative, and it is at most 1 while the
    message list is empty or absent. *)
Definition page_ok (s : state) : Prop :=
  match currentPage s with
  | Some c =>
      0 <= c /\
      match loadedMessages s with
      | Some (_ :: _) => True
      | _ => c <= 1
      end
  | None => True
  end.

(** The loaded list holds keys of the selected channel. *)
Definition list_ok (s : state) : Prop :=
  forall l, loadedMessages s = Some l ->
    exists channel messages,
      selectedChannel s = Some channel /\
      getMessages s channel = Return messages /\
      forall k, In k l -> lookup k messages <> None.

Definition store_inv (s : state) : Prop := page_size_ok s /\ page_ok s /\ list_ok s.

(** A text rewritten character by character. *)
Fixpoint map_chars (g : ascii -> string) (s : string) : string :=
  match s with
  | EmptyString => EmptyString
  | String c s' => g c ++ map_chars g s'
  end.

Fixpoint all_chars (p : ascii -> bool) (s : string) : bool :=
  match s with
  | EmptyString => true
  | String c s' => p c && all_chars p s'
  end.

(** The characters that open or close a tag or an attribute value. *)
Definition is_markup (c : ascii) : bool :=
  (c =? "<")%char || (c =? ">")%char || (c =? dom.double_quote)%char || (c =? "'")%char.

(** No character of the text is markup. *)
Definition markup_free (s : string) : bool := all_chars (fun c => negb (is_markup c)) s.

End Inv.

(** ** Sample data *)

(** ** The shape of texts *)

Module Shape.

(** No character of the text is a control character. *)
Definition printable (s : string) : bool :=
  Inv.all_chars (fun c => (32 <=? nat_of_ascii c)%nat) s.

(** A text in braces without control characters, as [json.dumps] writes
    an object. *)
Definition json_line (s : string) : Prop :=
  exists t, s = ("{" ++ t ++ "}")%string /\ printable t = true.

(** A text cut at its line feeds: the lines that are complete, and
    what follows the last line feed. *)
Fixpoint cut_lines (s : string) : list string * string :=
  match s with
  | EmptyString => ([], EmptyString)
  | String c s' =>
      let '(lines, rest) := cut_lines s' in
      if (c =? bootstrap.line_feed)%char then (EmptyString :: lines, rest)
      else
        match lines with
        | [] => ([], String c rest)
        | line :: lines' => (String c line :: lines', rest)
        end
  end.

(** Each line followed by a line feed. *)
Fixpoint text_of_lines (lines : list string) : string :=
  match lines with
  | [] => EmptyString
  | line :: lines' => line ++ bootstrap.newline ++ text_of_lines lines'
  end.

Definition no_feed (s : string) : bool :=
  Inv.all_chars (fun c => negb (c =? bootstrap.line_feed)%char) s.

(** The number that a text of decimal digits denotes. *)
Definition digit (c : ascii) : Z := Z.of_nat (nat_of_ascii c) - 48.

Fixpoint digits_value (s : string) : Z :=
  match s with
  | EmptyString => 0
  | String c s' => digit c * 10 ^ Z.of_nat (String.length s') + digits_value s'
  end.

Definition is_digits (s : string) : bool := Inv.all_chars Regex.is_digit s.

(** The 256 characters. *)
Definition all_ascii : list ascii := map ascii_of_nat (seq 0 256).

(** [needs p r]: whatever [r] matches holds a character that satisfies
    [p], by the form of [r] alone. *)
Fixpoint needs (p : ascii -> bool) (r : Regex.regex) : bool :=
  match r with
  | Regex.Chr q => forallb (fun c => implb (q c) (p c)) all_ascii
  | Regex.Seq r1 r2 => needs p r1 || needs p r2
  | Regex.Alt r1 r2 => needs p r1 && needs p r2
  | Regex.Group _ r1 => needs p r1
  | _ => false
  end.

(** The loop of a quantifier in [Regex.rmatch], by itself: [m] matches
    the body once. *)
Definition star_loop (greedy : bool)
  (m : option ascii -> string -> Regex.captures ->
       (option ascii -> string -> Regex.captures -> option (string * Regex.captures)) ->
       option (string * Regex.captures))
  (k : option ascii -> string -> Regex.captures -> option (string * Regex.captures))
  : nat -> option ascii -> string -> Regex.captures -> option (string * Regex.captures) :=
  fix loop (n : nat) (prev : option ascii) (s : string) (caps : Regex.captures) :=
    match n with
    | O => k prev s caps
    | S n' =>
        let again :=
          m prev s caps
            (fun prev' s' caps' =>
               if (String.length s' <? String.length s)%nat
               then loop n' prev' s' caps' else None) in
        if greedy then
          match again with
          | Some res => Some res
          | None => k prev s caps
          end
        else
          match k prev s caps with
          | Some res => Some res
          | None => again
          end
    end.

(** No character of the text satisfies [p]. *)
Definition free_of (p : ascii -> bool) (s : string) : bool :=
  Inv.all_chars (fun c => negb (p c)) s.

(** The characters that mean something to the renderer: the five that
    [escapeHTML] replaces, the marks of the formatting, the colon of a
    URL. *)
Definition is_rendering_char (c : ascii) : bool :=
  dom.is_html_special c
  || existsb (Ascii.eqb c) ["\"; "`"; "*"; "_"; "~"; ":"]%char.

(** The character that an escaped text starts with, and the rest. *)
Definition unescape_head (s : string) : option (ascii * string) :=
  match Regex.strip_prefix "&amp;" s with
  | Some rest => Some ("&"%char, rest)
  | None =>
  match Regex.strip_prefix "&lt;" s with
  | Some rest => Some ("<"%char, rest)
  | None =>
  match Regex.strip_prefix "&gt;" s with
  | Some rest => Some (">"%char, rest)
  | None =>
  match Regex.strip_prefix "&quot;" s with
  | Some rest => Some (dom.double_quote, rest)
  | None =>
  match Regex.strip_prefix "&#39;" s with
  | Some rest => Some ("'"%char, rest)
  | None =>
  match s with
  | EmptyString => None
  | String c rest => if (c =? "&")%char then None else Some (c, rest)
  end end end end end end.

End Shape.

Module Sample.

(** A small store: three messages of one channel, the first with an
    attachment and no text, the second with text, an edit, a reaction and
    a reply, the third with neither text nor attachment. *)
Definition db : database := {|
  users :=
    [ {| user_id := 1; user_name := "bob"; user_display_name := None;
         user_avatar_url := None |};
      {| user_id := 2; user_name := "al"; user_display_name := Some "Al";
         user_avatar_url := Some "abc" |} ];
  servers :=
    [ {| server_id := 3; server_name := "home"; server_type := "SERVER";
         server_icon_hash := None |} ];
  channels := [ {| channel_id := 5; channel_server := 3; channel_name := "general" |} ];
  messages :=
    [ {| message_id := 10; sender_id := 1; msg_channel_id := 5; text := Some "";
         timestamp := 100 |};
      {| message_id := 11; sender_id := 1; msg_channel_id := 5; text := Some "hi";
         timestamp := 101 |};
      {| message_id := 12; sender_id := 2; msg_channel_id := 5; text := None;
         timestamp := 102 |} ];
  message_attachments := [(10, 7)];
  attachments :=
    [ {| attachment_id := 7; attachment_name := "a.png";
         download_url := "http://x/a.png"; width := Some 3; height := Some 4 |} ];
  message_edit_timestamps := [(11, 500)];
  message_embeds := [];
  message_reactions :=
    [ {| reaction_message_id := 11; emoji_id := None; emoji_name := Some "x";
         emoji_flags := 0; reaction_count := 2 |} ];
  message_replied_to := [(11, 10)] |}.

(** A user without display name and without avatar. *)
Definition plain_user : user_row :=
  {| user_id := 1; user_name := "bob"; user_display_name := None;
     user_avatar_url := None |}.

(** A metadata document with two users and two channels of one server. *)
Definition meta : Viewer.metadata := {|
  Viewer.users :=
    [ ("u1", {| Viewer.u_name := "bob"; Viewer.u_displayName := None;
                Viewer.u_avatar := None |});
      ("u2", {| Viewer.u_name := "al"; Viewer.u_displayName := Some "Al";
                Viewer.u_avatar := Some "abc" |}) ];
  Viewer.servers := [ ("s1", {| Viewer.s_name := "home"; Viewer.s_type := "server" |}) ];
  Viewer.channels :=
    [ ("c1", {| Viewer.c_server := "s1"; Viewer.c_name := "general";
                Viewer.c_parent := None; Viewer.c_position := None;
                Viewer.c_topic := None; Viewer.c_nsfw := None |});
      ("c2", {| Viewer.c_server := "s1"; Viewer.c_name := "random";
                Viewer.c_parent := None; Viewer.c_position := None;
                Viewer.c_topic := None; Viewer.c_nsfw := None |}) ] |}.

Definition text_message (user : string) (time : Z) (contents : string) : Viewer.message := {|
  Viewer.msg_u := user;
  Viewer.msg_t := time;
  Viewer.msg_m := Some contents;
  Viewer.msg_e := None;
  Viewer.msg_a := None;
  Viewer.msg_te := None;
  Viewer.msg_re := None;
  Viewer.msg_r := None;
  Viewer.msg_f := None |}.

(** Two messages of [u1] in channel [c1], one message of [u2] in [c2]. *)
Definition data : Viewer.filedata :=
  [ ("c1", [ ("100", text_message "u1" 1 "one"); ("101", text_message "u1" 2 "two") ]);
    ("c2", [ ("200", text_message "u2" 3 "three") ]) ].

(** No attachment of the samples has a URL. *)
Definition no_urls (url : string) : option string := None.

(** The page has registered its listener, loaded the archive, set the
    page size to 1, filtered by the user [u1], selected [c1] and moved
    to the second page. *)
Definition filtered_store : Viewer.state :=
  Viewer.run no_urls
    [ Viewer.OnMessagesRefreshed;
      Viewer.SetMessagesPerPage (Some 1);
      Viewer.UploadFile (Viewer.Object meta) (Viewer.Object data);
      Viewer.SetActiveFilter (Some ("user", "u1"));
      Viewer.SelectChannel "c1";
      Viewer.UpdateCurrentPage Viewer.next ].



(** The renderer of a page without token, with both settings on. *)
Definition render_env : discord.environment := {|
  discord.enableFormatting := true;
  discord.enableAnimatedEmoji := true;
  discord.fileUrlProcessor := fun url => url;
  discord.meta := meta |}.

(** Two channels whose parent links form a cycle. *)
Definition cycle : list (string * Viewer.channel) :=
  [ ("A", {| Viewer.c_server := "s1"; Viewer.c_name := "a";
             Viewer.c_parent := Some "B"; Viewer.c_position := None;
             Viewer.c_topic := None; Viewer.c_nsfw := None |});
    ("B", {| Viewer.c_server := "s1"; Viewer.c_name := "b";
             Viewer.c_parent := Some "A"; Viewer.c_position := None;
             Viewer.c_topic := None; Viewer.c_nsfw := None |}) ].

(** A channel map whose only channel has the empty string for its id. *)
Definition nameless : list (string * Viewer.channel) :=
  [ ("", {| Viewer.c_server := "s1"; Viewer.c_name := "a";
            Viewer.c_parent := None; Viewer.c_position := None;
            Viewer.c_topic := None; Viewer.c_nsfw := None |}) ].

(** A collation that compares code units. *)
Definition plain_collation : Hierarchy.collation := {|
  Hierarchy.localeCompare := JS.default_compare;
  Hierarchy.localeCompareNumeric := JS.default_compare;
  Hierarchy.toLocaleLowerCase := Exporter.lower |}.

Definition cycle_meta : Viewer.metadata := {|
  Viewer.users := [];
  Viewer.servers := [ ("s1", {| Viewer.s_name := "home"; Viewer.s_type := "server" |}) ];
  Viewer.channels := cycle |}.

(** Three parsed lines of two channels. *)
Definition lines : list bootstrap.parsed :=
  [ {| bootstrap.parsed_id := "100"; bootstrap.parsed_c := "c1";
       bootstrap.parsed_message := text_message "u1" 1 "one" |};
    {| bootstrap.parsed_id := "200"; bootstrap.parsed_c := "c2";
       bootstrap.parsed_message := text_message "u2" 3 "three" |};
    {| bootstrap.parsed_id := "101"; bootstrap.parsed_c := "c1";
       bootstrap.parsed_message := text_message "u1" 2 "two" |} ].


End Sample.

(* ================================================================== *)
(** * Part II. Theorems *)
(* ================================================================== *)

Local Open Scope list_scope.

(** ** The snowflake comparators *)

Lemma string_compare_refl (s : string) : String.compare s s = Eq.
Proof.
  pose proof (String.compare_antisym s s) as H.
  destruct (String.compare s s); simpl in H; congruence.
Qed.

Lemma str_lt_compare (a b : string) :
  JS.str_lt a b = true <-> String.compare a b = Lt.
Proof.
  unfold JS.str_lt, String.ltb.
  destruct (String.compare a b); split; intros H; try reflexivity; discriminate H.
Qed.

Lemma str_gt_compare (a b : string) :
  JS.str_gt a b = true <-> String.compare a b = Gt.
Proof.
  unfold JS.str_gt, String.ltb. rewrite (String.compare_antisym b a).
  destruct (String.compare a b); simpl; split; intros H; try reflexivity; discriminate H.
Qed.

Lemma oldestToNewest_same_length (a b : string) :
  String.length a = String.length b ->
  sorter.oldestToNewest a b =
    match String.compare a b with Lt => -1 | Eq => 0 | Gt => 1 end.
Proof.
  intros Hlen. unfold sorter.oldestToNewest, JS.str_length.
  rewrite Hlen, Z.eqb_refl.
  unfold JS.str_gt, JS.str_lt, String.ltb.
  rewrite (String.compare_antisym b a).
  destruct (String.compare a b); reflexivity.
Qed.

Lemma oldestToNewest_zero (a b : string) :
  sorter.oldestToNewest a b = 0 <-> a = b.
Proof.
  unfold sorter.oldestToNewest, JS.str_length. split.
  - destruct (Z.eqb_spec (Z.of_nat (String.length a)) (Z.of_nat (String.length b))).
    + unfold JS.str_gt, JS.str_lt, String.ltb.
      rewrite (String.compare_antisym b a).
      destruct (String.compare a b) eqn:E; simpl; try discriminate.
      intros _. now apply String.compare_eq_iff.
    + destruct (_ >? _); discriminate.
  - intros ->. rewrite Z.eqb_refl.
    unfold JS.str_gt, JS.str_lt, String.ltb.
    now rewrite string_compare_refl.
Qed.

Lemma newestToOldest_opp (a b : string) :
  sorter.newestToOldest a b = - sorter.oldestToNewest a b.
Proof.
  unfold sorter.newestToOldest, sorter.oldestToNewest.
  destruct (_ =? _).
  - destruct (JS.str_gt a b); [reflexivity|]. destruct (JS.str_lt a b); reflexivity.
  - destruct (_ >? _); reflexivity.
Qed.

(** C3. [oldestToNewest] orders two id strings by length first (the
    shorter string sorts earlier) and lexicographically when the lengths
    are equal; sorting [9; 10; 100] with it keeps that order, while the
    lexicographic order would be [10; 100; 9]. *)
Theorem C3_oldestToNewest_length_then_lexicographic :
  forall a b : string,
    ((String.length a < String.length b)%nat -> sorter.oldestToNewest a b = -1) /\
    ((String.length b < String.length a)%nat -> sorter.oldestToNewest a b = 1) /\
    (String.length a = String.length b ->
       sorter.oldestToNewest a b =
         match String.compare a b with Lt => -1 | Eq => 0 | Gt => 1 end) /\
    JS.sort sorter.oldestToNewest ["9"; "10"; "100"] = ["9"; "10"; "100"] /\
    JS.sort sorter.oldestToNewest ["100"; "10"; "9"] = ["9"; "10"; "100"] /\
    JS.sort JS.default_compare ["9"; "10"; "100"] = ["10"; "100"; "9"].
Proof.
  intros a b. repeat split.
  - intros Hlt. unfold sorter.oldestToNewest, JS.str_length.
    destruct (Z.eqb_spec (Z.of_nat (String.length a)) (Z.of_nat (String.length b))); [lia|].
    destruct (Z.gtb_spec (Z.of_nat (String.length a)) (Z.of_nat (String.length b))); [lia|reflexivity].
  - intros Hlt. unfold sorter.oldestToNewest, JS.str_length.
    destruct (Z.eqb_spec (Z.of_nat (String.length a)) (Z.of_nat (String.length b))); [lia|].
    destruct (Z.gtb_spec (Z.of_nat (String.length a)) (Z.of_nat (String.length b))); [reflexivity|lia].
  - apply oldestToNewest_same_length.
Qed.

(** C10. [newestToOldest] is the negation of [oldestToNewest], and each
    comparator returns 0 exactly when its two arguments are the same
    string. *)
Theorem C10_newestToOldest_negates_oldestToNewest :
  forall a b : string,
    sorter.newestToOldest a b = - sorter.oldestToNewest a b /\
    (sorter.oldestToNewest a b = 0 <-> a = b) /\
    (sorter.newestToOldest a b = 0 <-> a = b).
Proof.
  intros a b. split; [apply newestToOldest_opp|]. split.
  - apply oldestToNewest_zero.
  - rewrite newestToOldest_opp. rewrite <- oldestToNewest_zero. lia.
Qed.

(** ** The export pipeline: order of the message stream *)

Section PoolRun.

Context {A R : Type}.
Variable fn : A -> R.
Variable items : list A.

Lemma pool_fill_app (w : nat) (queue running : list (nat * A)) :
  let '(queue', running') := Exporter.pool_fill w queue running in
  (running' ++ queue' = running ++ queue)%list.
Proof.
  revert running. induction queue as [|t queue IH]; intros running; simpl.
  - reflexivity.
  - destruct (List.length running <? w)%nat.
    + specialize (IH (running ++ [t])).
      destruct (Exporter.pool_fill w queue (running ++ [t])) as [q' r'].
      rewrite IH, <- app_assoc. reflexivity.
    + reflexivity.
Qed.

Lemma pool_fill_idle (w : nat) (queue running : list (nat * A)) :
  (1 <= w)%nat ->
  snd (Exporter.pool_fill w queue running) = [] -> queue = [] /\ running = [].
Proof.
  intros Hw. revert running. induction queue as [|t queue IH]; intros running; simpl.
  - auto.
  - destruct (Nat.ltb_spec (List.length running) w) as [Hlt|Hge].
    + intros H. apply IH in H. destruct H as [_ H].
      destruct running; discriminate H.
    + simpl. intros ->. simpl in Hge. lia.
Qed.

Lemma set_future_length (i : nat) (r : R) (futures : list (option R)) :
  List.length (Exporter.set_future i r futures) = List.length futures.
Proof.
  revert i. induction futures as [|f fs IH]; intros [|i]; simpl; auto.
Qed.

Lemma set_future_nth (i j : nat) (r : R) (futures : list (option R)) :
  nth_error (Exporter.set_future i r futures) j =
    if (j =? i)%nat
    then match nth_error futures j with Some _ => Some (Some r) | None => None end
    else nth_error futures j.
Proof.
  revert i j. induction futures as [|f fs IH]; intros [|i] [|j]; simpl; auto.
  all: destruct (j =? i)%nat; reflexivity.
Qed.

Lemma remove_nth_length {B : Type} (k : nat) (l : list B) :
  (k < List.length l)%nat -> S (List.length (Exporter.remove_nth k l)) = List.length l.
Proof.
  revert k. induction l as [|x l IH]; intros [|k]; simpl; intros H; try lia.
  rewrite IH; lia.
Qed.

Lemma remove_nth_incl {B : Type} (k : nat) (l : list B) (x : B) :
  In x (Exporter.remove_nth k l) -> In x l.
Proof.
  revert k. induction l as [|y l IH]; intros [|k]; simpl; auto.
  intros [H|H]; eauto.
Qed.

Lemma remove_nth_keeps {B : Type} (k : nat) (l : list B) (d x : B) :
  In x l -> x = nth k l d \/ In x (Exporter.remove_nth k l).
Proof.
  revert k. induction l as [|y l IH]; intros [|k]; simpl; auto.
  - intros [H|H]; auto.
  - intros [H|H]; auto. destruct (IH k H); auto.
Qed.

Lemma collect_done (futures : list (option R)) (l : list A) :
  List.length futures = List.length l ->
  (forall i, nth_error futures i <> Some None) ->
  (forall i r, nth_error futures i = Some (Some r) ->
     exists a, nth_error l i = Some a /\ r = fn a) ->
  Exporter.collect futures = Some (map fn l).
Proof.
  revert l. induction futures as [|f fs IH]; intros [|a l] Hlen Hnone Hres;
    simpl in *; try discriminate; auto.
  destruct f as [r|].
  - destruct (Hres 0%nat r eq_refl) as (a' & Ha' & ->). injection Ha' as ->.
    rewrite (IH l); auto.
    + intros i. apply (Hnone (S i)).
    + intros i r'. apply (Hres (S i)).
  - exfalso. now apply (Hnone 0%nat).
Qed.

Lemma pool_run_collect (w : nat) (choice : nat -> nat) :
  (1 <= w)%nat ->
  forall steps step queue running futures,
    (List.length queue + List.length running <= steps)%nat ->
    Inv.pool_inv fn items queue running futures ->
    Exporter.collect (Exporter.pool_run fn w choice steps step queue running futures)
    = Some (map fn items).
Proof.
  intros Hw. induction steps as [|steps IH]; intros step queue running futures Hfuel Hinv.
  - destruct Hinv as (_ & Hlen & Hnone & Hres).
    destruct queue; [|simpl in Hfuel; lia]. destruct running; [|simpl in Hfuel; lia].
    simpl. apply collect_done; auto.
  - simpl.
    pose proof (pool_fill_app w queue running) as Happ.
    pose proof (pool_fill_idle w queue running Hw) as Hidle.
    destruct (Exporter.pool_fill w queue running) as [queue' running'].
    simpl in Hidle.
    destruct Hinv as (Hitems & Hlen & Hnone & Hres).
    destruct running' as [|first running''].
    + destruct (Hidle eq_refl) as [-> ->].
      apply collect_done; auto.
    + set (running' := first :: running'') in *.
      set (k := (choice step mod List.length running')%nat).
      assert (Hk : (k < List.length running')%nat)
        by (apply Nat.mod_upper_bound; discriminate).
      destruct (nth k running' first) as [i item] eqn:Hnth.
      assert (Hin : In (i, item) running')
        by (rewrite <- Hnth; now apply nth_In).
      assert (Hlens : (List.length queue' + List.length running'
                        = List.length queue + List.length running)%nat).
      { apply (f_equal (@List.length _)) in Happ. rewrite !length_app in Happ. lia. }
      apply IH.
      * pose proof (remove_nth_length k running' Hk). lia.
      * repeat split.
        -- intros i' a' H'. apply Hitems. rewrite <- Happ.
           apply in_app_or in H'. apply in_or_app.
           destruct H' as [H'|H']; [left; eapply remove_nth_incl; eauto|now right].
        -- now rewrite set_future_length.
        -- intros j Hj. rewrite set_future_nth in Hj.
           destruct (Nat.eqb_spec j i) as [Heq|Hne].
           ++ subst j. destruct (nth_error futures i); discriminate.
           ++ apply Hnone in Hj. rewrite <- Happ in Hj.
              apply in_map_iff in Hj. destruct Hj as ([j' a'] & Hfst & Hj).
              simpl in Hfst. subst j'.
              apply in_map_iff. exists (j, a'). split; [reflexivity|].
              apply in_app_or in Hj. apply in_or_app.
              destruct Hj as [Hj|Hj]; [|now right]. left.
              destruct (remove_nth_keeps k running' first (j, a') Hj) as [Heq|Hkeep]; auto.
              rewrite Hnth in Heq. congruence.
        -- intros j r Hj. rewrite set_future_nth in Hj.
           destruct (Nat.eqb_spec j i) as [Heq|Hne]; [subst j|now apply Hres].
           destruct (nth_error futures i); [|discriminate].
           injection Hj as <-. exists item. split; [|reflexivity].
           apply Hitems. rewrite <- Happ. apply in_or_app. now left.
Qed.

Lemma pool_inv_init :
  Inv.pool_inv fn items (combine (seq 0 (List.length items)) items) []
    (map (fun _ => None) items).
Proof.
  repeat split.
  - intros i a H. simpl in H.
    apply In_nth_error in H. destruct H as [n Hn].
    pose proof Hn as Hn'.
    apply nth_error_nth with (d := (0%nat, a)) in Hn.
    assert (Hlt : (n < List.length items)%nat).
    { assert (Hb : (n < List.length (combine (seq 0 (List.length items)) items))%nat)
        by (apply nth_error_Some; rewrite Hn'; discriminate).
      rewrite length_combine, length_seq in Hb. lia. }
    rewrite combine_nth in Hn by now rewrite length_seq.
    injection Hn as Hi Ha. rewrite seq_nth in Hi by assumption. simpl in Hi. subst i.
    rewrite <- Ha. now apply nth_error_nth'.
  - now rewrite length_map.
  - intros i H. simpl.
    assert (Hlt : (i < List.length items)%nat).
    { assert (Hb : (i < List.length (map (fun _ : A => @None R) items))%nat)
        by (apply nth_error_Some; rewrite H; discriminate).
      now rewrite length_map in Hb. }
    destruct (nth_error items i) as [a|] eqn:Ha.
    2:{ apply nth_error_None in Ha. lia. }
    apply in_map_iff. exists (i, a). split; [reflexivity|].
    apply nth_error_In with (n := i).
    rewrite (nth_error_nth' _ (0%nat, a)) by (rewrite length_combine, length_seq; lia).
    rewrite combine_nth by now rewrite length_seq.
    rewrite seq_nth by assumption. simpl. f_equal. f_equal.
    now apply nth_error_nth.
  - intros i r H. rewrite nth_error_map in H.
    destruct (nth_error items i); discriminate.
Qed.

(** Whatever the number of workers and the order in which tasks finish,
    [executor.map] yields the results in the order of the items. *)
Lemma executor_map_ordered (max_workers : Z) (choice : nat -> nat) :
  1 <= max_workers ->
  Exporter.executor_map max_workers choice fn items = Some (map fn items).
Proof.
  intros Hw. unfold Exporter.executor_map.
  destruct (Z.leb_spec max_workers 0); [lia|].
  apply pool_run_collect.
  - lia.
  - rewrite length_combine, length_seq. simpl. lia.
  - apply pool_inv_init.
Qed.

End PoolRun.

Lemma messages_with_progress_lines (db : database) (l : list message_row) :
  map (Exporter.process_message db) (Exporter.messages_with_progress l)
  = map (fun m => Py.json_dumps (Py.Dict (Exporter.message_obj db m))) l.
Proof.
  unfold Exporter.messages_with_progress.
  assert (H : forall (rows : list message_row) (start total : nat),
    map (Exporter.process_message db)
      (map (fun im : nat * message_row => (snd im, fst im, total))
         (combine (seq start (List.length rows)) rows))
    = map (fun m => Py.json_dumps (Py.Dict (Exporter.message_obj db m))) rows).
  { induction rows as [|m rows IH]; intros start total; simpl; [reflexivity|].
    f_equal. apply IH. }
  apply H.
Qed.

(** C1. For every list of message rows and every worker count of at
    least 1, [generate_messages_ndjson] yields one serialized record per
    row, in the order of the rows: the sequential map of
    [process_message] over them, whichever task finishes first.  The
    stream is therefore the same for any other worker count and any
    other schedule. *)
Theorem C1_generate_messages_ndjson_ordered :
  forall (db : database) (num_threads : Z) (choice : nat -> nat),
    1 <= num_threads ->
    Exporter.generate_messages_ndjson db num_threads choice
      = Some (map (Exporter.process_message db)
                (Exporter.messages_with_progress (messages db))) /\
    map (Exporter.process_message db) (Exporter.messages_with_progress (messages db))
      = map (fun m => Py.json_dumps (Py.Dict (Exporter.message_obj db m))) (messages db) /\
    (forall (num_threads' : Z) (choice' : nat -> nat),
       1 <= num_threads' ->
       Exporter.generate_messages_ndjson db num_threads' choice'
         = Exporter.generate_messages_ndjson db num_threads choice).
Proof.
  intros db num_threads choice Hn.
  assert (Hgen : forall n c, 1 <= n ->
            Exporter.generate_messages_ndjson db n c
            = Some (map (Exporter.process_message db)
                      (Exporter.messages_with_progress (messages db)))).
  { intros n c Hn'. unfold Exporter.generate_messages_ndjson.
    now apply executor_map_ordered. }
  split; [now apply Hgen|]. split.
  - apply messages_with_progress_lines.
  - intros n' c' Hn'. rewrite (Hgen n' c' Hn'), (Hgen num_threads choice Hn). reflexivity.
Qed.

Lemma C1_witness :
  1 <= 2 /\
  Exporter.generate_messages_ndjson Sample.db 2 (fun step => S step)
    = Some (map (Exporter.process_message Sample.db)
              (Exporter.messages_with_progress (messages Sample.db))).
Proof.
  split; [lia|].
  apply (C1_generate_messages_ndjson_ordered Sample.db 2 (fun step => S step)); lia.
Defined.

(** ** The message document *)

Lemma dict_get_dict_set (k k' : string) (v : Py.value) (d : list (string * Py.value)) :
  Py.dict_get k (Py.dict_set k' v d)
  = if (k' =? k)%string then Some v else Py.dict_get k d.
Proof.
  induction d as [|[k0 v0] d IH]; simpl.
  - reflexivity.
  - destruct (String.eqb_spec k0 k') as [->|Hne]; simpl.
    + destruct (k' =? k)%string; reflexivity.
    + rewrite IH. destruct (String.eqb_spec k0 k) as [->|Hne'].
      * destruct (String.eqb_spec k' k); [congruence|reflexivity].
      * reflexivity.
Qed.

Lemma dict_get_set_if (c : bool) (k k' : string) (v : Py.value) (d : list (string * Py.value)) :
  Py.dict_get k (Exporter.set_if c k' v d)
  = if c && (k' =? k)%string then Some v else Py.dict_get k d.
Proof.
  unfold Exporter.set_if. destruct c; simpl; [apply dict_get_dict_set|reflexivity].
Qed.

Lemma truthy_nonempty_or_none (l : list Py.value) :
  Py.truthy (Exporter.nonempty_or_none l) = match l with [] => false | _ => true end.
Proof. destruct l; reflexivity. Qed.

Lemma truthy_attachments (db : database) (id : Z) :
  Py.truthy (Exporter.get_message_attachments db id) = true
  <-> Exporter.attachment_rows db id <> [].
Proof.
  unfold Exporter.get_message_attachments. rewrite truthy_nonempty_or_none.
  destruct (Exporter.attachment_rows db id); simpl; split; congruence.
Qed.

Lemma truthy_embeds (db : database) (id : Z) :
  Py.truthy (Exporter.get_message_embeds db id) = true
  <-> Exporter.embed_rows db id <> [].
Proof.
  unfold Exporter.get_message_embeds. rewrite truthy_nonempty_or_none.
  destruct (Exporter.embed_rows db id); simpl; split; congruence.
Qed.

Lemma truthy_text (o : option string) :
  Py.truthy (Py.of_text o) = false <-> o = None \/ o = Some ""%string.
Proof.
  destruct o as [s|]; simpl.
  - destruct (String.eqb_spec s ""%string) as [->|Hne]; simpl; split; auto.
    + intros H. discriminate H.
    + intros [H|H]; congruence.
  - split; auto.
Qed.

Lemma message_obj_text (db : database) (m : message_row) :
  Py.dict_get "m" (Exporter.message_obj db m)
  = if Exporter.should_include_message_text (Py.of_text (text m))
         (Exporter.get_message_attachments db (message_id m))
         (Exporter.get_message_embeds db (message_id m))
    then Some (Py.or_ (Py.of_text (text m)) (Py.Str ""))
    else None.
Proof.
  unfold Exporter.message_obj.
  rewrite !dict_get_set_if. simpl. rewrite !andb_false_r, andb_true_r.
  reflexivity.
Qed.

(** C2. The message document omits the field [m] exactly when the text
    is empty (or absent) and the message has at least one attachment or
    embed; in every other case [m] is present and holds the text, or the
    empty string when the text is empty or absent. *)
Theorem C2_text_field_omitted_iff :
  forall (db : database) (m : message_row),
    (Py.dict_has "m" (Exporter.message_obj db m) = false
     <-> (text m = None \/ text m = Some ""%string) /\
         (Exporter.attachment_rows db (message_id m) <> [] \/
          Exporter.embed_rows db (message_id m) <> [])) /\
    (Py.dict_has "m" (Exporter.message_obj db m) = true ->
     Py.dict_get "m" (Exporter.message_obj db m)
       = Some (Py.Str (match text m with Some s => s | None => ""%string end))) /\
    Exporter.process_message db (m, 0%nat, 1%nat)
      = Py.json_dumps (Py.Dict (Exporter.message_obj db m)).
Proof.
  intros db m.
  pose proof (truthy_text (text m)) as Htext.
  pose proof (truthy_attachments db (message_id m)) as Hatt.
  pose proof (truthy_embeds db (message_id m)) as Hemb.
  unfold Py.dict_has. rewrite message_obj_text.
  unfold Exporter.should_include_message_text, Py.or_.
  destruct (Py.truthy (Py.of_text (text m))) eqn:Et.
  - split; [split|split].
    + intros H. discriminate H.
    + intros [H _]. apply Htext in H. discriminate H.
    + intros _. destruct (text m); [reflexivity|discriminate Et].
    + reflexivity.
  - destruct (proj1 Htext eq_refl) as [Ht|Ht]; rewrite Ht.
    all: destruct (Py.truthy (Exporter.get_message_attachments db (message_id m))) eqn:Ea;
      destruct (Py.truthy (Exporter.get_message_embeds db (message_id m))) eqn:Ee;
      simpl; (split; [split|split]); try reflexivity; try discriminate.
    all: try (intros _; split; [auto|]).
    all: try (left; apply Hatt; reflexivity).
    all: try (right; apply Hemb; reflexivity).
    all: intros [_ [H|H]]; [apply Hatt in H|apply Hemb in H]; discriminate H.
Qed.

(** ** The metadata document *)

Lemma dict_set_in (k : string) (v : Py.value) (d : list (string * Py.value)) kv :
  In kv (Py.dict_set k v d) -> kv = (k, v) \/ In kv d.
Proof.
  induction d as [|[k0 v0] d IH]; simpl.
  - intros [H|[]]; auto.
  - destruct (k0 =? k)%string; simpl; intros [H|H]; auto.
    destruct (IH H); auto.
Qed.

Lemma users_section (db : database) :
  Py.dict_get "users" (Exporter.fetch_metadata db)
  = Some (Py.Dict (fold_left
                     (fun um r => Py.dict_set (Py.str_int (user_id r))
                                    (Py.Dict (Exporter.user_data r)) um)
                     (users db) [])).
Proof.
  unfold Exporter.fetch_metadata.
  assert (Hu : forall rows um sm cm,
    fold_left (fun m r => Exporter.metadata_set "users" (Py.str_int (user_id r))
                            (Exporter.user_data r) m) rows
      [("users"%string, Py.Dict um); ("servers"%string, Py.Dict sm);
       ("channels"%string, Py.Dict cm)]
    = [("users"%string,
        Py.Dict (fold_left (fun um r => Py.dict_set (Py.str_int (user_id r))
                                          (Py.Dict (Exporter.user_data r)) um) rows um));
       ("servers"%string, Py.Dict sm); ("channels"%string, Py.Dict cm)]).
  { induction rows as [|r rows IH]; intros um sm cm; simpl; [reflexivity|].
    unfold Exporter.metadata_set at 2. simpl. apply IH. }
  assert (Hs : forall rows um sm cm, exists sm',
    fold_left (fun m r => Exporter.metadata_set "servers" (Py.str_int (server_id r))
                            (Exporter.server_data r) m) rows
      [("users"%string, Py.Dict um); ("servers"%string, Py.Dict sm);
       ("channels"%string, Py.Dict cm)]
    = [("users"%string, Py.Dict um); ("servers"%string, Py.Dict sm');
       ("channels"%string, Py.Dict cm)]).
  { induction rows as [|r rows IH]; intros um sm cm; simpl; [now exists sm|].
    unfold Exporter.metadata_set at 2. simpl. apply IH. }
  assert (Hc : forall rows um sm cm, exists cm',
    fold_left (fun m r => Exporter.metadata_set "channels" (Py.str_int (channel_id r))
                            (Exporter.channel_data r) m) rows
      [("users"%string, Py.Dict um); ("servers"%string, Py.Dict sm);
       ("channels"%string, Py.Dict cm)]
    = [("users"%string, Py.Dict um); ("servers"%string, Py.Dict sm);
       ("channels"%string, Py.Dict cm')]).
  { induction rows as [|r rows IH]; intros um sm cm; simpl; [now exists cm|].
    unfold Exporter.metadata_set at 2. simpl. apply IH. }
  rewrite Hu.
  destruct (Hs (servers db)
              (fold_left (fun um r => Py.dict_set (Py.str_int (user_id r))
                                        (Py.Dict (Exporter.user_data r)) um) (users db) [])
              [] []) as [sm' ->].
  destruct (Hc (channels db)
              (fold_left (fun um r => Py.dict_set (Py.str_int (user_id r))
                                        (Py.Dict (Exporter.user_data r)) um) (users db) [])
              sm' []) as [cm' ->].
  reflexivity.
Qed.

Lemma users_fold_entries (rows : list user_row) (um : list (string * Py.value)) kv :
  In kv (fold_left (fun um r => Py.dict_set (Py.str_int (user_id r))
                                  (Py.Dict (Exporter.user_data r)) um) rows um) ->
  In kv um \/
  exists r, In r rows /\ kv = (Py.str_int (user_id r), Py.Dict (Exporter.user_data r)).
Proof.
  revert um. induction rows as [|r rows IH]; intros um; simpl; auto.
  intros H. apply IH in H. destruct H as [H|(r' & Hr' & ->)].
  - apply dict_set_in in H. destruct H as [->|H]; eauto.
  - eauto.
Qed.

Lemma users_fold_has (rows : list user_row) (um : list (string * Py.value)) (k : string) :
  (Py.dict_has k um = true \/ exists r, In r rows /\ k = Py.str_int (user_id r)) ->
  Py.dict_has k (fold_left (fun um r => Py.dict_set (Py.str_int (user_id r))
                                          (Py.Dict (Exporter.user_data r)) um) rows um)
  = true.
Proof.
  revert um. induction rows as [|r rows IH]; intros um; simpl.
  - intros [H|(r & [] & _)]; exact H.
  - intros H. apply IH.
    destruct H as [H|(r' & [<-|Hr'] & ->)].
    + left. unfold Py.dict_has in *. rewrite dict_get_dict_set.
      destruct (_ =? _)%string; auto.
    + left. unfold Py.dict_has. rewrite dict_get_dict_set, String.eqb_refl. reflexivity.
    + right. eauto.
Qed.

(** C9 (as amended). The entry of every user row holds the fields [name]
    and [avatar] (the avatar of a user without one is [None], which
    [json.dumps] writes as null), and the field [displayName] exactly
    when the display name is present and not empty; the [users] map of
    the metadata holds these entries, one under the id of each row. *)
Theorem C9_user_entry_fields :
  forall (db : database),
    (forall r : user_row,
       Py.dict_get "name" (Exporter.user_data r) = Some (Py.Str (user_name r)) /\
       Py.dict_get "avatar" (Exporter.user_data r) = Some (Py.of_text (user_avatar_url r)) /\
       (Py.dict_has "displayName" (Exporter.user_data r) = true
        <-> exists s, user_display_name r = Some s /\ s <> ""%string) /\
       (forall s, user_display_name r = Some s -> s <> ""%string ->
          Py.dict_get "displayName" (Exporter.user_data r) = Some (Py.Str s))) /\
    exists um,
      Py.dict_get "users" (Exporter.fetch_metadata db) = Some (Py.Dict um) /\
      (forall k v, In (k, v) um ->
         exists r, In r (users db) /\ k = Py.str_int (user_id r) /\
                   v = Py.Dict (Exporter.user_data r)) /\
      (forall r, In r (users db) -> Py.dict_has (Py.str_int (user_id r)) um = true).
Proof.
  intros db. split.
  - intros r. unfold Exporter.user_data, Py.dict_has.
    destruct (user_display_name r) as [s|] eqn:Ed; simpl.
    + destruct (String.eqb_spec s ""%string) as [->|Hne]; simpl.
      * repeat split; try discriminate.
        -- intros (s & Hs & Hne). congruence.
        -- intros s Hs Hne. congruence.
      * repeat split.
        -- intros _. exists s. auto.
        -- intros s' Hs' _. congruence.
    + repeat split; try discriminate.
      intros (s & Hs & _). discriminate Hs.
  - eexists. split; [apply users_section|]. split.
    + intros k v H. apply users_fold_entries in H.
      destruct H as [[]|(r & Hr & Heq)]. injection Heq as -> ->. eauto.
    + intros r Hr. apply users_fold_has. right. eauto.
Qed.

(** The claim as stated fails: the entry of a user without avatar
    reference still contains the field [avatar]. *)
Lemma C9_counterexample :
  user_avatar_url Sample.plain_user = None /\
  Py.dict_has "avatar" (Exporter.user_data Sample.plain_user) = true /\
  Py.dict_get "avatar" (Exporter.user_data Sample.plain_user) = Some Py.None_.
Proof. repeat split. Qed.

(** ** The metadata document: sections and lookups *)

(** [str(n)] tells two integers apart. *)
Lemma str_int_inj (a b : Z) : Py.str_int a = Py.str_int b -> a = b.
Proof.
  unfold Py.str_int. intros H.
  assert (Hnil : forall z, Z.to_int z <> Decimal.Pos Decimal.Nil /\
                           Z.to_int z <> Decimal.Neg Decimal.Nil).
  { intros [|p|p]; simpl; split; try discriminate.
    all: intros E; injection E as E; exact (DecimalPos.Unsigned.to_uint_nonnil p E). }
  apply DecimalZ.to_int_inj.
  assert (E : Some (Z.to_int a) = Some (Z.to_int b)).
  { rewrite <- (NilZero.isi (Z.to_int a)), <- (NilZero.isi (Z.to_int b)).
    - rewrite H. reflexivity.
    - apply Hnil.
    - apply Hnil.
    - apply Hnil.
    - apply Hnil. }
  injection E as E. exact E.
Qed.

Lemma str_int_eqb (a b : Z) : (Py.str_int a =? Py.str_int b)%string = (a =? b).
Proof.
  destruct (Z.eqb_spec a b) as [->|Hne].
  - apply String.eqb_refl.
  - apply String.eqb_neq. intros H. apply Hne, str_int_inj, H.
Qed.

Lemma find_last {A : Type} (f : A -> bool) (l : list A) (x : A) :
  find f (l ++ [x]) = match find f l with Some y => Some y | None => if f x then Some x else None end.
Proof.
  induction l as [|y l IH]; simpl; [reflexivity|].
  destruct (f y); [reflexivity|exact IH].
Qed.

Section Sections.

Context {A : Type}.
Variable key : A -> Z.
Variable data : A -> list (string * Py.value).

(** The loop [for row in rows: section[str(id)] = data]. *)
Local Abbreviation fill rows section :=
  (fold_left (fun um r => Py.dict_set (Py.str_int (key r)) (Py.Dict (data r)) um) rows section).

(** A lookup by id finds the data of the last row with this id. *)
Lemma fill_lookup (rows : list A) (section : list (string * Py.value)) (id : Z) :
  Py.dict_get (Py.str_int id) (fill rows section)
  = match find (fun r => key r =? id) (rev rows) with
    | Some r => Some (Py.Dict (data r))
    | None => Py.dict_get (Py.str_int id) section
    end.
Proof.
  revert section. induction rows as [|r rows IH]; intros section; simpl; [reflexivity|].
  rewrite IH, find_last.
  destruct (find (fun r0 => key r0 =? id) (rev rows)); [reflexivity|].
  rewrite dict_get_dict_set, str_int_eqb.
  destruct (key r =? id); reflexivity.
Qed.

Lemma dict_set_new (k : string) (v : Py.value) (d : list (string * Py.value)) :
  ~ In k (map fst d) -> Py.dict_set k v d = d ++ [(k, v)].
Proof.
  induction d as [|[k0 v0] d IH]; simpl; intros Hk; [reflexivity|].
  destruct (String.eqb_spec k0 k) as [->|Hne].
  - exfalso. apply Hk. left. reflexivity.
  - rewrite IH; [reflexivity|]. intros H. apply Hk. right. exact H.
Qed.

(** Rows with distinct ids fill the section in their order. *)
Lemma fill_distinct (rows : list A) (section : list (string * Py.value)) :
  NoDup (map fst section ++ map (fun r => Py.str_int (key r)) rows) ->
  fill rows section
  = section ++ map (fun r => (Py.str_int (key r), Py.Dict (data r))) rows.
Proof.
  revert section. induction rows as [|r rows IH]; intros section Hnd; simpl.
  - symmetry. apply app_nil_r.
  - assert (Hr : ~ In (Py.str_int (key r)) (map fst section)).
    { intros Hin. apply NoDup_remove_2 in Hnd. apply Hnd.
      apply in_or_app. left. exact Hin. }
    rewrite (dict_set_new _ _ _ Hr), IH.
    + rewrite <- app_assoc. reflexivity.
    + rewrite map_app. simpl. rewrite <- app_assoc. simpl.
      simpl in Hnd. exact Hnd.
Qed.

End Sections.

(** [fetch_metadata] returns the three sections in a fixed order, each
    filled by its own loop. *)
Lemma fetch_metadata_sections (db : database) :
  Exporter.fetch_metadata db
  = [("users"%string,
      Py.Dict (fold_left (fun um r => Py.dict_set (Py.str_int (user_id r))
                                        (Py.Dict (Exporter.user_data r)) um) (users db) []));
     ("servers"%string,
      Py.Dict (fold_left (fun um r => Py.dict_set (Py.str_int (server_id r))
                                        (Py.Dict (Exporter.server_data r)) um) (servers db) []));
     ("channels"%string,
      Py.Dict (fold_left (fun um r => Py.dict_set (Py.str_int (channel_id r))
                                        (Py.Dict (Exporter.channel_data r)) um)
                 (channels db) []))].
Proof.
  unfold Exporter.fetch_metadata.
  assert (Hu : forall rows um sm cm,
    fold_left (fun m r => Exporter.metadata_set "users" (Py.str_int (user_id r))
                            (Exporter.user_data r) m) rows
      [("users"%string, Py.Dict um); ("servers"%string, Py.Dict sm);
       ("channels"%string, Py.Dict cm)]
    = [("users"%string,
        Py.Dict (fold_left (fun um r => Py.dict_set (Py.str_int (user_id r))
                                          (Py.Dict (Exporter.user_data r)) um) rows um));
       ("servers"%string, Py.Dict sm); ("channels"%string, Py.Dict cm)]).
  { induction rows as [|r rows IH]; intros um sm cm; simpl; [reflexivity|].
    unfold Exporter.metadata_set at 2. simpl. apply IH. }
  assert (Hs : forall rows um sm cm,
    fold_left (fun m r => Exporter.metadata_set "servers" (Py.str_int (server_id r))
                            (Exporter.server_data r) m) rows
      [("users"%string, Py.Dict um); ("servers"%string, Py.Dict sm);
       ("channels"%string, Py.Dict cm)]
    = [("users"%string, Py.Dict um);
       ("servers"%string,
        Py.Dict (fold_left (fun um r => Py.dict_set (Py.str_int (server_id r))
                                          (Py.Dict (Exporter.server_data r)) um) rows sm));
       ("channels"%string, Py.Dict cm)]).
  { induction rows as [|r rows IH]; intros um sm cm; simpl; [reflexivity|].
    unfold Exporter.metadata_set at 2. simpl. apply IH. }
  assert (Hc : forall rows um sm cm,
    fold_left (fun m r => Exporter.metadata_set "channels" (Py.str_int (channel_id r))
                            (Exporter.channel_data r) m) rows
      [("users"%string, Py.Dict um); ("servers"%string, Py.Dict sm);
       ("channels"%string, Py.Dict cm)]
    = [("users"%string, Py.Dict um); ("servers"%string, Py.Dict sm);
       ("channels"%string,
        Py.Dict (fold_left (fun um r => Py.dict_set (Py.str_int (channel_id r))
                                          (Py.Dict (Exporter.channel_data r)) um) rows cm))]).
  { induction rows as [|r rows IH]; intros um sm cm; simpl; [reflexivity|].
    unfold Exporter.metadata_set at 2. simpl. apply IH. }
  rewrite Hu, Hs, Hc. reflexivity.
Qed.

(** The metadata document has the sections [users], [servers] and
    [channels], in this order.  In each section the entry under the
    decimal text of an id holds the data of the last row of the table
    with this id, and an id of no row has no entry. *)
Theorem fetch_metadata_lookup :
  forall db : database,
  exists um sm cm,
    Exporter.fetch_metadata db
    = [("users"%string, Py.Dict um); ("servers"%string, Py.Dict sm);
       ("channels"%string, Py.Dict cm)] /\
    (forall id,
       Py.dict_get (Py.str_int id) um
       = option_map (fun r => Py.Dict (Exporter.user_data r))
           (find (fun r => user_id r =? id) (rev (users db)))) /\
    (forall id,
       Py.dict_get (Py.str_int id) sm
       = option_map (fun r => Py.Dict (Exporter.server_data r))
           (find (fun r => server_id r =? id) (rev (servers db)))) /\
    (forall id,
       Py.dict_get (Py.str_int id) cm
       = option_map (fun r => Py.Dict (Exporter.channel_data r))
           (find (fun r => channel_id r =? id) (rev (channels db)))).
Proof.
  intros db. do 3 eexists. split; [apply fetch_metadata_sections|].
  split; [|split]; intros id; rewrite fill_lookup.
  all: match goal with |- context [find ?f ?l] => destruct (find f l) end; reflexivity.
Qed.

Lemma str_int_keys_nodup {A : Type} (key : A -> Z) (rows : list A) :
  NoDup (map key rows) -> NoDup (map (fun r => Py.str_int (key r)) rows).
Proof.
  intros Hnd. rewrite <- (map_map key Py.str_int).
  apply Finite.Injective_map_NoDup; [|exact Hnd].
  intros a b. apply str_int_inj.
Qed.

(** Where the ids of each table are distinct, as a primary key makes
    them, each section lists the rows of its table in their order, one
    entry for every row. *)
Theorem fetch_metadata_distinct :
  forall db : database,
    NoDup (map user_id (users db)) ->
    NoDup (map server_id (servers db)) ->
    NoDup (map channel_id (channels db)) ->
    Exporter.fetch_metadata db
    = [("users"%string,
        Py.Dict (map (fun r => (Py.str_int (user_id r), Py.Dict (Exporter.user_data r)))
                   (users db)));
       ("servers"%string,
        Py.Dict (map (fun r => (Py.str_int (server_id r), Py.Dict (Exporter.server_data r)))
                   (servers db)));
       ("channels"%string,
        Py.Dict (map (fun r => (Py.str_int (channel_id r), Py.Dict (Exporter.channel_data r)))
                   (channels db)))].
Proof.
  intros db Hu Hs Hc. rewrite fetch_metadata_sections.
  rewrite !fill_distinct; simpl; [reflexivity| | |].
  all: apply str_int_keys_nodup; assumption.
Qed.

Lemma fetch_metadata_distinct_witness :
  Exporter.fetch_metadata Sample.db
  = [("users"%string,
      Py.Dict (map (fun r => (Py.str_int (user_id r), Py.Dict (Exporter.user_data r)))
                 (users Sample.db)));
     ("servers"%string,
      Py.Dict (map (fun r => (Py.str_int (server_id r), Py.Dict (Exporter.server_data r)))
                 (servers Sample.db)));
     ("channels"%string,
      Py.Dict (map (fun r => (Py.str_int (channel_id r), Py.Dict (Exporter.channel_data r)))
                 (channels Sample.db)))].
Proof.
  apply (fetch_metadata_distinct Sample.db); simpl.
  - constructor; [simpl; intros [H|[]]; discriminate H|].
    constructor; [intros []|constructor].
  - constructor; [intros []|constructor].
  - constructor; [intros []|constructor].
Defined.


(** ** The store: what a refresh may change *)

Import Viewer.

Ltac break_match :=
  match goal with
  | |- context [match ?x with _ => _ end] => destruct x eqn:?
  end.

Lemma same_but_page_refl (s : state) : Inv.same_but_page s s.
Proof. repeat split. Qed.


Lemma set_currentPage_frame (p : number) (s : state) :
  Inv.same_but_page s (set_currentPage p s).
Proof. repeat split. Qed.

Lemma getCurrentPage_frame (s : state) : Inv.same_but_page s (snd (getCurrentPage s)).
Proof.
  unfold getCurrentPage. simpl.
  destruct (currentPage s) as [c|]; [|apply same_but_page_refl].
  destruct ((c >? getPageCount s) && (getPageCount s >? 0));
    [apply set_currentPage_frame|apply same_but_page_refl].
Qed.

(** A property that the clamp of [getCurrentPage] keeps is kept by a
    refresh. *)
Lemma getMessageList_closed (P : state -> Prop) :
  (forall s, P s -> P (snd (getCurrentPage s))) ->
  forall s, P s -> P (snd (getMessageList s)).
Proof.
  intros Hclamp s Hs. unfold getMessageList.
  destruct (loadedMessages s) as [l|]; [|exact Hs].
  destruct (match selectedChannel s with
            | Some channel => getMessages s channel
            | None => getMessages s "null"
            end) as [messages|e]; [|exact Hs].
  specialize (Hclamp s Hs).
  destruct (getCurrentPage s) as [page s']. exact Hclamp.
Qed.

Lemma triggerMessagesRefreshed_closed (P : state -> Prop) :
  (forall s, P s -> P (snd (getCurrentPage s))) ->
  forall s, P s -> P (snd (triggerMessagesRefreshed s)).
Proof.
  intros Hclamp s Hs. unfold triggerMessagesRefreshed.
  destruct (eventOnMessagesRefreshed s); [|exact Hs].
  pose proof (getMessageList_closed P Hclamp s Hs) as Hl.
  destruct (getMessageList s) as [[views|e] s']; simpl in *; auto.
Qed.










(** ** The store: lists, lookups and the refresh of a loaded archive *)

Lemma sort_insert_perm {A : Type} (cmp : A -> A -> Z) (x : A) (l : list A) :
  Permutation (JS.sort_insert cmp x l) (x :: l).
Proof.
  induction l as [|y l IH]; simpl; [reflexivity|].
  destruct (cmp x y <=? 0); [reflexivity|].
  rewrite IH. apply perm_swap.
Qed.

Lemma sort_perm {A : Type} (cmp : A -> A -> Z) (l : list A) :
  Permutation (JS.sort cmp l) l.
Proof.
  induction l as [|x l IH]; simpl; [reflexivity|].
  rewrite sort_insert_perm. now constructor.
Qed.

Lemma sort_in {A : Type} (cmp : A -> A -> Z) (l : list A) (x : A) :
  In x (JS.sort cmp l) <-> In x l.
Proof.
  split; apply Permutation_in; [apply sort_perm|symmetry; apply sort_perm].
Qed.


Lemma index_of_some (x : string) (l : list string) (i : nat) :
  index_of x l = Some i -> In x l.
Proof.
  revert i. induction l as [|y l IH]; simpl; [discriminate|].
  intros i. destruct (String.eqb_spec y x) as [->|Hne]; [now left|].
  destruct (index_of x l) as [j|]; [|discriminate].
  intros _. right. now apply (IH j).
Qed.

Lemma lookup_in_keys {V : Type} (k : string) (entries : list (string * V)) :
  In k (map fst entries) -> lookup k entries <> None.
Proof.
  induction entries as [|[k' v] entries IH]; simpl; [intros []|].
  intros [->|H].
  - rewrite String.eqb_refl. discriminate.
  - destruct (k' =? k)%string; [discriminate|now apply IH].
Qed.

Lemma filtered_keys_incl (f : message -> bool) (messages : list (string * message))
  (k : string) :
  In k (map fst (filter (fun km => f (snd km)) messages)) -> In k (map fst messages).
Proof.
  intros H. apply in_map_iff in H. destruct H as (km & <- & Hkm).
  apply filter_In in Hkm. apply in_map. tauto.
Qed.

Lemma in_firstn {A : Type} (n : nat) (l : list A) (x : A) :
  In x (firstn n l) -> In x l.
Proof.
  intros H. rewrite <- (firstn_skipn n l). apply in_or_app. now left.
Qed.

Lemma in_skipn {A : Type} (n : nat) (l : list A) (x : A) :
  In x (skipn n l) -> In x l.
Proof.
  intros H. rewrite <- (firstn_skipn n l). apply in_or_app. now right.
Qed.

Lemma slice_incl {A : Type} (l : list A) (start : Z) (end_ : option Z) (x : A) :
  In x (slice l start end_) -> In x l.
Proof.
  unfold slice. intros H.
  apply (in_skipn (Z.to_nat (slice_index (Z.of_nat (List.length l)) start))).
  eapply in_firstn; exact H.
Qed.

Lemma page_keys_incl (s : state) (page : Z) (l : list string) (k : string) :
  In k (page_keys s page l) -> In k l.
Proof.
  unfold page_keys. destruct (messagesPerPage s); apply slice_incl.
Qed.

Lemma map_outcome_return {A B : Type} (f : A -> outcome B) (l : list A) :
  (forall x, In x l -> exists y, f x = Return y) ->
  exists ys, map_outcome f l = Return ys.
Proof.
  induction l as [|x l IH]; simpl; intros H; [now exists []|].
  destruct (H x (or_introl eq_refl)) as [y ->].
  destruct IH as [ys ->]; [intros x' Hx'; apply H; now right|].
  now exists (y :: ys).
Qed.


Lemma view_of_returns (s : state) (meta : metadata) (data : filedata)
  (messages : list (string * message)) (k : string) :
  loadedFileMeta s = Object meta ->
  data_entries s = Return data ->
  lookup k messages <> None ->
  exists v, view_of s messages k = Return v.
Proof.
  intros Hmeta Hdata Hk. unfold view_of, getUser, getMessageById.
  rewrite Hmeta, Hdata.
  destruct (lookup k messages) as [message|]; [|congruence].
  destruct (msg_r message) as [r|]; [|eauto].
  destruct (find_message r data); eauto.
Qed.

Lemma getMessages_data_entries (s : state) (channel : string)
  (messages : list (string * message)) :
  getMessages s channel = Return messages -> exists data, data_entries s = Return data.
Proof.
  unfold getMessages, data_entries. destruct (loadedFileData s); try discriminate; eauto.
Qed.

(** The refresh of a store that holds a metadata object and a list of
    keys of the selected channel returns. *)
Lemma getMessageList_returns (s : state) (meta : metadata) :
  loadedFileMeta s = Object meta ->
  Inv.list_ok s ->
  exists views, fst (getMessageList s) = Return views.
Proof.
  intros Hmeta Hlist. unfold getMessageList.
  destruct (loadedMessages s) as [l|] eqn:Hl; [|simpl; eauto].
  destruct (Hlist l Hl) as (channel & msgs & Hsel & Hget & Hkeys).
  destruct (getMessages_data_entries s channel msgs Hget) as [data Hdata].
  rewrite Hsel, Hget.
  pose proof (getCurrentPage_frame s) as (A1 & A2 & _).
  destruct (getCurrentPage s) as [page s']. simpl in *.
  apply map_outcome_return. intros k Hk.
  apply (view_of_returns s' meta data).
  - congruence.
  - unfold data_entries in *. now rewrite A2.
  - apply Hkeys. eapply page_keys_incl; exact Hk.
Qed.







(** ** Pagination *)

Lemma ceil_div_bounds (a n : Z) :
  0 < n -> (ceil_div a n - 1) * n < a <= ceil_div a n * n.
Proof.
  intros Hn. unfold ceil_div.
  pose proof (Z.div_mod (- a) n ltac:(lia)) as Hdm.
  pose proof (Z.mod_pos_bound (- a) n Hn) as Hmod.
  nia.
Qed.

Lemma ceil_div_nonneg (a n : Z) : 0 <= a -> 0 < n -> 0 <= ceil_div a n.
Proof.
  intros Ha Hn. pose proof (ceil_div_bounds a n Hn) as [_ H].
  destruct (Z.le_gt_cases 0 (ceil_div a n)) as [|Hneg]; [assumption|].
  assert (ceil_div a n * n <= -1 * n) by (apply Z.mul_le_mono_nonneg_r; lia). lia.
Qed.


Lemma ceil_div_zero (n : Z) : 0 < n -> ceil_div 0 n = 0.
Proof. intros _. reflexivity. Qed.

Lemma getPageCount_nonneg (s : state) : Inv.page_size_ok s -> 0 <= getPageCount s.
Proof.
  unfold Inv.page_size_ok, getPageCount. intros Hsize.
  destruct (loadedMessages s) as [l|]; [|lia].
  destruct (messagesPerPage s) as [n|]; [|lia].
  destruct (Z.eqb_spec n 0); [lia|].
  apply ceil_div_nonneg; lia.
Qed.

Lemma getPageCount_empty (s : state) :
  Inv.page_size_ok s ->
  match loadedMessages s with Some (_ :: _) => True | _ => getPageCount s <= 1 end.
Proof.
  unfold Inv.page_size_ok, getPageCount. intros Hsize.
  destruct (loadedMessages s) as [[|k l]|]; try exact I; try lia.
  destruct (messagesPerPage s) as [n|]; [|lia].
  destruct (Z.eqb_spec n 0); [lia|].
  simpl. rewrite ceil_div_zero; lia.
Qed.


(** The three parts of the invariant only read some variables. *)
Lemma page_ok_set (s : state) (p : number) :
  Inv.page_size_ok s ->
  match p with
  | Some c => 0 <= c /\ match loadedMessages s with Some (_ :: _) => True | _ => c <= 1 end
  | None => True
  end ->
  Inv.list_ok s ->
  Inv.store_inv (set_currentPage p s).
Proof.
  intros Hsize Hp Hlist. split; [exact Hsize|]. split; [|exact Hlist].
  unfold Inv.page_ok. simpl. exact Hp.
Qed.

Lemma store_inv_clamp (s : state) : Inv.store_inv s -> Inv.store_inv (snd (getCurrentPage s)).
Proof.
  intros (Hsize & Hpage & Hlist). unfold getCurrentPage. simpl.
  destruct (currentPage s) as [c|] eqn:Hc; [|now repeat split].
  destruct (Z.gtb_spec c (getPageCount s)) as [Hgt|]; simpl; [|now repeat split].
  destruct (Z.gtb_spec (getPageCount s) 0) as [Hpos|]; simpl; [|now repeat split].
  apply page_ok_set; auto.
  split; [lia|].
  unfold Inv.page_ok in Hpage. rewrite Hc in Hpage.
  destruct (loadedMessages s) as [[|k l]|]; try exact I; lia.
Qed.

Lemma store_inv_trigger (s : state) :
  Inv.store_inv s -> Inv.store_inv (snd (triggerMessagesRefreshed s)).
Proof. apply triggerMessagesRefreshed_closed. apply store_inv_clamp. Qed.

Lemma store_inv_selectChannel (s : state) (channel : string) :
  Inv.store_inv s -> Inv.store_inv (snd (selectChannel s channel)).
Proof.
  intros (Hsize & Hpage & Hlist). unfold selectChannel.
  set (s1 := set_selectedChannel (Some channel) (set_currentPage (Some 1) s)).
  destruct (getFilteredMessageKeys s1 channel) as [keys|e] eqn:Hkeys; simpl.
  - apply store_inv_trigger. split; [exact Hsize|]. split.
    + unfold Inv.page_ok. simpl. split; [lia|].
      destruct (JS.sort sorter.oldestToNewest keys); [lia|exact I].
    + intros l Hl. simpl in Hl. injection Hl as <-.
      unfold getFilteredMessageKeys in Hkeys.
      destruct (getMessages s1 channel) as [messages|] eqn:Hget; [|discriminate Hkeys].
      exists channel, messages. split; [reflexivity|]. split; [exact Hget|].
      intros k Hk. apply sort_in in Hk. apply lookup_in_keys.
      injection Hkeys as <-. simpl in Hk.
      destruct (filterFunction s) as [f|]; [|exact Hk].
      eapply filtered_keys_incl; exact Hk.
  - split; [exact Hsize|]. split.
    + unfold Inv.page_ok. simpl. split; [lia|].
      destruct (loadedMessages s) as [l|] eqn:Hl; [|lia].
      exfalso. destruct (Hlist l Hl) as (ch & msgs & _ & Hget & _).
      unfold getFilteredMessageKeys in Hkeys.
      assert (Hsame : forall c, getMessages s1 c = getMessages s c) by reflexivity.
      rewrite Hsame in Hkeys. unfold getMessages in Hkeys, Hget.
      destruct (loadedFileData s); discriminate.
    + intros l Hl. simpl in Hl.
      exfalso. destruct (Hlist l Hl) as (ch & msgs & _ & Hget & _).
      unfold getFilteredMessageKeys in Hkeys.
      assert (Hsame : forall c, getMessages s1 c = getMessages s c) by reflexivity.
      rewrite Hsame in Hkeys. unfold getMessages in Hkeys, Hget.
      destruct (loadedFileData s); discriminate.
Qed.

Lemma store_inv_navigateToMessage (s : state) (id : string) :
  Inv.store_inv s -> Inv.store_inv (snd (navigateToMessage s id)).
Proof.
  intros Hinv. unfold navigateToMessage.
  destruct (loadedMessages s) as [l|]; [|exact Hinv].
  destruct (getMessageChannel s id) as [channel|e]; [|exact Hinv].
  set (switched := match channel with
                   | Some c => if match selectedChannel s with
                                  | Some sel => (c =? sel)%string
                                  | None => false
                                  end
                               then (Return tt, s) else selectChannel s c
                   | None => (Return tt, s)
                   end).
  assert (Hsw : Inv.store_inv (snd switched)).
  { subst switched. destruct channel as [c|]; [|exact Hinv].
    destruct (match selectedChannel s with
              | Some sel => (c =? sel)%string
              | None => false
              end); [exact Hinv|now apply store_inv_selectChannel]. }
  destruct switched as [[u|e] s1]; simpl in Hsw; [|exact Hsw].
  destruct (loadedMessages s1) as [l1|] eqn:Hl1; [|exact Hsw].
  destruct (index_of id l1) as [index|] eqn:Hindex; [|exact Hsw].
  assert (Hinv2 : Inv.store_inv (set_currentPage (page_of_index s1 (Z.of_nat index)) s1)).
  { destruct Hsw as (Hsize & Hpage & Hlist). apply page_ok_set; auto.
    unfold page_of_index. rewrite Hl1.
    apply index_of_some in Hindex.
    destruct l1 as [|k1 l1]; [destruct Hindex|].
    destruct (messagesPerPage s1) as [n|]; [|exact I].
    destruct (n =? 0); [destruct (Z.of_nat index =? 0); [exact I|]|]; split; try exact I; lia. }
  apply store_inv_trigger in Hinv2.
  destruct (triggerMessagesRefreshed _) as [[u'|e'] s2]; exact Hinv2.
Qed.

Lemma store_inv_step (url_pathname : string -> option string) (s : state) (a : action) :
  admissible a -> Inv.store_inv s -> Inv.store_inv (step url_pathname s a).
Proof.
  intros Hadm Hinv. destruct a as [|meta data|channel|amount|pa| |id|filter2]; simpl.
  - exact Hinv.
  - unfold uploadFile.
    destruct (not_nullish (loadedFileMeta s)); [exact Hinv|].
    destruct (negb (typeof meta =? "object")%string || negb (typeof data =? "object")%string);
      [exact Hinv|].
    apply store_inv_trigger. destruct Hinv as (Hsize & _ & _).
    split; [exact Hsize|]. split.
    + unfold Inv.page_ok. simpl. lia.
    + intros l Hl. discriminate Hl.
  - now apply store_inv_selectChannel.
  - unfold setMessagesPerPage. apply store_inv_trigger.
    destruct Hinv as (_ & Hpage & Hlist).
    split; [|split; [exact Hpage|exact Hlist]].
    unfold Inv.page_size_ok. simpl. destruct amount; [exact Hadm|exact I].
  - pose proof Hinv as (Hsize & Hpage & Hlist).
    pose proof (getPageCount_nonneg s Hsize) as Hnonneg.
    pose proof (getPageCount_empty s Hsize) as Hempty.
    unfold Inv.page_ok in Hpage.
    unfold updateCurrentPage.
    destruct pa as [| | | |[page|]|]; try exact Hinv;
      try (apply store_inv_trigger; try exact Hinv; apply page_ok_set; auto).
    all: try (destruct (currentPage s) as [c|]; simpl; [|exact I]).
    all: split; [lia|]; destruct (loadedMessages s) as [[|k l]|]; try exact I; lia.
  - now apply store_inv_clamp.
  - now apply store_inv_navigateToMessage.
  - unfold setActiveFilter.
    assert (Hinv1 : Inv.store_inv (set_filterFunction (filter_of url_pathname filter2) s))
      by exact Hinv.
    destruct (selectedChannel (set_filterFunction (filter_of url_pathname filter2) s))
      as [channel|]; [|exact Hinv1].
    destruct (channel =? "")%string; [exact Hinv1|].
    now apply store_inv_selectChannel.
Qed.

Lemma store_inv_initial : Inv.store_inv initial_state.
Proof.
  split; [exact I|]. split; [exact I|]. intros l Hl. discriminate Hl.
Qed.

Lemma store_inv_run (url_pathname : string -> option string) (actions : list action) :
  Forall admissible actions -> Inv.store_inv (run url_pathname actions).
Proof.
  unfold run. intros Hadm.
  assert (H : forall s, Inv.store_inv s ->
                        Inv.store_inv (fold_left (step url_pathname) actions s)).
  { induction Hadm as [|a actions Ha Hadm IH]; intros s Hs; simpl; [exact Hs|].
    apply IH. now apply store_inv_step. }
  apply H. apply store_inv_initial.
Qed.








(** ** The channel hierarchy: the map built from the parent links *)

Import Hierarchy.

Lemma mem_in (x : string) (l : list string) :
  existsb (String.eqb x) l = true <-> In x l.
Proof.
  rewrite existsb_exists. split.
  - intros (y & Hy & Heq). apply String.eqb_eq in Heq. now subst.
  - intros H. exists x. split; [exact H|apply String.eqb_refl].
Qed.

Lemma mem_not_in (x : string) (l : list string) :
  existsb (String.eqb x) l = false <-> ~ In x l.
Proof.
  rewrite <- mem_in. destruct (existsb (String.eqb x) l); split; congruence.
Qed.

Lemma set_add_in (x y : string) (set : list string) :
  In y (set_add x set) <-> y = x \/ In y set.
Proof.
  unfold set_add. destruct (existsb (String.eqb x) set) eqn:E.
  - apply mem_in in E. split; [auto|]. intros [->|H]; auto.
  - rewrite in_app_iff. simpl. split; intros H; decompose [or] H; auto. contradiction.
Qed.

Lemma set_add_nodup (x : string) (set : list string) :
  NoDup set -> NoDup (set_add x set).
Proof.
  intros H. unfold set_add. destruct (existsb (String.eqb x) set) eqn:E; [exact H|].
  apply mem_not_in in E.
  apply NoDup_app; [exact H|repeat constructor; intros []|].
  intros a Ha [<-|[]]. contradiction.
Qed.

Lemma set_add_not_nil (x : string) (set : list string) : set_add x set <> [].
Proof.
  unfold set_add. destruct (existsb (String.eqb x) set) eqn:E.
  - apply mem_in in E. destruct set; [destruct E|discriminate].
  - destruct set; discriminate.
Qed.

Lemma lookup_app {V : Type} (k : string) (l1 l2 : list (string * V)) :
  lookup k (l1 ++ l2) = match lookup k l1 with Some v => Some v | None => lookup k l2 end.
Proof.
  induction l1 as [|[k' v'] l1 IH]; simpl; [reflexivity|].
  destruct (k' =? k)%string; [reflexivity|exact IH].
Qed.

Lemma lookup_some_in {V : Type} (k : string) (v : V) (l : list (string * V)) :
  lookup k l = Some v -> In (k, v) l.
Proof.
  induction l as [|[k' v'] l IH]; simpl; [discriminate|].
  destruct (String.eqb_spec k' k) as [->|Hne].
  - intros H. injection H as ->. now left.
  - intros H. right. now apply IH.
Qed.

Lemma lookup_nodup_in {V : Type} (k : string) (v : V) (l : list (string * V)) :
  NoDup (map fst l) -> In (k, v) l -> lookup k l = Some v.
Proof.
  induction l as [|[k' v'] l IH]; simpl; [intros _ []|].
  intros Hnd [Heq|Hin].
  - injection Heq as -> ->. now rewrite String.eqb_refl.
  - inversion Hnd as [|? ? Hnotin Hnd']; subst.
    destruct (String.eqb_spec k' k) as [->|Hne]; [|now apply IH].
    exfalso. apply Hnotin. apply in_map_iff. now exists (k, v).
Qed.

Lemma lookup_none_keys {V : Type} (k : string) (l : list (string * V)) :
  lookup k l = None <-> ~ In k (map fst l).
Proof.
  induction l as [|[k' v'] l IH]; simpl; [tauto|].
  destruct (String.eqb_spec k' k) as [->|Hne].
  - split; [discriminate|]. intros H. exfalso. apply H. now left.
  - rewrite IH. tauto.
Qed.

Lemma lookup_children_add (q p id : string) (h : hierarchy) :
  lookup q (children_add p id h)
  = if (q =? p)%string then option_map (set_add id) (lookup p h) else lookup q h.
Proof.
  induction h as [|[k cs] h IH]; simpl.
  - destruct (q =? p)%string; reflexivity.
  - destruct (String.eqb_spec k p) as [->|Hkp]; simpl.
    + destruct (String.eqb_spec p q) as [->|Hpq].
      * now rewrite String.eqb_refl.
      * destruct (String.eqb_spec q p); [congruence|reflexivity].
    + destruct (String.eqb_spec k q) as [->|Hkq].
      * destruct (String.eqb_spec q p); [congruence|reflexivity].
      * exact IH.
Qed.

Lemma children_add_keys (p id : string) (h : hierarchy) :
  map fst (children_add p id h) = map fst h.
Proof.
  induction h as [|[k cs] h IH]; simpl; [reflexivity|].
  destruct (k =? p)%string; simpl; [reflexivity|now rewrite IH].
Qed.

Lemma lookup_getChildren (q p : string) (h : hierarchy) :
  lookup q (snd (getChildren p h))
  = if (q =? p)%string
    then Some (match lookup p h with Some cs => cs | None => [] end)
    else lookup q h.
Proof.
  unfold getChildren. destruct (lookup p h) as [cs|] eqn:Hp; simpl.
  - destruct (String.eqb_spec q p) as [->|]; [exact Hp|reflexivity].
  - rewrite lookup_app. simpl.
    destruct (String.eqb_spec q p) as [->|Hne].
    + now rewrite Hp, String.eqb_refl.
    + destruct (lookup q h); [reflexivity|].
      destruct (String.eqb_spec p q); [congruence|reflexivity].
Qed.

Lemma lookup_add_channel (q : string) (h : hierarchy) (entry : string * channel) :
  lookup q (add_channel h entry)
  = if (parent_key (snd entry) =? q)%string
    then Some (set_add (fst entry)
                 (match lookup q h with Some cs => cs | None => [] end))
    else lookup q h.
Proof.
  unfold add_channel. rewrite lookup_children_add, !lookup_getChildren.
  rewrite String.eqb_refl. simpl.
  destruct (String.eqb_spec q (parent_key (snd entry))) as [->|Hne].
  - now rewrite String.eqb_refl.
  - destruct (String.eqb_spec (parent_key (snd entry)) q); [congruence|reflexivity].
Qed.

Lemma kids_last (p : string) (l : list (string * channel)) (entry : string * channel) :
  kids p (l ++ [entry])
  = if (parent_key (snd entry) =? p)%string then set_add (fst entry) (kids p l)
    else kids p l.
Proof. unfold kids. now rewrite fold_left_app. Qed.

(** The entry of a parent key in the map that was built. *)
Lemma lookup_build (p : string) (l : list (string * channel)) :
  lookup p (build l) = match kids p l with [] => None | cs => Some cs end.
Proof.
  induction l as [|entry l IH] using rev_ind; [reflexivity|].
  unfold build in *. rewrite fold_left_app. simpl.
  rewrite lookup_add_channel, kids_last, IH.
  destruct (parent_key (snd entry) =? p)%string; [|reflexivity].
  assert (Hd : match match kids p l with [] => None | cs => Some cs end with
               | Some cs => cs
               | None => []
               end = kids p l) by (destruct (kids p l); reflexivity).
  rewrite Hd. pose proof (set_add_not_nil (fst entry) (kids p l)) as Hne.
  destruct (set_add (fst entry) (kids p l)); [congruence|reflexivity].
Qed.

Lemma kids_in (p c : string) (l : list (string * channel)) :
  In c (kids p l) <-> exists ch, In (c, ch) l /\ parent_key ch = p.
Proof.
  induction l as [|entry l IH] using rev_ind.
  - simpl. split; [intros []|intros (ch & [] & _)].
  - rewrite kids_last.
    destruct (String.eqb_spec (parent_key (snd entry)) p) as [Heq|Hne].
    + rewrite set_add_in, IH. split.
      * intros [->|(ch & Hin & Hp)].
        -- exists (snd entry). split; [|exact Heq].
           apply in_or_app. right. left. now destruct entry.
        -- exists ch. split; [|exact Hp]. apply in_or_app. now left.
      * intros (ch & Hin & Hp). apply in_app_or in Hin.
        destruct Hin as [Hin|[Heq'|[]]]; [right; eauto|].
        left. now subst entry.
    + rewrite IH. split.
      * intros (ch & Hin & Hp). exists ch. split; [|exact Hp]. apply in_or_app. now left.
      * intros (ch & Hin & Hp). apply in_app_or in Hin.
        destruct Hin as [Hin|[Heq'|[]]]; [eauto|].
        subst entry. simpl in Hne. congruence.
Qed.

Lemma kids_nodup (p : string) (l : list (string * channel)) : NoDup (kids p l).
Proof.
  induction l as [|entry l IH] using rev_ind; [constructor|].
  rewrite kids_last. destruct (_ =? _)%string; [now apply set_add_nodup|exact IH].
Qed.

Lemma getChildren_keys_nodup (p : string) (h : hierarchy) :
  NoDup (map fst h) -> NoDup (map fst (snd (getChildren p h))).
Proof.
  intros Hnd. unfold getChildren. destruct (lookup p h) eqn:Hp; simpl; [exact Hnd|].
  rewrite map_app. simpl. apply NoDup_app; [exact Hnd|repeat constructor; intros []|].
  intros a Ha [<-|[]]. apply lookup_none_keys in Hp. contradiction.
Qed.

Lemma build_keys_nodup (l : list (string * channel)) : NoDup (map fst (build l)).
Proof.
  induction l as [|entry l IH] using rev_ind; [constructor|].
  unfold build in *. rewrite fold_left_app.
  change (fold_left add_channel [entry] (fold_left add_channel l []))
    with (add_channel (fold_left add_channel l []) entry).
  unfold add_channel at 1. rewrite children_add_keys.
  now apply getChildren_keys_nodup.
Qed.

(** ** The pre-order traversal of a forest *)

Lemma fold_opt_subtrees (sub : string -> option (list string)) (l acc : list string) :
  (forall c, In c l -> sub c <> None) ->
  fold_opt (fun subTree id =>
              match sub id with
              | Some t => Some (subTree ++ id :: t)
              | None => None
              end) l acc
  = Some (acc ++ flat_map (fun c => c :: match sub c with Some t => t | None => [] end) l).
Proof.
  revert acc. induction l as [|c l IH]; intros acc Hsub; simpl.
  - now rewrite app_nil_r.
  - destruct (sub c) as [t|] eqn:Hc.
    + rewrite IH by (intros c' Hc'; apply Hsub; now right).
      now rewrite <- app_assoc.
    + exfalso. apply (Hsub c); [now left|exact Hc].
Qed.

Lemma filter_or_length {A : Type} (f g : A -> bool) (l : list A) :
  (forall d, In d l -> f d = true -> g d = true -> False) ->
  List.length (filter (fun d => f d || g d) l)
  = (List.length (filter f l) + List.length (filter g l))%nat.
Proof.
  induction l as [|d l IH]; intros Hdisj; simpl; [reflexivity|].
  assert (IH' := IH (fun d' Hd' => Hdisj d' (or_intror Hd'))).
  pose proof (Hdisj d (or_introl eq_refl)) as Hd.
  destruct (f d), (g d); simpl; try lia; exfalso; now apply Hd.
Qed.

Lemma filter_nil {A : Type} (f : A -> bool) (l : list A) :
  (forall d, In d l -> f d = false) -> filter f l = [].
Proof.
  induction l as [|d l IH]; intros H; simpl; [reflexivity|].
  rewrite (H d (or_introl eq_refl)). apply IH. intros d' Hd'. apply H. now right.
Qed.

Lemma count_occ_nodup (l : list string) (x : string) :
  NoDup l -> count_occ string_dec l x = if existsb (String.eqb x) l then 1%nat else 0%nat.
Proof.
  intros Hnd. destruct (existsb (String.eqb x) l) eqn:E.
  - apply mem_in in E. now apply NoDup_count_occ'.
  - apply mem_not_in in E. now apply count_occ_not_In.
Qed.

Section Forest.

(** A forest over [ids]: every id has a parent, which is another id or
    the root, the levels grow along the parent links, and the map [h]
    lists the children of each parent. *)
Variable ids : list string.
Variable parent : string -> string.
Variable h : hierarchy.
Variable cmp : string -> string -> Z.
Variable lvl : string -> nat.
Variable N : nat.

Hypothesis F_nodup : NoDup ids.
Hypothesis F_some :
  forall p cs, lookup p h = Some cs ->
    NoDup cs /\ forall c, In c cs <-> (In c ids /\ parent c = p).
Hypothesis F_none : forall p, lookup p h = None -> forall c, In c ids -> parent c <> p.
Hypothesis F_lvl : forall c, In c ids -> (lvl (parent c) < lvl c)%nat.
Hypothesis F_bound : forall c, In c ids -> (lvl c <= N)%nat.
Hypothesis F_parent : forall c, In c ids -> parent c = ""%string \/ In (parent c) ids.
Hypothesis F_root : ~ In ""%string ids.

(** How many ids on the way from [x] to the root have the parent [p]. *)
Local Abbreviation below p k x :=
  (List.length (filter (fun d => (parent d =? p)%string) (chain ids parent k x))).

Lemma chain_in_ids (k : nat) (x d : string) : In d (chain ids parent k x) -> In d ids.
Proof.
  revert x. induction k as [|k IH]; intros x; simpl; [intros []|].
  destruct (existsb (String.eqb x) ids) eqn:E; [|intros []].
  apply mem_in in E. intros [<-|H]; [exact E|now apply (IH (parent x))].
Qed.

Lemma below_none (p : string) (k : nat) (x : string) :
  lookup p h = None -> below p k x = 0%nat.
Proof.
  intros Hp.
  assert (Hf : filter (fun d => (parent d =? p)%string) (chain ids parent k x) = []).
  { apply filter_nil. intros d Hd.
    apply chain_in_ids in Hd.
    destruct (String.eqb_spec (parent d) p) as [Heq|]; [|reflexivity].
    exfalso. exact (F_none p Hp d Hd Heq). }
  now rewrite Hf.
Qed.

(** Moving one step up the chain. *)
Lemma below_children (p : string) (cs : list string) :
  NoDup cs ->
  (forall c, In c cs <-> (In c ids /\ parent c = p)) ->
  forall (k : nat) (x : string),
    (In x ids -> (lvl x < k)%nat) ->
    ((if existsb (String.eqb x) cs then 1 else 0)
     + List.length (filter (fun d => existsb (String.eqb (parent d)) cs)
                      (chain ids parent k x)))%nat
    = below p k x.
Proof.
  intros Hnd Hcs. induction k as [|k IH]; intros x Hx; simpl.
  - destruct (existsb (String.eqb x) cs) eqn:E; [|reflexivity].
    apply mem_in in E. apply Hcs in E. destruct E as [E _]. specialize (Hx E). lia.
  - destruct (existsb (String.eqb x) ids) eqn:Eids.
    + apply mem_in in Eids. simpl.
      assert (IH' : (In (parent x) ids -> (lvl (parent x) < k)%nat))
        by (intros _; specialize (Hx Eids); specialize (F_lvl x Eids); lia).
      apply IH in IH'.
      assert (Hx_cs : existsb (String.eqb x) cs = (parent x =? p)%string).
      { destruct (String.eqb_spec (parent x) p) as [Heq|Hne].
        - apply mem_in. apply Hcs. auto.
        - apply mem_not_in. intros Hin. apply Hcs in Hin. tauto. }
      rewrite Hx_cs.
      destruct (parent x =? p)%string;
        destruct (existsb (String.eqb (parent x)) cs); simpl in *; lia.
    + apply mem_not_in in Eids. simpl.
      destruct (existsb (String.eqb x) cs) eqn:E; [|reflexivity].
      apply mem_in in E. apply Hcs in E. tauto.
Qed.

(** The ids of the sub-trees of a set of siblings. *)
Lemma count_occ_subtrees (t : string -> list string) (k : nat) (x : string)
  (cs : list string) :
  NoDup cs ->
  (forall c, In c cs -> count_occ string_dec (t c) x = below c k x) ->
  count_occ string_dec (flat_map (fun c => c :: t c) cs) x
  = (count_occ string_dec cs x
     + List.length (filter (fun d => existsb (String.eqb (parent d)) cs)
                      (chain ids parent k x)))%nat.
Proof.
  induction cs as [|c cs IH]; intros Hnd Ht.
  - simpl. assert (Hf : filter (fun _ : string => false) (chain ids parent k x) = []).
    { apply filter_nil. reflexivity. }
    now rewrite Hf.
  - inversion Hnd as [|? ? Hnotin Hnd']; subst.
    cbn [flat_map]. rewrite count_occ_app.
    rewrite IH by (auto; intros c' Hc'; apply Ht; now right).
    cbn [existsb].
    rewrite (filter_or_length
               (fun d => (parent d =? c)%string)
               (fun d => existsb (String.eqb (parent d)) cs)).
    + rewrite <- (Ht c (or_introl eq_refl)).
      cbn [count_occ]. destruct (string_dec c x); lia.
    + intros d _ Hd Hin. apply String.eqb_eq in Hd. apply mem_in in Hin.
      rewrite Hd in Hin. contradiction.
Qed.

(** The traversal from [p] returns, and it lists each id as often as
    [p] occurs among the parents on the way from that id to the root. *)
Lemma getSortedSubTree_below (fuel : nat) :
  forall p : string,
    (lvl p <= N)%nat -> (N < fuel + lvl p)%nat ->
    exists t, getSortedSubTree fuel cmp h p = Some t /\
              forall x, count_occ string_dec t x = below p (S N) x.
Proof.
  induction fuel as [|fuel IH]; intros p Hp Hfuel; [lia|].
  cbn [getSortedSubTree].
  destruct (lookup p h) as [cs|] eqn:Hlookup.
  - destruct (F_some p cs Hlookup) as [Hnd Hcs].
    assert (Hsub : forall c, In c cs ->
              exists t, getSortedSubTree fuel cmp h c = Some t /\
                        forall x, count_occ string_dec t x = below c (S N) x).
    { intros c Hc. apply Hcs in Hc. destruct Hc as [Hc Hpar].
      pose proof (F_lvl c Hc) as Hl. rewrite Hpar in Hl.
      apply IH; [now apply F_bound|lia]. }
    rewrite fold_opt_subtrees.
    2:{ intros c Hc. apply sort_in in Hc. destruct (Hsub c Hc) as (t & -> & _).
        discriminate. }
    eexists. split; [reflexivity|]. intros x. cbn [app].
    set (T := fun c => match getSortedSubTree fuel cmp h c with
                       | Some t => t
                       | None => []
                       end).
    assert (Hperm : Permutation (flat_map (fun c => c :: T c) (JS.sort cmp cs))
                      (flat_map (fun c => c :: T c) cs))
      by (apply Permutation_flat_map, sort_perm).
    change (count_occ string_dec (flat_map (fun c => c :: T c) (JS.sort cmp cs)) x
            = below p (S N) x).
    rewrite (proj1 (Permutation_count_occ string_dec _ _) Hperm x).
    rewrite (count_occ_subtrees T (S N) x cs Hnd).
    2:{ intros c Hc. subst T. cbv beta. destruct (Hsub c Hc) as (t & -> & Ht). apply Ht. }
    rewrite (count_occ_nodup cs x Hnd).
    apply (below_children p cs Hnd Hcs (S N) x).
    intros Hx. specialize (F_bound x Hx). lia.
  - exists []. split; [reflexivity|]. intros x. cbn [count_occ].
    symmetry. now apply below_none.
Qed.

Lemma below_root (k : nat) (x : string) :
  (In x ids -> (lvl x < k)%nat) ->
  below ""%string k x = if existsb (String.eqb x) ids then 1%nat else 0%nat.
Proof.
  revert x. induction k as [|k IH]; intros x Hx; simpl.
  - destruct (existsb (String.eqb x) ids) eqn:E; [|reflexivity].
    apply mem_in in E. specialize (Hx E). lia.
  - destruct (existsb (String.eqb x) ids) eqn:E; [|reflexivity].
    apply mem_in in E. simpl.
    assert (IH' : (In (parent x) ids -> (lvl (parent x) < k)%nat))
      by (intros _; specialize (Hx E); specialize (F_lvl x E); lia).
    apply IH in IH'.
    destruct (F_parent x E) as [Hroot|Hin].
    + rewrite Hroot in *. simpl.
      destruct (existsb (String.eqb ""%string) ids) eqn:E'.
      * apply mem_in in E'. contradiction.
      * simpl. lia.
    + destruct (String.eqb_spec (parent x) ""%string) as [Heq|Hne].
      * rewrite Heq in Hin. contradiction.
      * apply mem_in in Hin. rewrite Hin in IH'. exact IH'.
Qed.

(** The traversal from the root lists every id exactly once. *)
Lemma getSortedSubTree_root (fuel : nat) :
  (lvl ""%string <= N)%nat -> (N < fuel + lvl ""%string)%nat ->
  exists order, getSortedSubTree fuel cmp h ""%string = Some order /\
                Permutation order ids.
Proof.
  intros Hroot Hfuel.
  destruct (getSortedSubTree_below fuel ""%string Hroot Hfuel) as (t & Ht & Hcount).
  exists t. split; [exact Ht|].
  apply (Permutation_count_occ string_dec). intros x.
  rewrite Hcount, below_root, count_occ_nodup; auto.
  intros Hx. specialize (F_bound x Hx). lia.
Qed.

End Forest.

(** ** Reachability from the root *)

Section Resolve.

Variable channels : list (string * channel).
Hypothesis keys_nodup : NoDup (map fst channels).
Hypothesis no_empty_id : ~ In ""%string (map fst channels).

Local Abbreviation ids := (map fst channels).
Local Abbreviation par := (parent_of channels).

Lemma lookup_root : lookup ""%string channels = None.
Proof. now apply lookup_none_keys. Qed.

Lemma in_ids_lookup (c : string) : In c ids <-> exists ch, lookup c channels = Some ch.
Proof.
  split.
  - intros H. destruct (lookup c channels) as [ch|] eqn:E; [eauto|].
    apply lookup_none_keys in E. contradiction.
  - intros [ch H]. apply lookup_some_in in H. apply in_map_iff. now exists (c, ch).
Qed.

Lemma kids_spec (p c : string) :
  In c (kids p channels) <-> (In c ids /\ par c = p).
Proof.
  rewrite kids_in. unfold parent_of. split.
  - intros (ch & Hin & Hp). split.
    + apply in_map_iff. now exists (c, ch).
    + now rewrite (lookup_nodup_in c ch channels keys_nodup Hin).
  - intros (Hin & Hp). apply in_ids_lookup in Hin. destruct Hin as [ch Hch].
    rewrite Hch in Hp. exists ch. split; [now apply lookup_some_in|exact Hp].
Qed.

Lemma reach_in_step (k : nat) (c : string) :
  reach_in channels (S k) c = true <-> (In c ids /\ reach_in channels k (par c) = true).
Proof.
  simpl. unfold parent_of. split.
  - destruct (lookup c channels) as [ch|] eqn:E; [|discriminate].
    intros H. split; [apply in_ids_lookup; eauto|exact H].
  - intros [Hin H]. apply in_ids_lookup in Hin. destruct Hin as [ch Hch].
    now rewrite Hch in *.
Qed.

Lemma reach_in_zero (c : string) : reach_in channels 0 c = true <-> c = ""%string.
Proof. simpl. apply String.eqb_eq. Qed.

(** An id is at one level at most. *)
Lemma reach_in_unique (j k : nat) (c : string) :
  reach_in channels j c = true -> reach_in channels k c = true -> j = k.
Proof.
  revert k c. induction j as [|j IH]; intros [|k] c Hj Hk.
  - reflexivity.
  - apply reach_in_zero in Hj. subst c. simpl in Hk. now rewrite lookup_root in Hk.
  - apply reach_in_zero in Hk. subst c. simpl in Hj. now rewrite lookup_root in Hj.
  - apply reach_in_step in Hj, Hk. f_equal. apply (IH k (par c)); tauto.
Qed.

Lemma chain_reach (k : nat) (c : string) :
  reach_in channels k c = true ->
  List.length (chain ids par k c) = k /\
  NoDup (chain ids par k c) /\
  forall d, In d (chain ids par k c) ->
            exists j, (1 <= j <= k)%nat /\ reach_in channels j d = true.
Proof.
  revert c. induction k as [|k IH]; intros c Hc.
  - simpl. repeat split; [constructor|intros d []].
  - pose proof Hc as Hc'. apply reach_in_step in Hc'. destruct Hc' as [Hin Hpar].
    destruct (IH (par c) Hpar) as (Hlen & Hnd & Hlevels).
    cbn [chain]. rewrite (proj2 (mem_in c ids) Hin).
    split; [simpl; now rewrite Hlen|]. split.
    + constructor; [|exact Hnd]. intros Hd.
      destruct (Hlevels c Hd) as (j & Hj & Hreach).
      pose proof (reach_in_unique j (S k) c Hreach Hc). lia.
    + intros d [<-|Hd]; [exists (S k); split; [lia|exact Hc]|].
      destruct (Hlevels d Hd) as (j & Hj & Hreach). exists j. split; [lia|exact Hreach].
Qed.

Lemma chain_ids_incl (k : nat) (c : string) : incl (chain ids par k c) ids.
Proof.
  revert c. induction k as [|k IH]; intros c d; simpl; [intros []|].
  destruct (existsb (String.eqb c) ids) eqn:E; [|intros []].
  apply mem_in in E. intros [<-|H]; [exact E|now apply (IH (par c))].
Qed.

(** No id is deeper than the number of channels. *)
Lemma reach_in_bound (k : nat) (c : string) :
  reach_in channels k c = true -> (k <= List.length channels)%nat.
Proof.
  intros Hc. destruct (chain_reach k c Hc) as (Hlen & Hnd & _).
  rewrite <- Hlen, <- (length_map fst channels).
  apply NoDup_incl_length; [exact Hnd|apply chain_ids_incl].
Qed.

Lemma level_reach (c : string) (k : nat) :
  level channels c = Some k <-> reach_in channels k c = true.
Proof.
  unfold level. split.
  - intros H. apply find_some in H. tauto.
  - intros H.
    destruct (find (fun j => reach_in channels j c) (seq 0 (S (List.length channels))))
      as [j|] eqn:E.
    + apply find_some in E. destruct E as [_ E]. f_equal.
      now apply (reach_in_unique j k c).
    + exfalso. pose proof (reach_in_bound k c H) as Hb.
      pose proof (find_none _ _ E k) as Hnone. cbv beta in Hnone.
      rewrite Hnone in H; [discriminate|]. apply in_seq. lia.
Qed.

Lemma reachable_reach (c : string) :
  reachable channels c = true <-> exists k, reach_in channels k c = true.
Proof.
  unfold reachable. split.
  - destruct (level channels c) as [k|] eqn:E; [|discriminate].
    intros _. exists k. now apply level_reach.
  - intros [k Hk]. apply level_reach in Hk. now rewrite Hk.
Qed.

Lemma reachable_root : reachable channels ""%string = true.
Proof. apply reachable_reach. now exists 0%nat. Qed.

Lemma reachable_child (c : string) :
  In c ids -> reachable channels (par c) = true -> reachable channels c = true.
Proof.
  intros Hin H. apply reachable_reach in H. destruct H as [k Hk].
  apply reachable_reach. exists (S k). apply reach_in_step. auto.
Qed.

(** A reachable key is the root or a channel. *)
Lemma reachable_cases (p : string) :
  reachable channels p = true -> p = ""%string \/ In p ids.
Proof.
  intros H. apply reachable_reach in H. destruct H as [[|k] Hk].
  - left. now apply reach_in_zero.
  - right. apply reach_in_step in Hk. tauto.
Qed.

(** *** What [reachIds] removes *)

Lemma filter_filter_and {A : Type} (f g : A -> bool) (l : list A) :
  filter g (filter f l) = filter (fun x => f x && g x) l.
Proof.
  induction l as [|x l IH]; simpl; [reflexivity|].
  destruct (f x); simpl; [destruct (g x); now rewrite IH|exact IH].
Qed.

Lemma fold_opt_some {A S : Type} (body : S -> A -> option S) (l : list A) :
  (forall x, In x l -> forall s, body s x <> None) ->
  forall s, fold_opt body l s <> None.
Proof.
  induction l as [|x l IH]; intros Hbody s; simpl; [discriminate|].
  destruct (body s x) as [s'|] eqn:E.
  - apply IH. intros x' Hx'. apply Hbody. now right.
  - exfalso. apply (Hbody x (or_introl eq_refl) s E).
Qed.

(** [reachIds] removes the ids it visits, and only those. *)
Lemma reachIds_visit (h : hierarchy) (fuel : nat) :
  forall (p : string) (U U' : list string),
    reachIds fuel h p U = Some U' ->
    U' = filter (fun u => negb (existsb (String.eqb u) (visit fuel h p))) U.
Proof.
  induction fuel as [|fuel IH]; intros p U U' H; [discriminate H|].
  cbn [reachIds visit] in *.
  assert (Hloop : forall cs V V',
            fold_opt (fun unreachable id => reachIds fuel h id unreachable) cs V = Some V' ->
            V' = filter (fun u => negb (existsb (String.eqb u) (flat_map (visit fuel h) cs)))
                   V).
  { induction cs as [|c cs IHcs]; intros V V' Hcs; simpl in *.
    - injection Hcs as <-. symmetry. induction V; simpl; [reflexivity|now f_equal].
    - destruct (reachIds fuel h c V) as [V1|] eqn:Hc; [|discriminate Hcs].
      apply IH in Hc. apply IHcs in Hcs. subst V1 V'.
      rewrite filter_filter_and. apply filter_ext. intros u.
      now rewrite existsb_app, negb_orb. }
  unfold set_delete in H.
  destruct (lookup p h) as [cs|].
  - apply Hloop in H. subst U'. rewrite filter_filter_and.
    apply filter_ext. intros u. cbn [existsb]. now rewrite negb_orb.
  - injection H as <-. apply filter_ext. intros u. cbn [existsb].
    now rewrite orb_false_r.
Qed.

Lemma visit_child (h : hierarchy) (fuel : nat) :
  forall (q p c : string) (cs : list string),
    In p (visit fuel h q) -> lookup p h = Some cs -> In c cs ->
    In c (visit (S fuel) h q).
Proof.
  induction fuel as [|fuel IH]; intros q p c cs Hp Hcs Hc; [destruct Hp|].
  cbn [visit] in Hp. destruct Hp as [<-|Hp].
  - cbn [visit]. right. rewrite Hcs. apply in_flat_map. exists c. split; [exact Hc|].
    now left.
  - destruct (lookup q h) as [qs|] eqn:Hq; [|destruct Hp].
    apply in_flat_map in Hp. destruct Hp as (c' & Hc' & Hp).
    change (In c (q :: match lookup q h with
                       | Some children => flat_map (visit (S fuel) h) children
                       | None => []
                       end)).
    right. rewrite Hq. apply in_flat_map. exists c'. split; [exact Hc'|].
    now apply (IH c' p c cs).
Qed.

Lemma lookup_build_kids (p : string) (cs : list string) :
  lookup p (build channels) = Some cs -> cs = kids p channels.
Proof.
  rewrite lookup_build. destruct (kids p channels); [discriminate|congruence].
Qed.

Lemma lookup_build_child (c : string) :
  In c ids -> lookup (par c) (build channels) = Some (kids (par c) channels).
Proof.
  intros Hc. rewrite lookup_build.
  assert (Hin : In c (kids (par c) channels)) by (apply kids_spec; auto).
  destruct (kids (par c) channels); [destruct Hin|reflexivity].
Qed.

Lemma visit_reachable (fuel : nat) :
  forall (k : nat) (p u : string),
    reach_in channels k p = true -> In u (visit fuel (build channels) p) ->
    reachable channels u = true.
Proof.
  induction fuel as [|fuel IH]; intros k p u Hp Hu; [destruct Hu|].
  cbn [visit] in Hu. destruct Hu as [<-|Hu].
  - apply reachable_reach. eauto.
  - destruct (lookup p (build channels)) as [cs|] eqn:Hcs; [|destruct Hu].
    apply lookup_build_kids in Hcs. subst cs.
    apply in_flat_map in Hu. destruct Hu as (c & Hc & Hu).
    apply kids_spec in Hc. destruct Hc as [Hc Hpar].
    apply (IH (S k) c u); [|exact Hu].
    apply reach_in_step. rewrite Hpar. auto.
Qed.

Lemma reach_in_visit (k : nat) :
  forall (u : string) (fuel : nat),
    reach_in channels k u = true -> (k < fuel)%nat ->
    In u (visit fuel (build channels) ""%string).
Proof.
  induction k as [|k IH]; intros u fuel Hu Hfuel.
  - apply reach_in_zero in Hu. subst u. destruct fuel; [lia|]. now left.
  - apply reach_in_step in Hu. destruct Hu as [Hin Hpar].
    destruct fuel as [|fuel]; [lia|].
    apply (visit_child (build channels) fuel ""%string (par u) u (kids (par u) channels)).
    + apply IH; [exact Hpar|lia].
    + now apply lookup_build_child.
    + apply kids_spec. auto.
Qed.

Lemma reachIds_returns (fuel : nat) :
  forall (k : nat) (p : string) (U : list string),
    reach_in channels k p = true -> (List.length channels < fuel + k)%nat ->
    reachIds fuel (build channels) p U <> None.
Proof.
  induction fuel as [|fuel IH]; intros k p U Hp Hfuel.
  - pose proof (reach_in_bound k p Hp). lia.
  - cbn [reachIds].
    destruct (lookup p (build channels)) as [cs|] eqn:Hcs; [|discriminate].
    apply lookup_build_kids in Hcs. subst cs.
    apply fold_opt_some. intros c Hc V.
    apply kids_spec in Hc. destruct Hc as [Hc Hpar].
    apply (IH (S k)); [|lia]. apply reach_in_step. rewrite Hpar. auto.
Qed.

(** The ids left in [unreachableIds] are the keys of the map that no
    walk from the root arrives at. *)
Lemma reachIds_root (fuel : nat) :
  (List.length channels < fuel)%nat ->
  reachIds fuel (build channels) ""%string (map fst (build channels))
  = Some (filter (fun u => negb (reachable channels u)) (map fst (build channels))).
Proof.
  intros Hfuel.
  destruct (reachIds fuel (build channels) ""%string (map fst (build channels)))
    as [U|] eqn:E.
  - apply reachIds_visit in E. subst U. f_equal. apply filter_ext. intros u. f_equal.
    destruct (reachable channels u) eqn:Hr.
    + apply mem_in. apply reachable_reach in Hr. destruct Hr as [k Hk].
      apply (reach_in_visit k); [exact Hk|].
      pose proof (reach_in_bound k u Hk). lia.
    + apply mem_not_in. intros Hin.
      rewrite (visit_reachable fuel 0 ""%string u) in Hr; [discriminate|reflexivity|exact Hin].
  - exfalso. apply (reachIds_returns fuel 0 ""%string _ eq_refl) in E; [exact E|lia].
Qed.

(** *** The flattening loop *)

Lemma lookup_map_delete (q u : string) (h : hierarchy) :
  lookup q (map_delete u h) = if (q =? u)%string then None else lookup q h.
Proof.
  unfold map_delete. induction h as [|[k cs] h IH]; simpl.
  - destruct (q =? u)%string; reflexivity.
  - destruct (String.eqb_spec k u) as [->|Hku]; simpl.
    + rewrite IH. destruct (String.eqb_spec q u) as [->|Hqu]; [reflexivity|].
      destruct (String.eqb_spec u q); [congruence|reflexivity].
    + destruct (String.eqb_spec k q) as [->|Hkq].
      * destruct (String.eqb_spec q u); [congruence|reflexivity].
      * exact IH.
Qed.

Lemma lookup_add_all (q : string) (cs : list string) (h : hierarchy) :
  lookup q (fold_left (fun h' id => children_add ""%string id h') cs h)
  = if (q =? "")%string
    then option_map (fun rc => fold_left (fun rc id => set_add id rc) cs rc)
           (lookup ""%string h)
    else lookup q h.
Proof.
  revert h. induction cs as [|c cs IH]; intros h; simpl.
  - destruct (String.eqb_spec q ""%string) as [->|]; [|reflexivity].
    destruct (lookup ""%string h); reflexivity.
  - rewrite IH, !lookup_children_add. simpl.
    destruct (String.eqb_spec q ""%string) as [->|]; [|reflexivity].
    destruct (lookup ""%string h); reflexivity.
Qed.

Lemma add_all_in (c : string) (cs rc : list string) :
  In c (fold_left (fun rc id => set_add id rc) cs rc) <-> In c rc \/ In c cs.
Proof.
  revert rc. induction cs as [|c' cs IH]; intros rc; simpl; [tauto|].
  rewrite IH, set_add_in. intuition (subst; auto).
Qed.

Lemma add_all_nodup (cs rc : list string) :
  NoDup rc -> NoDup (fold_left (fun rc id => set_add id rc) cs rc).
Proof.
  revert rc. induction cs as [|c cs IH]; intros rc H; simpl; [exact H|].
  apply IH. now apply set_add_nodup.
Qed.

Lemma root_fold_in (kf : string -> list string) (c : string) (U rc : list string) :
  In c (fold_left (fun rc u => fold_left (fun rc id => set_add id rc) (kf u) rc) U rc)
  <-> In c rc \/ exists u, In u U /\ In c (kf u).
Proof.
  revert rc. induction U as [|u U IH]; intros rc; simpl.
  - split; [auto|]. intros [H|(u & [] & _)]. exact H.
  - rewrite IH, add_all_in. split.
    + intros [[H|H]|(u' & Hu' & H)]; eauto.
    + intros [H|(u' & [<-|Hu'] & H)]; eauto.
Qed.

Lemma root_fold_nodup (kf : string -> list string) (U rc : list string) :
  NoDup rc ->
  NoDup (fold_left (fun rc u => fold_left (fun rc id => set_add id rc) (kf u) rc) U rc).
Proof.
  revert rc. induction U as [|u U IH]; intros rc H; simpl; [exact H|].
  apply IH. now apply add_all_nodup.
Qed.

(** The loop over the unreachable keys moves the children of each key
    to the root and deletes the entry of the key. *)
Lemma flatten_loop (kf : string -> list string) (U : list string) :
  forall h : hierarchy,
    NoDup U -> ~ In ""%string U ->
    (forall u, In u U -> lookup u h = Some (kf u)) ->
    exists h',
      fold_opt flatten U h = Some h' /\
      lookup ""%string h'
      = option_map
          (fun rc => fold_left
                       (fun rc u => fold_left (fun rc id => set_add id rc) (kf u) rc) U rc)
          (lookup ""%string h) /\
      forall q, q <> ""%string ->
        lookup q h' = if existsb (String.eqb q) U then None else lookup q h.
Proof.
  induction U as [|u U IH]; intros h Hnd Hroot Hkf.
  - exists h. split; [reflexivity|]. split; [now destruct (lookup ""%string h)|].
    reflexivity.
  - inversion Hnd as [|? ? Hnotin Hnd']; subst.
    assert (Hu : u <> ""%string) by (intros ->; apply Hroot; now left).
    cbn [fold_opt]. unfold flatten at 1. rewrite (Hkf u (or_introl eq_refl)).
    set (h1 := map_delete u
                 (fold_left (fun h' id => children_add ""%string id h') (kf u) h)).
    assert (Hh1 : forall q,
              lookup q h1
              = if (q =? u)%string then None
                else if (q =? "")%string
                     then option_map
                            (fun rc => fold_left (fun rc id => set_add id rc) (kf u) rc)
                            (lookup ""%string h)
                     else lookup q h).
    { intros q. subst h1. now rewrite lookup_map_delete, lookup_add_all. }
    destruct (IH h1 Hnd') as (h' & Hloop & Hroot' & Hrest).
    + intros H. apply Hroot. now right.
    + intros u' Hu'. rewrite Hh1.
      destruct (String.eqb_spec u' u) as [->|_]; [contradiction|].
      destruct (String.eqb_spec u' ""%string) as [->|_].
      * exfalso. apply Hroot. now right.
      * apply Hkf. now right.
    + exists h'. split; [exact Hloop|]. split.
      * rewrite Hroot', Hh1.
        destruct (String.eqb_spec ""%string u) as [<-|_]; [congruence|]. simpl.
        now destruct (lookup ""%string h).
      * intros q Hq. rewrite (Hrest q Hq), Hh1. cbn [existsb].
        destruct (String.eqb_spec q u) as [->|_]; simpl.
        -- now destruct (existsb (String.eqb u) U).
        -- destruct (String.eqb_spec q ""%string); [contradiction|reflexivity].
Qed.

(** *** The resolved tree *)

Local Abbreviation unreachableIds :=
  (filter (fun u => negb (reachable channels u)) (map fst (build channels))).

Local Abbreviation rootChildren :=
  (fold_left
     (fun rc u => fold_left (fun rc id => set_add id rc) (kids u channels) rc)
     unreachableIds (kids ""%string channels)).

Lemma build_key_in (p : string) :
  In p (map fst (build channels)) <-> kids p channels <> [].
Proof.
  pose proof (lookup_build p channels) as H. split.
  - intros Hin Hnil. rewrite Hnil in H. apply lookup_none_keys in H. contradiction.
  - intros Hne. destruct (kids p channels) as [|c cs] eqn:E; [congruence|].
    apply lookup_some_in in H. apply in_map_iff. now exists (p, c :: cs).
Qed.

Lemma unreachable_in (u : string) :
  In u unreachableIds <-> (kids u channels <> [] /\ reachable channels u = false).
Proof.
  rewrite filter_In, build_key_in. destruct (reachable channels u); simpl; intuition congruence.
Qed.

Lemma default_lookup_build (p : string) :
  match lookup p (build channels) with Some cs => cs | None => [] end = kids p channels.
Proof. rewrite lookup_build. now destruct (kids p channels). Qed.

(** What [generateChannelHierarchy] returns. *)
Lemma generateChannelHierarchy_spec (fuel : nat) :
  (List.length channels < fuel)%nat ->
  exists h,
    generateChannelHierarchy_of fuel channels = Some h /\
    lookup ""%string h = Some rootChildren /\
    forall q, q <> ""%string ->
      lookup q h = if existsb (String.eqb q) unreachableIds then None
                   else lookup q (build channels).
Proof.
  intros Hfuel. unfold generateChannelHierarchy_of. rewrite (reachIds_root fuel Hfuel).
  destruct (flatten_loop (fun u => kids u channels) unreachableIds
              (snd (getChildren ""%string (build channels)))) as (h & Hloop & Hroot & Hrest).
  - apply NoDup_filter, build_keys_nodup.
  - intros H. apply unreachable_in in H. rewrite reachable_root in H.
    destruct H as [_ H]. discriminate H.
  - intros u Hu. apply unreachable_in in Hu. destruct Hu as [Hne Hun].
    rewrite lookup_getChildren.
    destruct (String.eqb_spec u ""%string) as [->|_].
    + rewrite reachable_root in Hun. discriminate Hun.
    + rewrite lookup_build. destruct (kids u channels); [congruence|reflexivity].
  - exists h. split; [exact Hloop|]. split.
    + rewrite Hroot, lookup_getChildren. simpl. now rewrite default_lookup_build.
    + intros q Hq. rewrite (Hrest q Hq), lookup_getChildren.
      destruct (String.eqb_spec q ""%string); [contradiction|reflexivity].
Qed.

Lemma rootChildren_in (c : string) :
  In c rootChildren <-> (In c ids /\ resolved_parent channels c = ""%string).
Proof.
  rewrite root_fold_in, kids_spec. unfold resolved_parent. split.
  - intros [[Hc Hpar]|(u & Hu & Hc)].
    + split; [exact Hc|]. rewrite Hpar. now rewrite reachable_root.
    + apply kids_spec in Hc. destruct Hc as [Hc Hpar].
      apply unreachable_in in Hu. destruct Hu as [_ Hun].
      split; [exact Hc|]. now rewrite Hpar, Hun.
  - intros [Hc Hres].
    destruct (reachable channels (par c)) eqn:Hr; [left; auto|].
    right. exists (par c). split.
    + apply unreachable_in. split; [|exact Hr].
      assert (Hin : In c (kids (par c) channels)) by (apply kids_spec; auto).
      intros Hnil. rewrite Hnil in Hin. destruct Hin.
    + apply kids_spec. auto.
Qed.

Lemma rootChildren_nodup : NoDup rootChildren.
Proof. apply root_fold_nodup, kids_nodup. Qed.

Lemma resolved_level_lt (c : string) :
  In c ids ->
  (resolved_level channels (resolved_parent channels c) < resolved_level channels c)%nat.
Proof.
  intros Hc. pose proof Hc as Hc'. apply in_ids_lookup in Hc'. destruct Hc' as [ch Hch].
  unfold resolved_level at 2. rewrite Hch.
  change (parent_key ch) with (match Some ch with Some c0 => parent_key c0 | None => ""%string end).
  rewrite <- Hch. fold (par c).
  unfold resolved_parent, reachable.
  destruct (level channels (par c)) as [k|] eqn:Hlevel.
  - unfold resolved_level.
    destruct (lookup (par c) channels) as [pch|] eqn:Hp; [|lia].
    apply level_reach in Hlevel.
    destruct k as [|k].
    + apply reach_in_zero in Hlevel. rewrite Hlevel, lookup_root in Hp. discriminate Hp.
    + apply reach_in_step in Hlevel. destruct Hlevel as [_ Hlevel].
      unfold parent_of in Hlevel at 1. rewrite Hp in Hlevel.
      apply level_reach in Hlevel. rewrite Hlevel. lia.
  - unfold resolved_level. rewrite lookup_root. lia.
Qed.

Lemma resolved_level_bound (c : string) :
  In c ids -> (resolved_level channels c <= List.length channels)%nat.
Proof.
  intros Hc. pose proof Hc as Hc'. apply in_ids_lookup in Hc'. destruct Hc' as [ch Hch].
  unfold resolved_level. rewrite Hch.
  destruct (level channels (parent_key ch)) as [k|] eqn:Hlevel.
  - apply level_reach in Hlevel.
    apply (reach_in_bound (S k) c). apply reach_in_step. split; [exact Hc|].
    unfold parent_of. now rewrite Hch.
  - destruct channels; [destruct Hc|simpl; lia].
Qed.

(** The resolved tree lists every channel exactly once. *)
Lemma resolved_order (cmp : string -> string -> Z) (fuel : nat) (h : hierarchy) :
  (List.length channels < fuel)%nat ->
  generateChannelHierarchy_of fuel channels = Some h ->
  exists order, getSortedSubTree fuel cmp h ""%string = Some order /\
                Permutation order ids.
Proof.
  intros Hfuel Hh.
  destruct (generateChannelHierarchy_spec fuel Hfuel) as (h' & Hh' & Hroot & Hrest).
  rewrite Hh in Hh'. injection Hh' as <-.
  apply (getSortedSubTree_root ids (resolved_parent channels) h cmp
           (resolved_level channels) (List.length channels)).
  - exact keys_nodup.
  - intros p cs Hp. destruct (String.eqb_spec p ""%string) as [->|Hne].
    + rewrite Hroot in Hp. injection Hp as <-.
      split; [apply rootChildren_nodup|apply rootChildren_in].
    + rewrite (Hrest p Hne) in Hp.
      destruct (existsb (String.eqb p) unreachableIds) eqn:Hun; [discriminate Hp|].
      pose proof Hp as Hkids. apply lookup_build_kids in Hkids. subst cs.
      split; [apply kids_nodup|]. intros c. rewrite kids_spec.
      assert (Hreach : reachable channels p = true).
      { destruct (reachable channels p) eqn:Hr; [reflexivity|].
        apply mem_not_in in Hun. exfalso. apply Hun. apply unreachable_in.
        split; [|exact Hr]. rewrite lookup_build in Hp.
        destruct (kids p channels); [discriminate Hp|discriminate]. }
      unfold resolved_parent. split.
      * intros [Hc Hpar]. split; [exact Hc|]. now rewrite Hpar, Hreach.
      * intros [Hc Hres]. split; [exact Hc|].
        destruct (reachable channels (par c)); [exact Hres|congruence].
  - intros p Hp c Hc Hres.
    destruct (String.eqb_spec p ""%string) as [->|Hne]; [congruence|].
    rewrite (Hrest p Hne) in Hp. unfold resolved_parent in Hres.
    destruct (reachable channels (par c)) eqn:Hr; [|congruence].
    rewrite <- Hres in Hp. rewrite (lookup_build_child c Hc) in Hp.
    destruct (existsb (String.eqb (par c)) unreachableIds) eqn:Hun; [|discriminate Hp].
    apply mem_in, unreachable_in in Hun. destruct Hun as [_ Hun]. congruence.
  - apply resolved_level_lt.
  - apply resolved_level_bound.
  - intros c Hc. unfold resolved_parent.
    destruct (reachable channels (par c)) eqn:Hr; [|now left].
    destruct (reachable_cases (par c) Hr); auto.
  - exact no_empty_id.
  - unfold resolved_level. rewrite lookup_root. lia.
  - unfold resolved_level. rewrite lookup_root. lia.
Qed.

End Resolve.

(** C4 (as amended). For every channel map in which no channel has the
    empty string (the key of the root) for its id, whatever cycles and
    dangling references its parent links contain: hierarchy resolution
    returns; the children of every parent key that no walk from the root
    arrives at are children of the root, and that key has no entry in
    the tree; the pre-order traversal lists every channel id exactly
    once.  In particular the two channels of a cycle A, B are both
    children of the root. *)
Theorem C4_hierarchy_flattening :
  forall (intl : collation) (meta : metadata) (fuel : nat),
    NoDup (map fst (channels meta)) ->
    ~ In ""%string (map fst (channels meta)) ->
    (List.length (channels meta) < fuel)%nat ->
    (exists (h : hierarchy) (order rootChildren : list string),
       generateChannelHierarchy_of fuel (channels meta) = Some h /\
       orderArray fuel intl meta = Some order /\
       Permutation order (map fst (channels meta)) /\
       NoDup order /\
       lookup ""%string h = Some rootChildren /\
       (forall id,
          In id (map fst (channels meta)) ->
          reachable (channels meta) (parent_of (channels meta) id) = false ->
          In id rootChildren) /\
       (forall p, reachable (channels meta) p = false -> lookup p h = None)) /\
    generateChannelHierarchy_of 3 Sample.cycle = Some [(""%string, ["A"%string; "B"%string])].
Proof.
  intros intl meta fuel Hnd Hroot Hfuel. split; [|reflexivity].
  destruct (generateChannelHierarchy_spec (channels meta) Hnd Hroot fuel Hfuel)
    as (h & Hh & Hrc & Hrest).
  destruct (resolved_order (channels meta) Hnd Hroot (compare_channels intl meta) fuel h
              Hfuel Hh) as (order & Horder & Hperm).
  exists h, order. eexists. split; [exact Hh|]. split.
  { unfold orderArray. rewrite Hh. exact Horder. }
  split; [exact Hperm|]. split.
  { apply (Permutation_NoDup (l := map fst (channels meta))); [now symmetry|exact Hnd]. }
  split; [exact Hrc|]. split.
  - intros id Hid Hun. apply (rootChildren_in (channels meta) Hnd Hroot).
    split; [exact Hid|]. unfold resolved_parent. now rewrite Hun.
  - intros p Hp.
    destruct (String.eqb_spec p ""%string) as [->|Hne].
    + rewrite (reachable_root (channels meta) Hroot) in Hp. discriminate Hp.
    + rewrite (Hrest p Hne).
      destruct (existsb (String.eqb p) _) eqn:Hun; [reflexivity|].
      rewrite lookup_build.
      destruct (kids p (channels meta)) as [|c cs] eqn:Hk; [reflexivity|].
      exfalso. apply mem_not_in in Hun. apply Hun.
      apply (unreachable_in (channels meta)). split; [rewrite Hk; discriminate|exact Hp].
Qed.

Lemma C4_witness :
  exists (h : hierarchy) (order rootChildren : list string),
    generateChannelHierarchy_of 3 (channels Sample.cycle_meta) = Some h /\
    orderArray 3 Sample.plain_collation Sample.cycle_meta = Some order /\
    Permutation order (map fst (channels Sample.cycle_meta)) /\
    NoDup order /\
    lookup ""%string h = Some rootChildren /\
    (forall id,
       In id (map fst (channels Sample.cycle_meta)) ->
       reachable (channels Sample.cycle_meta) (parent_of (channels Sample.cycle_meta) id)
         = false ->
       In id rootChildren) /\
    (forall p, reachable (channels Sample.cycle_meta) p = false -> lookup p h = None).
Proof.
  apply (C4_hierarchy_flattening Sample.plain_collation Sample.cycle_meta 3).
  - simpl. constructor; [intros [H|[]]; discriminate H|].
    constructor; [intros []|constructor].
  - simpl. intros [H|[H|[]]]; discriminate H.
  - simpl. lia.
Defined.

Lemma reachIds_nameless (fuel : nat) (U : list string) :
  reachIds fuel [(""%string, [""%string])] ""%string U = None.
Proof.
  revert U. induction fuel as [|fuel IH]; intros U; [reflexivity|].
  cbn [reachIds lookup fold_opt]. simpl. now rewrite IH.
Qed.

(** The claim as stated fails: for the channel map whose only channel has
    the empty string for its id, the walk from the root visits the root
    again and again, and hierarchy resolution never returns. *)
Lemma C4_counterexample :
  ~ exists (fuel : nat) (h : hierarchy),
      generateChannelHierarchy_of fuel Sample.nameless = Some h.
Proof.
  intros (fuel & h & H). unfold generateChannelHierarchy_of in H.
  change (build Sample.nameless) with [(""%string, [""%string])] in H.
  rewrite reachIds_nameless in H. discriminate H.
Qed.

(** ** The renderer: escaping and the no-embed wrapper *)

Import Regex.

Lemma all_chars_app (p : ascii -> bool) (s t : string) :
  Inv.all_chars p (s ++ t)%string = Inv.all_chars p s && Inv.all_chars p t.
Proof.
  induction s as [|c s IH]; simpl; [reflexivity|].
  rewrite IH. apply andb_assoc.
Qed.

Lemma all_chars_impl (p q : ascii -> bool) (s : string) :
  (forall c, p c = true -> q c = true) ->
  Inv.all_chars p s = true -> Inv.all_chars q s = true.
Proof.
  intros Hpq. induction s as [|c s IH]; simpl; [reflexivity|].
  intros H. apply andb_true_iff in H. destruct H as [Hc Hs].
  apply andb_true_iff. split; [apply Hpq, Hc | apply IH, Hs].
Qed.

Lemma all_chars_map_chars (p : ascii -> bool) (g : ascii -> string) (s : string) :
  (forall c, Inv.all_chars p (g c) = true) ->
  Inv.all_chars p (Inv.map_chars g s) = true.
Proof.
  intros Hg. induction s as [|c s IH]; simpl; [reflexivity|].
  rewrite all_chars_app, Hg, IH. reflexivity.
Qed.

(** A global replacement by a one-character class rewrites the text
    character by character. *)
Lemma replace_from_chr (p : ascii -> bool) (f : string -> captures -> string)
  (fuel : nat) (prev : option ascii) (s : string) :
  (String.length s < fuel)%nat ->
  replace_from fuel (Chr p) f prev s
  = Inv.map_chars (fun c => if p c then f (String c EmptyString) [] else String c EmptyString) s.
Proof.
  revert prev s. induction fuel as [|fuel IH]; intros prev s Hlen; [lia|].
  destruct s as [|c s]; [reflexivity|].
  simpl in Hlen. cbn [replace_from rmatch Inv.map_chars].
  destruct (p c) eqn:Hp.
  - unfold accept. cbn [String.length].
    replace (S (String.length s) - String.length s)%nat with 1%nat by lia.
    cbn [Nat.eqb String.substring last_char].
    replace (String.substring 0 0 s) with EmptyString by (destruct s; reflexivity).
    rewrite IH by lia. reflexivity.
  - rewrite IH by lia. reflexivity.
Qed.

(** A global replacement whose expression starts with a character that
    the text does not hold leaves the text as it is. *)
Lemma replace_from_no_head (p : ascii -> bool) (r : regex)
  (f : string -> captures -> string) (fuel : nat) (prev : option ascii) (s : string) :
  Inv.all_chars (fun c => negb (p c)) s = true ->
  replace_from fuel (Seq (Chr p) r) f prev s = s.
Proof.
  revert prev s. induction fuel as [|fuel IH]; intros prev s Hs; [reflexivity|].
  destruct s as [|c s]; [reflexivity|].
  simpl in Hs. apply andb_true_iff in Hs. destruct Hs as [Hc Hs].
  apply negb_true_iff in Hc.
  cbn [replace_from rmatch]. rewrite Hc, (IH _ _ Hs). reflexivity.
Qed.

Lemma escapeHTML_chars (html : string) :
  dom.escapeHTML html = Inv.map_chars dom.HTML_ENTITY_MAP html.
Proof.
  unfold dom.escapeHTML, replace, dom.HTML_ENTITY_REGEX.
  rewrite replace_from_chr by lia.
  induction html as [|c html IH]; simpl; [reflexivity|].
  rewrite IH. f_equal.
  unfold dom.is_html_special, dom.HTML_ENTITY_MAP.
  destruct (c =? "&")%char, (c =? "<")%char, (c =? ">")%char,
    (c =? dom.double_quote)%char, (c =? "'")%char; reflexivity.
Qed.

Lemma HTML_ENTITY_MAP_markup_free (c : ascii) :
  Inv.markup_free (dom.HTML_ENTITY_MAP c) = true.
Proof.
  destruct c as [[] [] [] [] [] [] [] []]; vm_compute; reflexivity.
Qed.

Lemma escapeHTML_markup_free (html : string) :
  Inv.markup_free (dom.escapeHTML html) = true.
Proof.
  rewrite escapeHTML_chars. apply all_chars_map_chars.
  exact HTML_ENTITY_MAP_markup_free.
Qed.

Lemma unwrapNoEmbed_markup_free (s : string) :
  Inv.markup_free s = true -> discord.unwrapNoEmbed s = s.
Proof.
  intros Hs. unfold discord.unwrapNoEmbed, replace, discord.formatUrlNoEmbed.
  apply replace_from_no_head.
  revert Hs. unfold Inv.markup_free. apply all_chars_impl.
  intros c Hc. unfold Inv.is_markup in Hc. unfold is_char.
  rewrite Ascii.eqb_sym.
  destruct (c =? "<")%char; [discriminate Hc | reflexivity].
Qed.

(** Where the text holds no opening angle bracket there is nothing to
    unwrap, and the code and the pipeline that escapes first agree. *)
Lemma processMessageContents_escaped_first_agrees (env : discord.environment)
  (contents : string) :
  Inv.all_chars (fun c => negb (is_char "<" c)) contents = true ->
  discord.processMessageContents env contents
  = discord.processMessageContents_escaped_first env contents.
Proof.
  intros Hs.
  unfold discord.processMessageContents, discord.processMessageContents_escaped_first.
  rewrite (unwrapNoEmbed_markup_free (dom.escapeHTML contents))
    by apply escapeHTML_markup_free.
  assert (Hraw : discord.unwrapNoEmbed contents = contents).
  { unfold discord.unwrapNoEmbed, replace, discord.formatUrlNoEmbed.
    apply replace_from_no_head, Hs. }
  rewrite Hraw. reflexivity.
Qed.

(** C8 (as amended).  In [processMessageContents] the wrapper of a URL
    that asks for no embed is removed from the raw contents, and the
    result is escaped; every other transform comes after the escaping:
    the formatting chain, when it is enabled, and the links, mentions
    and emoji work on the escaped text, which is the unwrapped contents
    with each of the five special characters replaced by its entity and
    so holds no angle bracket and no quote.  On a text that is already
    escaped the removal of the wrapper would change nothing. *)
Theorem C8_escaping_follows_unwrapping (env : discord.environment) (contents : string) :
  let escaped := dom.escapeHTML (discord.unwrapNoEmbed contents) in
  discord.processMessageContents env contents
  = ("<p>"
     ++ discord.applyLinks env
          (if discord.enableFormatting env then discord.applyFormatting escaped
           else escaped)
     ++ "</p>")%string
  /\ escaped = Inv.map_chars dom.HTML_ENTITY_MAP (discord.unwrapNoEmbed contents)
  /\ Inv.markup_free escaped = true
  /\ discord.unwrapNoEmbed (dom.escapeHTML contents) = dom.escapeHTML contents.
Proof.
  intros escaped. split; [reflexivity|].
  split; [apply escapeHTML_chars|].
  split; [apply escapeHTML_markup_free|].
  apply unwrapNoEmbed_markup_free, escapeHTML_markup_free.
Qed.

(** C8, the claim as worded fails.  On a URL in angle brackets the code
    removes the brackets before it escapes, and the page shows the bare
    link; had the text been escaped first, the brackets would have
    become entities, nothing would have been unwrapped, and the closing
    entity would have run into the link. *)
Theorem C8_counterexample :
  discord.unwrapNoEmbed "<http://a.b>" = "http://a.b"%string
  /\ discord.processMessageContents Sample.render_env "<http://a.b>"
     = "<p><a href='http://a.b' target='_blank' rel='noreferrer'>http://a.b</a></p>"%string
  /\ discord.processMessageContents_escaped_first Sample.render_env "<http://a.b>"
     = "<p>&lt;<a href='http://a.b&gt' target='_blank' rel='noreferrer'>http://a.b&gt</a>;</p>"%string
  /\ discord.processMessageContents Sample.render_env "<http://a.b>"
     <> discord.processMessageContents_escaped_first Sample.render_env "<http://a.b>".
Proof.
  split; [vm_compute; reflexivity|].
  split; [vm_compute; reflexivity|].
  split; [vm_compute; reflexivity|].
  vm_compute. discriminate.
Qed.

(** ** The export: one message, one line *)

Lemma all_chars_concat (p : ascii -> bool) (sep : string) (l : list string) :
  Inv.all_chars p sep = true ->
  Forall (fun s => Inv.all_chars p s = true) l ->
  Inv.all_chars p (String.concat sep l) = true.
Proof.
  intros Hsep Hl. induction Hl as [|s l Hs Hl IH]; [reflexivity|].
  destruct l as [|s' l]; [exact Hs|].
  change (String.concat sep (s :: s' :: l))
    with (s ++ sep ++ String.concat sep (s' :: l))%string.
  rewrite !all_chars_app, Hs, Hsep, IH. reflexivity.
Qed.

Lemma json_escape_char_printable (c : ascii) :
  Shape.printable (Py.json_escape_char c) = true.
Proof.
  destruct c as [[] [] [] [] [] [] [] []]; vm_compute; reflexivity.
Qed.

Lemma json_string_printable (s : string) : Shape.printable (Py.json_string s) = true.
Proof.
  unfold Py.json_string, Shape.printable. rewrite !all_chars_app.
  assert (H : Inv.all_chars (fun c => (32 <=? nat_of_ascii c)%nat) (Py.json_escape s) = true).
  { induction s as [|c s IH]; [reflexivity|].
    cbn [Py.json_escape]. rewrite all_chars_app, IH.
    pose proof (json_escape_char_printable c) as Hc.
    unfold Shape.printable in Hc. rewrite Hc. reflexivity. }
  rewrite H. reflexivity.
Qed.

Lemma string_of_uint_printable (d : Decimal.uint) :
  Shape.printable (NilEmpty.string_of_uint d) = true.
Proof.
  induction d; simpl; try reflexivity; exact IHd.
Qed.

Lemma str_int_printable (z : Z) : Shape.printable (Py.str_int z) = true.
Proof.
  unfold Py.str_int.
  assert (H : forall d, Shape.printable (NilZero.string_of_uint d) = true).
  { intros d. destruct d; try reflexivity; apply (string_of_uint_printable (_ d)). }
  destruct (Z.to_int z) as [d|d]; simpl; [apply H|].
  unfold Shape.printable. simpl. apply H.
Qed.

(** [json.dumps] writes no control character: inside a string each one
    is escaped, and the separators hold none. *)
Lemma json_dumps_printable (v : Py.value) : Shape.printable (Py.json_dumps v) = true.
Proof.
  revert v. fix IH 1. intros v. destruct v as [ |b|z|s|l|d].
  - reflexivity.
  - destruct b; reflexivity.
  - apply str_int_printable.
  - apply json_string_printable.
  - cbn [Py.json_dumps]. unfold Shape.printable. rewrite !all_chars_app.
    apply andb_true_iff. split; [reflexivity|].
    apply andb_true_iff. split; [|reflexivity].
    apply all_chars_concat; [reflexivity|].
    induction l as [|x l IHl]; constructor; [apply IH|exact IHl].
  - cbn [Py.json_dumps]. unfold Shape.printable. rewrite !all_chars_app.
    apply andb_true_iff. split; [reflexivity|].
    apply andb_true_iff. split; [|reflexivity].
    apply all_chars_concat; [reflexivity|].
    induction d as [|[k x] d IHd]; constructor; [|exact IHd].
    cbn [fst snd]. rewrite !all_chars_app.
    apply andb_true_iff. split; [apply json_string_printable|].
    apply andb_true_iff. split; [reflexivity|apply IH].
Qed.

(** ** From the lines of the export to the lines the page parses *)

Lemma string_app_assoc (a b c : string) : ((a ++ b) ++ c = a ++ b ++ c)%string.
Proof. induction a as [|x a IH]; simpl; [reflexivity|]. rewrite IH. reflexivity. Qed.

Lemma string_app_nil_r (a : string) : (a ++ "")%string = a.
Proof. induction a as [|x a IH]; simpl; [reflexivity|]. rewrite IH. reflexivity. Qed.












Lemma json_dumps_dict_line (d : list (string * Py.value)) :
  Shape.json_line (Py.json_dumps (Py.Dict d)).
Proof.
  pose proof (json_dumps_printable (Py.Dict d)) as H.
  cbn [Py.json_dumps] in *.
  set (t := String.concat ", " _) in *.
  exists t. split; [reflexivity|].
  unfold Shape.printable in *. rewrite !all_chars_app in H.
  apply andb_true_iff in H. destruct H as [_ H].
  apply andb_true_iff in H. destruct H as [H _]. exact H.
Qed.

(** Every line of the export is one JSON object on a single line: it
    stands in braces and holds no control character, so no line feed and
    no carriage return, whatever the texts of the message hold. *)
Theorem process_message_json_line :
  forall (db : database) (message_data : message_row * nat * nat),
    Shape.json_line (Exporter.process_message db message_data).
Proof.
  intros db [[m idx] total]. apply json_dumps_dict_line.
Qed.



(** ** The optional fields of a message *)

Lemma str_int_nonempty (z : Z) : Py.str_int z <> ""%string.
Proof.
  unfold Py.str_int.
  assert (H : forall p, NilZero.string_of_uint (Pos.to_uint p) <> ""%string).
  { intros p. pose proof (DecimalPos.Unsigned.to_uint_nonnil p) as Hp.
    destruct (Pos.to_uint p); try congruence; discriminate. }
  destruct z as [|p|p]; simpl; [discriminate|apply H|discriminate].
Qed.

(** Besides the four fields every message has, the document holds [a],
    [e] and [re] exactly when the message has attachments, embeds and
    reactions, with all of them in the order of the tables; [te] when
    the first row of edit timestamps of the message holds a timestamp
    other than 0; and [r] whenever the message has a row in the table of
    replies, with the decimal text of the id replied to. *)
Theorem message_obj_optional_fields :
  forall (db : database) (m : message_row),
    let obj := Exporter.message_obj db m in
    let id := message_id m in
    Py.dict_get "id" obj = Some (Py.Str (Py.str_int id)) /\
    Py.dict_get "c" obj = Some (Py.Str (Py.str_int (msg_channel_id m))) /\
    Py.dict_get "u" obj = Some (Py.Str (Py.str_int (sender_id m))) /\
    Py.dict_get "t" obj = Some (Py.Int (timestamp m)) /\
    Py.dict_get "a" obj
    = match Exporter.attachment_rows db id with
      | [] => None
      | rows => Some (Py.List (map Exporter.attachment_obj rows))
      end /\
    Py.dict_get "e" obj
    = match Exporter.embed_rows db id with
      | [] => None
      | rows => Some (Py.List (map Py.Str rows))
      end /\
    Py.dict_get "re" obj
    = match List.filter (fun r => reaction_message_id r =? id) (message_reactions db) with
      | [] => None
      | rows => Some (Py.List (map Exporter.reaction_obj rows))
      end /\
    Py.dict_get "te" obj
    = match List.filter (fun r => fst r =? id) (message_edit_timestamps db) with
      | [] => None
      | row :: _ => if snd row =? 0 then None else Some (Py.Int (snd row))
      end /\
    Py.dict_get "r" obj
    = match List.filter (fun r => fst r =? id) (message_replied_to db) with
      | [] => None
      | row :: _ => Some (Py.Str (Py.str_int (snd row)))
      end.
Proof.
  intros db m obj id. subst obj id. unfold Exporter.message_obj.
  rewrite !dict_get_set_if. cbn [String.eqb Ascii.eqb Bool.eqb andb Py.dict_get].
  rewrite ?andb_false_r, ?andb_true_r.
  repeat split.
  - unfold Exporter.get_message_attachments. rewrite truthy_nonempty_or_none.
    destruct (Exporter.attachment_rows db (message_id m)); reflexivity.
  - unfold Exporter.get_message_embeds. rewrite truthy_nonempty_or_none.
    destruct (Exporter.embed_rows db (message_id m)); reflexivity.
  - unfold Exporter.get_message_reactions. rewrite truthy_nonempty_or_none.
    destruct (List.filter _ (message_reactions db)); reflexivity.
  - unfold Exporter.get_message_edit_timestamp.
    destruct (List.filter _ (message_edit_timestamps db)) as [|row rows]; [reflexivity|].
    simpl. destruct (snd row =? 0); reflexivity.
  - unfold Exporter.get_message_reply.
    destruct (List.filter _ (message_replied_to db)) as [|row rows]; [reflexivity|].
    simpl. destruct (String.eqb_spec (Py.str_int (snd row)) ""%string) as [E|_];
      [destruct (str_int_nonempty _ E)|reflexivity].
Qed.

(** The document of an attachment holds the URL and the name; it holds
    the width and the height together or not at all, and it holds them
    exactly when both are present in the row and other than 0. *)
Theorem attachment_obj_size :
  forall a : attachment_row,
  exists d,
    Exporter.attachment_obj a = Py.Dict d /\
    Py.dict_get "url" d = Some (Py.Str (download_url a)) /\
    Py.dict_get "name" d = Some (Py.Str (attachment_name a)) /\
    Py.dict_has "width" d = Py.dict_has "height" d /\
    (Py.dict_has "width" d = true
     <-> exists w h, width a = Some w /\ height a = Some h /\ w <> 0 /\ h <> 0) /\
    (forall w h, width a = Some w -> height a = Some h -> w <> 0 -> h <> 0 ->
       Py.dict_get "width" d = Some (Py.Int w) /\ Py.dict_get "height" d = Some (Py.Int h)).
Proof.
  intros a. unfold Exporter.attachment_obj, Py.dict_has.
  destruct (width a) as [w|], (height a) as [h|]; simpl.
  - destruct (Z.eqb_spec w 0) as [->|Hw], (Z.eqb_spec h 0) as [->|Hh]; simpl.
    all: eexists; split; [reflexivity|]; simpl; repeat split; try discriminate.
    all: try congruence.
    all: try (intros (w' & h' & Ew & Eh & Hw' & Hh'); congruence).
    intros _. exists w, h. auto.
  - rewrite andb_false_r.
    eexists; split; [reflexivity|]; simpl; repeat split; try discriminate.
    intros (w' & h' & Ew & Eh & _). discriminate Eh.
  - eexists; split; [reflexivity|]; simpl; repeat split; try discriminate.
    intros (w' & h' & Ew & _). discriminate Ew.
  - eexists; split; [reflexivity|]; simpl; repeat split; try discriminate.
    intros (w' & h' & Ew & _). discriminate Ew.
Qed.

(** ** [loadData]: the messages by channel and id *)

Lemma lookup_assign {V : Type} (k k' : string) (v : V) (l : list (string * V)) :
  lookup k (assign k' v l) = if (k' =? k)%string then Some v else lookup k l.
Proof.
  induction l as [|[k0 v0] l IH]; simpl.
  - destruct (k' =? k)%string; reflexivity.
  - destruct (String.eqb_spec k0 k') as [->|Hne]; simpl.
    + destruct (k' =? k)%string; reflexivity.
    + rewrite IH. destruct (String.eqb_spec k0 k) as [->|Hne'].
      * destruct (String.eqb_spec k' k) as [->|_]; [congruence|reflexivity].
      * reflexivity.
Qed.



Lemma load_messages_snoc (lines : list bootstrap.parsed) (line : bootstrap.parsed) :
  bootstrap.load_messages (lines ++ [line])
  = bootstrap.add_message (bootstrap.load_messages lines) line.
Proof. unfold bootstrap.load_messages. rewrite fold_left_app. reflexivity. Qed.


(** The message of a channel and an id, in the object [loadData] builds. *)
Lemma load_messages_entry (lines : list bootstrap.parsed) (c id : string) :
  match lookup c (bootstrap.load_messages lines) with
  | Some channelMessages => lookup id channelMessages
  | None => None
  end
  = option_map bootstrap.parsed_message
      (find (fun line => (bootstrap.parsed_c line =? c)%string
                         && (bootstrap.parsed_id line =? id)%string)
         (rev lines)).
Proof.
  induction lines as [|line lines IH] using rev_ind; [reflexivity|].
  rewrite load_messages_snoc, rev_app_distr. simpl.
  unfold bootstrap.add_message. rewrite lookup_assign.
  destruct (String.eqb_spec (bootstrap.parsed_c line) c) as [Hc|Hc]; simpl.
  - rewrite lookup_assign.
    destruct (bootstrap.parsed_id line =? id)%string; [reflexivity|].
    rewrite <- IH, Hc.
    destruct (lookup c (bootstrap.load_messages lines)); reflexivity.
  - exact IH.
Qed.







(** In the object that [loadData] hands to the store, the messages of a
    channel are the lines with this channel, under their ids; of two
    lines with the same channel and id the later one stays, and an id
    that no line of the channel has is absent. *)
Theorem loadData_messages_by_channel :
  forall (lines : list bootstrap.parsed) (s : state) (c id : string),
    loadedFileData s = Object (bootstrap.load_messages lines) ->
    exists channelMessages,
      getMessages s c = Return channelMessages /\
      lookup id channelMessages
      = option_map bootstrap.parsed_message
          (find (fun line => (bootstrap.parsed_c line =? c)%string
                             && (bootstrap.parsed_id line =? id)%string)
             (rev lines)).
Proof.
  intros lines s c id Hs. unfold getMessages. rewrite Hs.
  eexists. split; [reflexivity|].
  rewrite <- load_messages_entry.
  destruct (lookup c (bootstrap.load_messages lines)); reflexivity.
Qed.

Lemma loadData_messages_by_channel_witness :
  exists channelMessages,
    getMessages
      (snd (uploadFile initial_state (Object Sample.meta)
              (Object (bootstrap.load_messages Sample.lines))))
      "c1" = Return channelMessages /\
    lookup "101" channelMessages
    = option_map bootstrap.parsed_message
        (find (fun line => (bootstrap.parsed_c line =? "c1")%string
                           && (bootstrap.parsed_id line =? "101")%string)
           (rev Sample.lines)).
Proof.
  apply (loadData_messages_by_channel Sample.lines
           (snd (uploadFile initial_state (Object Sample.meta)
                   (Object (bootstrap.load_messages Sample.lines))))
           "c1" "101").
  reflexivity.
Defined.



(** ** [processLines]: lines out of chunks *)

Lemma string_length_app (a b : string) :
  String.length (a ++ b) = (String.length a + String.length b)%nat.
Proof. induction a as [|c a IH]; simpl; [reflexivity|]. rewrite IH. reflexivity. Qed.

Lemma index_skip (d p r : string) :
  String.index (String.length d) p (d ++ r)
  = option_map (Nat.add (String.length d)) (String.index 0 p r).
Proof.
  induction d as [|c d IH]; simpl.
  - destruct (String.index 0 p r); reflexivity.
  - rewrite IH. destruct (String.index 0 p r); reflexivity.
Qed.

Lemma index_no_feed (r : string) :
  Shape.no_feed r = true -> String.index 0 bootstrap.newline r = None.
Proof.
  induction r as [|c r IH]; [reflexivity|].
  unfold Shape.no_feed. cbn [Inv.all_chars]. intros H.
  apply andb_true_iff in H. destruct H as [Hc Hr].
  apply negb_true_iff, Ascii.eqb_neq in Hc.
  cbn [String.index bootstrap.newline String.prefix].
  destruct (ascii_dec bootstrap.line_feed c) as [E|_]; [congruence|].
  fold bootstrap.newline. rewrite (IH Hr). reflexivity.
Qed.

Lemma index_first_feed (a b : string) :
  Shape.no_feed a = true ->
  String.index 0 bootstrap.newline (a ++ bootstrap.newline ++ b) = Some (String.length a).
Proof.
  induction a as [|c a IH].
  - intros _. cbn. destruct (ascii_dec bootstrap.line_feed bootstrap.line_feed); [|congruence].
    destruct b; reflexivity.
  - unfold Shape.no_feed. cbn [Inv.all_chars]. intros H.
    apply andb_true_iff in H. destruct H as [Hc Ha].
    apply negb_true_iff, Ascii.eqb_neq in Hc.
    cbn [String.append String.index bootstrap.newline String.prefix String.length].
    destruct (ascii_dec bootstrap.line_feed c) as [E|_]; [congruence|].
    fold bootstrap.newline.
    change (String bootstrap.line_feed b) with (bootstrap.newline ++ b)%string.
    rewrite (IH Ha). reflexivity.
Qed.

Lemma substring_middle (d a x : string) :
  String.substring (String.length d) (String.length a) (d ++ a ++ x) = a.
Proof.
  induction d as [|c d IH]; simpl; [|exact IH].
  induction a as [|c a IHa]; simpl; [destruct x; reflexivity|].
  rewrite IHa. reflexivity.
Qed.

(** The loop of [processLines] over a body that is a sequence of
    complete lines followed by a rest without line feed. *)
Lemma scan_lines (lines : list string) :
  forall (rest done : string) (calls : list string) (fuel : nat),
    Forall (fun line => Shape.no_feed line = true) lines ->
    Shape.no_feed rest = true ->
    (List.length lines < fuel)%nat ->
    bootstrap.scan fuel (done ++ Shape.text_of_lines lines ++ rest) (String.length done) calls
    = (calls ++ lines,
       (String.length done + String.length (Shape.text_of_lines lines))%nat).
Proof.
  induction lines as [|line lines IH]; intros rest done calls fuel Hl Hr Hfuel.
  - destruct fuel as [|fuel]; [simpl in Hfuel; lia|].
    cbn [bootstrap.scan Shape.text_of_lines String.append].
    rewrite index_skip, (index_no_feed _ Hr). simpl.
    rewrite app_nil_r, Nat.add_0_r. reflexivity.
  - destruct fuel as [|fuel]; [simpl in Hfuel; lia|].
    inversion Hl as [|? ? Hline Hlines]; subst.
    cbn [bootstrap.scan Shape.text_of_lines].
    rewrite !string_app_assoc.
    rewrite index_skip, (index_first_feed _ _ Hline). cbn [option_map].
    replace (String.length done + String.length line - String.length done)%nat
      with (String.length line) by lia.
    rewrite substring_middle.
    replace (S (String.length done + String.length line))
      with (String.length (done ++ line ++ bootstrap.newline)).
    2:{ rewrite !string_length_app. simpl. lia. }
    replace (done ++ line ++ bootstrap.newline ++ Shape.text_of_lines lines ++ rest)%string
      with ((done ++ line ++ bootstrap.newline) ++ Shape.text_of_lines lines ++ rest)%string
      by (rewrite !string_app_assoc; reflexivity).
    rewrite IH; [|assumption|assumption|simpl in Hfuel; lia].
    rewrite <- app_assoc. f_equal.
    rewrite !string_length_app. simpl. lia.
Qed.

Lemma cut_lines_text (s : string) :
  s = (Shape.text_of_lines (fst (Shape.cut_lines s)) ++ snd (Shape.cut_lines s))%string /\
  Forall (fun line => Shape.no_feed line = true) (fst (Shape.cut_lines s)) /\
  Shape.no_feed (snd (Shape.cut_lines s)) = true /\
  (List.length (fst (Shape.cut_lines s)) <= String.length s)%nat.
Proof.
  induction s as [|c s IH]; [repeat split; constructor|].
  cbn [Shape.cut_lines].
  destruct (Shape.cut_lines s) as [lines rest]. cbn [fst snd] in IH.
  destruct IH as (Hs & Hl & Hr & Hlen).
  destruct (Ascii.eqb_spec c bootstrap.line_feed) as [->|Hc].
  - cbn [fst snd Shape.text_of_lines]. repeat split.
    + cbn. f_equal. exact Hs.
    + constructor; [reflexivity|exact Hl].
    + exact Hr.
    + simpl. lia.
  - apply Ascii.eqb_neq in Hc.
    destruct lines as [|line lines]; cbn [fst snd Shape.text_of_lines].
    + repeat split.
      * cbn. f_equal. exact Hs.
      * constructor.
      * unfold Shape.no_feed in *. cbn [Inv.all_chars]. rewrite Hc, Hr. reflexivity.
      * simpl. lia.
    + apply Forall_cons_iff in Hl. destruct Hl as [Hline Hlines]. repeat split.
      * cbn. f_equal. exact Hs.
      * constructor; [|exact Hlines].
        unfold Shape.no_feed in *. cbn [Inv.all_chars]. rewrite Hc, Hline. reflexivity.
      * exact Hr.
      * simpl in *. lia.
Qed.

(** Cutting a text in two parts: the rest of the first part goes in
    front of the second. *)
Lemma cut_lines_app (x y : string) :
  Shape.cut_lines (x ++ y)
  = (fst (Shape.cut_lines x) ++ fst (Shape.cut_lines (snd (Shape.cut_lines x) ++ y)),
     snd (Shape.cut_lines (snd (Shape.cut_lines x) ++ y))).
Proof.
  induction x as [|c x IH].
  - simpl. destruct (Shape.cut_lines y); reflexivity.
  - cbn [String.append Shape.cut_lines]. rewrite IH.
    destruct (Shape.cut_lines x) as [lines rest]. cbn [fst snd].
    destruct (c =? bootstrap.line_feed)%char eqn:Ec; cbn [fst snd].
    + destruct (Shape.cut_lines (rest ++ y)); reflexivity.
    + destruct lines as [|line lines]; cbn [fst snd app String.append Shape.cut_lines].
      * rewrite Ec. destruct (Shape.cut_lines (rest ++ y)) as [[|l2 ls2] r2]; reflexivity.
      * destruct (Shape.cut_lines (rest ++ y)); reflexivity.
Qed.

Lemma substring_end (d a : string) :
  String.substring (String.length d) (String.length a) (d ++ a) = a.
Proof.
  rewrite <- (string_app_nil_r a) at 2. rewrite substring_middle.
  reflexivity.
Qed.

Lemma process_chunk_cut (body chunk : string) (calls : list string) :
  bootstrap.process_chunk (body, calls) chunk
  = (snd (Shape.cut_lines (body ++ chunk)),
     (calls ++ fst (Shape.cut_lines (body ++ chunk)))%list).
Proof.
  unfold bootstrap.process_chunk. cbn [fst snd].
  destruct (cut_lines_text (body ++ chunk)) as (Hs & Hl & Hr & Hlen).
  set (lines := fst (Shape.cut_lines (body ++ chunk))) in *.
  set (rest := snd (Shape.cut_lines (body ++ chunk))) in *.
  rewrite Hs at 2.
  change (Shape.text_of_lines lines ++ rest)%string
    with ("" ++ Shape.text_of_lines lines ++ rest)%string.
  change 0%nat with (String.length "").
  rewrite scan_lines; [|assumption|assumption|lia].
  cbn [String.length Nat.add]. f_equal.
  rewrite Hs at 1 2. rewrite string_length_app.
  replace (String.length (Shape.text_of_lines lines) + String.length rest
           - String.length (Shape.text_of_lines lines))%nat
    with (String.length rest) by lia.
  apply substring_end.
Qed.

Lemma concat_empty_cons (chunk : string) (chunks : list string) :
  String.concat "" (chunk :: chunks) = (chunk ++ String.concat "" chunks)%string.
Proof.
  destruct chunks as [|c cs]; simpl; [|reflexivity].
  symmetry. apply string_app_nil_r.
Qed.

Lemma cut_lines_no_feed (r : string) :
  Shape.no_feed r = true -> Shape.cut_lines r = ([], r).
Proof.
  induction r as [|c r IH]; [reflexivity|].
  unfold Shape.no_feed. cbn [Inv.all_chars]. intros H.
  apply andb_true_iff in H. destruct H as [Hc Hr].
  apply negb_true_iff in Hc. cbn [Shape.cut_lines]. rewrite (IH Hr), Hc. reflexivity.
Qed.

Lemma process_chunks_cut (chunks : list string) :
  forall (body : string) (calls : list string),
    Shape.no_feed body = true ->
    fold_left bootstrap.process_chunk chunks (body, calls)
    = (snd (Shape.cut_lines (body ++ String.concat "" chunks)),
       (calls ++ fst (Shape.cut_lines (body ++ String.concat "" chunks)))%list).
Proof.
  induction chunks as [|chunk chunks IH]; intros body calls Hbody.
  - simpl. rewrite string_app_nil_r, (cut_lines_no_feed _ Hbody). simpl.
    rewrite app_nil_r. reflexivity.
  - cbn [fold_left]. rewrite process_chunk_cut, concat_empty_cons.
    destruct (cut_lines_text (body ++ chunk)) as (_ & _ & Hr & _).
    rewrite (IH _ _ Hr), <- string_app_assoc, (cut_lines_app (body ++ chunk)).
    cbn [fst snd]. rewrite app_assoc. reflexivity.
Qed.

Lemma split_cut_lines (s : string) :
  bootstrap.split s = (fst (Shape.cut_lines s) ++ [snd (Shape.cut_lines s)])%list.
Proof.
  induction s as [|c s IH]; [reflexivity|].
  cbn [bootstrap.split Shape.cut_lines]. rewrite IH.
  destruct (Shape.cut_lines s) as [[|line lines] rest];
    destruct (c =? bootstrap.line_feed)%char; reflexivity.
Qed.

(** [processLines] hands the callback the lines of the whole text,
    whatever the chunks the text arrives in: the pieces between the line
    feeds, in order, without the piece after the last line feed when
    that piece is empty.  Hence two sequences of chunks of the same text
    lead to the same calls. *)
Theorem processLines_lines :
  forall chunks : list string,
    (exists lines rest,
       bootstrap.split (String.concat "" chunks) = (lines ++ [rest])%list /\
       bootstrap.processLines chunks
       = if (rest =? "")%string then lines else (lines ++ [rest])%list) /\
    (forall chunks',
       String.concat "" chunks' = String.concat "" chunks ->
       bootstrap.processLines chunks' = bootstrap.processLines chunks).
Proof.
  assert (H : forall chunks,
            bootstrap.processLines chunks
            = if (snd (Shape.cut_lines (String.concat "" chunks)) =? "")%string
              then fst (Shape.cut_lines (String.concat "" chunks))
              else (fst (Shape.cut_lines (String.concat "" chunks))
                    ++ [snd (Shape.cut_lines (String.concat "" chunks))])%list).
  { intros chunks. unfold bootstrap.processLines.
    rewrite process_chunks_cut by reflexivity. reflexivity. }
  intros chunks. split.
  - exists (fst (Shape.cut_lines (String.concat "" chunks))),
           (snd (Shape.cut_lines (String.concat "" chunks))).
    split; [apply split_cut_lines|apply H].
  - intros chunks' E. rewrite !H, E. reflexivity.
Qed.

(** ** The comparator of the message list as an order *)

Section SortOrder.

Context {A : Type}.
Variable cmp : A -> A -> Z.

Local Abbreviation le := (fun a b => cmp a b <= 0).

Hypothesis cmp_total : forall a b, cmp a b <= 0 \/ cmp b a <= 0.
Hypothesis cmp_trans : forall a b c, cmp a b <= 0 -> cmp b c <= 0 -> cmp a c <= 0.
Hypothesis cmp_antisym : forall a b, cmp a b <= 0 -> cmp b a <= 0 -> a = b.

Lemma sort_insert_sorted (x : A) (l : list A) :
  StronglySorted le l -> StronglySorted le (JS.sort_insert cmp x l).
Proof.
  induction l as [|y l IH]; simpl; intros Hl.
  - constructor; constructor.
  - inversion Hl as [|? ? Hsorted Hy]; subst.
    destruct (Z.leb_spec (cmp x y) 0) as [Hxy|Hxy].
    + constructor; [exact Hl|]. constructor; [exact Hxy|].
      rewrite Forall_forall in *. intros z Hz. apply (cmp_trans x y z Hxy), Hy, Hz.
    + constructor; [apply IH, Hsorted|].
      rewrite Forall_forall in *. intros z Hz.
      apply (Permutation_in _ (sort_insert_perm cmp x l)) in Hz.
      destruct Hz as [<-|Hz]; [|apply Hy, Hz].
      destruct (cmp_total x y); [lia|assumption].
Qed.

Lemma sort_sorted (l : list A) : StronglySorted le (JS.sort cmp l).
Proof.
  induction l as [|x l IH]; simpl; [constructor|apply sort_insert_sorted, IH].
Qed.

(** A list has one sorted arrangement. *)
Lemma sorted_unique (l l' : list A) :
  StronglySorted le l -> StronglySorted le l' -> Permutation l l' -> l = l'.
Proof.
  revert l'. induction l as [|a l IH]; intros l' Hl Hl' Hp.
  - apply Permutation_nil in Hp. congruence.
  - destruct l' as [|b l'].
    + apply Permutation_sym, Permutation_nil in Hp. discriminate Hp.
    + inversion Hl as [|? ? Hs Ha]; subst. inversion Hl' as [|? ? Hs' Hb]; subst.
      rewrite Forall_forall in Ha, Hb.
      assert (Hab : a = b).
      { assert (Hin : In b (a :: l)).
        { apply (Permutation_in _ (Permutation_sym Hp)). left. reflexivity. }
        assert (Hin' : In a (b :: l')).
        { apply (Permutation_in _ Hp). left. reflexivity. }
        destruct Hin as [E|Hin]; [exact E|].
        destruct Hin' as [E|Hin']; [symmetry; exact E|].
        apply cmp_antisym; [apply Ha, Hin|apply Hb, Hin']. }
      subst b. f_equal. apply IH; try assumption.
      apply (Permutation_cons_inv Hp).
Qed.

Lemma sort_permutation (l l' : list A) :
  Permutation l l' -> JS.sort cmp l = JS.sort cmp l'.
Proof.
  intros Hp. apply sorted_unique; try apply sort_sorted.
  apply (Permutation_trans (sort_perm cmp l)).
  apply (Permutation_trans Hp), Permutation_sym, sort_perm.
Qed.

End SortOrder.

Lemma oldestToNewest_le (a b : string) :
  sorter.oldestToNewest a b <= 0
  <-> (String.length a < String.length b)%nat \/
      (String.length a = String.length b /\ String.compare a b <> Gt).
Proof.
  destruct (Nat.lt_trichotomy (String.length a) (String.length b)) as [Hlt|[Heq|Hgt]].
  - unfold sorter.oldestToNewest, JS.str_length.
    destruct (Z.eqb_spec (Z.of_nat (String.length a)) (Z.of_nat (String.length b))); [lia|].
    destruct (Z.gtb_spec (Z.of_nat (String.length a)) (Z.of_nat (String.length b))); [lia|].
    split; [auto|lia].
  - rewrite (oldestToNewest_same_length a b Heq).
    destruct (String.compare a b); split; try lia; try (intros _; right; split; [assumption|discriminate]).
    intros [G|[_ G]]; [lia|congruence].
  - unfold sorter.oldestToNewest, JS.str_length.
    destruct (Z.eqb_spec (Z.of_nat (String.length a)) (Z.of_nat (String.length b))); [lia|].
    destruct (Z.gtb_spec (Z.of_nat (String.length a)) (Z.of_nat (String.length b))); [|lia].
    split; [lia|]. intros [G|[G _]]; lia.
Qed.

Lemma compare_not_gt_trans (a b c : string) :
  String.compare a b <> Gt -> String.compare b c <> Gt -> String.compare a c <> Gt.
Proof.
  intros Hab Hbc.
  destruct (String.compare a b) eqn:Eab; [|clear Hab|congruence].
  - apply String.compare_eq_iff in Eab. subst b. exact Hbc.
  - destruct (String.compare b c) eqn:Ebc; [| |congruence].
    + apply String.compare_eq_iff in Ebc. subst c. rewrite Eab. discriminate.
    + apply OrderedTypeEx.String_as_OT.cmp_lt in Eab, Ebc.
      pose proof (OrderedTypeEx.String_as_OT.lt_trans _ _ _ Eab Ebc) as Hac.
      apply OrderedTypeEx.String_as_OT.cmp_lt in Hac.
      change (String.compare a c = Lt) in Hac. rewrite Hac. discriminate.
Qed.

Lemma oldestToNewest_antisym (a b : string) :
  sorter.oldestToNewest a b <= 0 -> sorter.oldestToNewest b a <= 0 -> a = b.
Proof.
  rewrite !oldestToNewest_le. intros [H1|[H1 C1]] [H2|[H2 C2]]; try lia.
  rewrite (String.compare_antisym b a) in C2.
  destruct (String.compare a b) eqn:E; simpl in C2; try congruence.
  apply String.compare_eq_iff, E.
Qed.

Lemma oldestToNewest_trans (a b c : string) :
  sorter.oldestToNewest a b <= 0 -> sorter.oldestToNewest b c <= 0 ->
  sorter.oldestToNewest a c <= 0.
Proof.
  rewrite !oldestToNewest_le. intros [H1|[H1 C1]] [H2|[H2 C2]]; try (left; lia).
  right. split; [lia|]. eapply compare_not_gt_trans; eauto.
Qed.

Lemma oldestToNewest_total (a b : string) :
  sorter.oldestToNewest a b <= 0 \/ sorter.oldestToNewest b a <= 0.
Proof.
  rewrite !oldestToNewest_le.
  destruct (Nat.lt_trichotomy (String.length a) (String.length b)) as [Hlt|[Heq|Hgt]];
    [left; left; exact Hlt| |right; left; exact Hgt].
  rewrite (String.compare_antisym b a).
  destruct (String.compare a b); simpl.
  - left. right. split; [exact Heq|discriminate].
  - left. right. split; [exact Heq|discriminate].
  - right. right. split; [symmetry; exact Heq|discriminate].
Qed.

(** [oldestToNewest] is a total order on strings: it is 0 on equal
    arguments, changes sign when they are swapped, is antisymmetric and
    transitive.  So the sorted list is in ascending order throughout,
    and it does not depend on the order in which the keys are given. *)
Theorem oldestToNewest_total_order :
  (forall a, sorter.oldestToNewest a a = 0) /\
  (forall a b, sorter.oldestToNewest b a = - sorter.oldestToNewest a b) /\
  (forall a b,
     sorter.oldestToNewest a b <= 0 -> sorter.oldestToNewest b a <= 0 -> a = b) /\
  (forall a b c,
     sorter.oldestToNewest a b <= 0 -> sorter.oldestToNewest b c <= 0 ->
     sorter.oldestToNewest a c <= 0) /\
  (forall keys,
     StronglySorted (fun a b => sorter.oldestToNewest a b <= 0)
       (JS.sort sorter.oldestToNewest keys)) /\
  (forall keys keys',
     Permutation keys keys' ->
     JS.sort sorter.oldestToNewest keys = JS.sort sorter.oldestToNewest keys').
Proof.
  split; [|split; [|split; [|split; [|split]]]].
  - intros a. apply oldestToNewest_zero. reflexivity.
  - intros a b. unfold sorter.oldestToNewest, JS.str_length, JS.str_gt, JS.str_lt, String.ltb.
    rewrite (Z.eqb_sym (Z.of_nat (String.length b))).
    destruct (Z.eqb_spec (Z.of_nat (String.length a)) (Z.of_nat (String.length b))) as [E|E].
    + rewrite (String.compare_antisym b a).
      destruct (String.compare a b); reflexivity.
    + destruct (Z.gtb_spec (Z.of_nat (String.length a)) (Z.of_nat (String.length b)));
        destruct (Z.gtb_spec (Z.of_nat (String.length b)) (Z.of_nat (String.length a)));
        try reflexivity; lia.
  - exact oldestToNewest_antisym.
  - exact oldestToNewest_trans.
  - intros keys. apply sort_sorted; [exact oldestToNewest_total|exact oldestToNewest_trans].
  - intros keys keys'. apply sort_permutation.
    + exact oldestToNewest_total.
    + exact oldestToNewest_trans.
    + exact oldestToNewest_antisym.
Qed.



(** ** Jumping to a message *)


(** A page in range is what [getCurrentPage] returns, and the store
    stays as it is. *)
Lemma getCurrentPage_in_range (s : state) (p : Z) :
  currentPage s = Some p -> 1 <= p <= getPageCount s -> getCurrentPage s = (p, s).
Proof.
  intros Hp Hrange. unfold getCurrentPage. rewrite Hp.
  destruct (Z.gtb_spec p (getPageCount s)) as [Hgt|_]; [lia|]. simpl. rewrite Hp.
  destruct (Z.eqb_spec p 0); [lia|reflexivity].
Qed.

Lemma triggerMessagesRefreshed_in_range (s : state) (meta : metadata) (p : Z) :
  loadedFileMeta s = Object meta ->
  Inv.list_ok s ->
  currentPage s = Some p -> 1 <= p <= getPageCount s ->
  triggerMessagesRefreshed s = (Return tt, s).
Proof.
  intros Hmeta Hlist Hp Hrange.
  pose proof (getCurrentPage_in_range s p Hp Hrange) as Hcur.
  unfold triggerMessagesRefreshed.
  destruct (eventOnMessagesRefreshed s); [|reflexivity].
  destruct (getMessageList_returns s meta Hmeta Hlist) as (views & Hviews).
  assert (Hsnd : snd (getMessageList s) = s).
  { unfold getMessageList. destruct (loadedMessages s); [|reflexivity].
    destruct (match selectedChannel s with
              | Some channel => getMessages s channel
              | None => getMessages s "null"
              end); [|reflexivity].
    rewrite Hcur. reflexivity. }
  destruct (getMessageList s) as [r s']. simpl in Hviews, Hsnd. subst r s'.
  rewrite Hcur. reflexivity.
Qed.







(** ** The active filter *)



(** ** The navigation buttons *)

(** The page an action of [updateCurrentPage] leads to, from the page
    [p] of [count] pages. *)
Lemma updateCurrentPage_to (s : state) (meta : metadata) (p p' : Z) :
  loadedFileMeta s = Object meta ->
  Inv.list_ok s ->
  1 <= p' <= getPageCount s ->
  triggerMessagesRefreshed (set_currentPage (Some p') s)
  = (Return tt, set_currentPage (Some p') s).
Proof.
  intros Hmeta Hlist Hrange.
  apply (triggerMessagesRefreshed_in_range _ meta p'); auto.
Qed.

(** From a page in range, [first] leads to page 1, [prev] one page back
    but not below 1, [next] one page on but not beyond the last, [last]
    to the last page, and [pick] to the page picked, brought into the
    range; a prompt that gives no number changes nothing.  Every call
    returns, and nothing but the page changes. *)
Theorem updateCurrentPage_moves :
  forall (s : state) (meta : metadata) (p : Z),
    loadedFileMeta s = Object meta ->
    Inv.list_ok s ->
    currentPage s = Some p ->
    1 <= p <= getPageCount s ->
    updateCurrentPage s first = (Return tt, set_currentPage (Some 1) s) /\
    updateCurrentPage s prev = (Return tt, set_currentPage (Some (Z.max 1 (p - 1))) s) /\
    updateCurrentPage s next
    = (Return tt, set_currentPage (Some (Z.min (getPageCount s) (p + 1))) s) /\
    updateCurrentPage s last = (Return tt, set_currentPage (Some (getPageCount s)) s) /\
    (forall q,
       updateCurrentPage s (pick (Some q))
       = (Return tt, set_currentPage (Some (Z.max 1 (Z.min (getPageCount s) q))) s)) /\
    updateCurrentPage s (pick None) = (Return tt, s) /\
    (p < getPageCount s ->
     updateCurrentPage (snd (updateCurrentPage s next)) prev
     = (Return tt, set_currentPage (Some p) s)) /\
    (p = getPageCount s -> snd (updateCurrentPage s next) = set_currentPage (Some p) s).
Proof.
  intros s meta p Hmeta Hlist Hp Hrange.
  assert (Hnext : updateCurrentPage s next
                  = (Return tt, set_currentPage (Some (Z.min (getPageCount s) (p + 1))) s)).
  { unfold updateCurrentPage. rewrite Hp. simpl.
    apply (updateCurrentPage_to s meta p); auto. lia. }
  split; [|split; [|split; [|split; [|split; [|split; [|split]]]]]].
  - unfold updateCurrentPage. apply (updateCurrentPage_to s meta p); auto. lia.
  - unfold updateCurrentPage. rewrite Hp. simpl.
    replace (p + -1) with (p - 1) by lia.
    apply (updateCurrentPage_to s meta p); auto. lia.
  - exact Hnext.
  - unfold updateCurrentPage. apply (updateCurrentPage_to s meta p); auto. lia.
  - intros q. unfold updateCurrentPage. apply (updateCurrentPage_to s meta p); auto. lia.
  - reflexivity.
  - intros Hlt. rewrite Hnext. cbn [snd].
    unfold updateCurrentPage. cbn [currentPage set_currentPage num_add num_max option_map].
    replace (Z.max 1 (Z.min (getPageCount s) (p + 1) + -1)) with p by lia.
    exact (updateCurrentPage_to
             (set_currentPage (Some (Z.min (getPageCount s) (p + 1))) s) meta p p
             Hmeta Hlist Hrange).
  - intros ->. rewrite Hnext. cbn [snd]. f_equal. f_equal. lia.
Qed.

Lemma updateCurrentPage_moves_witness :
  updateCurrentPage Sample.filtered_store first
  = (Return tt, set_currentPage (Some 1) Sample.filtered_store) /\
  updateCurrentPage Sample.filtered_store prev
  = (Return tt, set_currentPage (Some (Z.max 1 (2 - 1))) Sample.filtered_store) /\
  updateCurrentPage Sample.filtered_store next
  = (Return tt,
     set_currentPage (Some (Z.min (getPageCount Sample.filtered_store) (2 + 1)))
       Sample.filtered_store).
Proof.
  destruct (updateCurrentPage_moves Sample.filtered_store Sample.meta 2)
    as (H1 & H2 & H3 & _).
  - reflexivity.
  - apply (store_inv_run Sample.no_urls). repeat constructor. simpl. lia.
  - reflexivity.
  - vm_compute. split; discriminate.
  - auto.
Defined.

(** The buttons of the navigation bar are disabled exactly when they
    would lead nowhere: on a page in range, [first] and [prev] are
    disabled when and only when their action leaves the page as it is,
    and so are [next] and [last]; [pick] is disabled when there is one
    page only.  The bar shows the page and the number of pages. *)
Theorem refreshNavigation_buttons :
  forall (s : state) (meta : metadata) (p : Z),
    loadedFileMeta s = Object meta ->
    Inv.list_ok s ->
    currentPage s = Some p ->
    1 <= p <= getPageCount s ->
    let nav := gui.refreshNavigation s in
    gui.nav_page_current nav = p /\
    gui.nav_page_total nav = Some (getPageCount s) /\
    (gui.nav_first nav = true
     <-> currentPage (snd (updateCurrentPage s first)) = currentPage s) /\
    (gui.nav_prev nav = true
     <-> currentPage (snd (updateCurrentPage s prev)) = currentPage s) /\
    (gui.nav_next nav = true
     <-> currentPage (snd (updateCurrentPage s next)) = currentPage s) /\
    (gui.nav_last nav = true
     <-> currentPage (snd (updateCurrentPage s last)) = currentPage s) /\
    (gui.nav_pick nav = true <-> getPageCount s = 1).
Proof.
  intros s meta p Hmeta Hlist Hp Hrange nav.
  destruct (updateCurrentPage_moves s meta p Hmeta Hlist Hp Hrange)
    as (Hfirst & Hprev & Hnext & Hlast & _).
  subst nav. unfold gui.refreshNavigation.
  rewrite (getCurrentPage_in_range s p Hp Hrange).
  rewrite Hfirst, Hprev, Hnext, Hlast, Hp.
  unfold gui.updateNavigation, gui.total_or. cbn [gui.nav_page_current
    gui.nav_page_total gui.nav_first gui.nav_prev gui.nav_pick gui.nav_next gui.nav_last
    snd currentPage set_currentPage].
  destruct (Z.eqb_spec (getPageCount s) 0) as [E|E]; [lia|].
  repeat split; try reflexivity.
  all: try (intros H; apply Z.eqb_eq in H; f_equal; lia).
  all: try (intros H; injection H as H; apply Z.eqb_eq; lia).
  all: try (intros H; apply Z.leb_le in H; lia).
  all: try (intros H; apply Z.leb_le; lia).
Qed.

Lemma refreshNavigation_buttons_witness :
  gui.nav_page_current (gui.refreshNavigation Sample.filtered_store) = 2 /\
  gui.nav_page_total (gui.refreshNavigation Sample.filtered_store)
  = Some (getPageCount Sample.filtered_store) /\
  (gui.nav_first (gui.refreshNavigation Sample.filtered_store) = true
   <-> currentPage (snd (updateCurrentPage Sample.filtered_store first))
       = currentPage Sample.filtered_store).
Proof.
  destruct (refreshNavigation_buttons Sample.filtered_store Sample.meta 2)
    as (H1 & H2 & H3 & _).
  - reflexivity.
  - apply (store_inv_run Sample.no_urls). repeat constructor. simpl. lia.
  - reflexivity.
  - vm_compute. split; discriminate.
  - auto.
Defined.

(** ** The filters *)

Lemma existsb_none {A : Type} (l : list A) : existsb (fun _ : A => false) l = false.
Proof. induction l as [|x l IH]; simpl; [reflexivity|exact IH]. Qed.

Lemma existsb_either {A : Type} (p : A -> bool) (l : list A) :
  existsb p l || existsb (fun x => negb (p x)) l = (0 <? List.length l)%nat.
Proof.
  induction l as [|x l IH]; simpl; [reflexivity|].
  destruct (p x); simpl; [reflexivity|apply orb_true_r].
Qed.

(** Every attachment is an image or a download: a message passes the
    filter of the images or the filter of the downloads exactly when it
    has at least one attachment.  The embeds count for neither, since
    the store keeps them as texts. *)
Theorem filters_partition_attachments :
  forall (url_pathname : string -> option string) (message : message),
    filter.withImages url_pathname message || filter.withDownloads url_pathname message
    = filter.withAttachments message.
Proof.
  intros url message.
  unfold filter.withImages, filter.withDownloads, filter.withAttachments.
  destruct (msg_e message) as [e|]; [rewrite existsb_none|];
    (destruct (msg_a message) as [a|]; [apply existsb_either|reflexivity]).
Qed.

Lemma substring_found (s : string) :
  forall (m : nat) (t : string),
    String.substring m (String.length t) s = t ->
    exists pre post, s = (pre ++ t ++ post)%string.
Proof.
  induction s as [|c s IH]; intros m t Ht.
  - destruct m, t; simpl in Ht; try discriminate; exists EmptyString, EmptyString; reflexivity.
  - destruct m as [|m].
    + destruct t as [|a t]; [exists EmptyString, (String c s); reflexivity|].
      simpl in Ht. injection Ht as -> Ht.
      destruct (IH 0%nat t Ht) as (pre & post & E).
      assert (Hpre : exists post', s = (t ++ post')%string).
      { clear - Ht. revert s Ht. induction t as [|b t IHt]; intros s Ht;
          [exists s; reflexivity|].
        destruct s as [|d s]; simpl in Ht; [discriminate Ht|].
        injection Ht as -> Ht. destruct (IHt s Ht) as (post' & ->).
        exists post'. reflexivity. }
      destruct Hpre as (post' & ->). exists EmptyString, post'. reflexivity.
    + simpl in Ht. destruct (IH m t Ht) as (pre & post & ->).
      exists (String c pre), post. reflexivity.
Qed.

(** The filter by contents keeps the messages whose text holds the
    given text somewhere.  A message without text counts as the empty
    text, so only the empty search text finds it. *)
Theorem byContents_contains :
  forall (substr : string) (message : message),
    (filter.byContents substr message = true
     <-> exists pre post, filter.contents_of message = (pre ++ substr ++ post)%string) /\
    (msg_m message = None -> filter.byContents substr message = (substr =? "")%string).
Proof.
  intros substr message. unfold filter.byContents. split.
  - destruct (String.index 0 substr (filter.contents_of message)) as [m|] eqn:E.
    + split; [intros _|reflexivity].
      apply index_correct1 in E. apply (substring_found _ m), E.
    + split; [discriminate|]. intros (pre & post & Hs). exfalso.
      destruct substr as [|a substr].
      * apply index_correct4 in E. lia.
      * apply (index_correct3 0 (String.length pre)) in E; [|discriminate|lia].
        apply E. rewrite Hs. apply substring_middle.
  - intros Hm. unfold filter.contents_of. rewrite Hm.
    destruct substr; reflexivity.
Qed.

Lemma last_dot_app (p s : string) :
  forall (pos : nat) (found : option nat),
    filter.last_dot (p ++ s) pos found
    = filter.last_dot s (pos + String.length p) (filter.last_dot p pos found).
Proof.
  induction p as [|c p IH]; intros pos found; simpl.
  - rewrite Nat.add_0_r. reflexivity.
  - rewrite IH, Nat.add_succ_r. reflexivity.
Qed.

Lemma last_dot_none (e : string) :
  forall (pos : nat) (found : option nat),
    Inv.all_chars (fun c => negb (c =? ".")%char) e = true ->
    filter.last_dot e pos found = found.
Proof.
  induction e as [|c e IH]; intros pos found; simpl; [reflexivity|].
  intros H. apply andb_true_iff in H. destruct H as [Hc He].
  apply negb_true_iff in Hc. rewrite Hc. apply IH, He.
Qed.

(** Whether a path names an image is decided by what follows its last
    dot, whatever the case of the letters: png, gif, jpg and jpeg are
    images, and a path without a dot is none. *)
Theorem isImageUrl_extension :
  (forall p e : string,
     Inv.all_chars (fun c => negb (c =? ".")%char) e = true ->
     filter.isImageUrl (p ++ "." ++ e)
     = existsb (String.eqb (Exporter.lower e)) ["png"; "gif"; "jpg"; "jpeg"]%string) /\
  (forall p : string,
     Inv.all_chars (fun c => negb (c =? ".")%char) p = true ->
     filter.isImageUrl p = false).
Proof.
  split.
  - intros p e He. unfold filter.isImageUrl.
    rewrite last_dot_app. cbn [String.append filter.last_dot Ascii.eqb Bool.eqb].
    rewrite (last_dot_none e _ _ He).
    replace (String.length (p ++ String "." e) - (0 + String.length p))%nat
      with (String.length (String "." e))
      by (rewrite string_length_app; simpl; lia).
    rewrite Nat.add_0_l, substring_end.
    change (Exporter.lower (String "." e)) with (String "."%char (Exporter.lower e)).
    cbn [existsb String.eqb Ascii.eqb Bool.eqb].
    rewrite !(String.eqb_sym (Exporter.lower e)), orb_false_r, !orb_assoc. reflexivity.
  - intros p Hp. unfold filter.isImageUrl. rewrite (last_dot_none p _ _ Hp). reflexivity.
Qed.

(** ** The settings and the store of the browser *)

Lemma settings_get_load (localStorage : settings.storage) (property : string) :
  In property settings.properties ->
  settings.get (settings.load localStorage) property
  = Some (settings.stored_or_default localStorage property true settings.fromBooleanString).
Proof.
  intros Hin. unfold settings.properties in Hin. simpl in Hin.
  destruct Hin as [<-|[<-|[<-|[<-|[]]]]];
    unfold settings.get, settings.load, settings.defineSettingProperty;
    cbn [settings.root settings.localStorage]; rewrite !lookup_assign; reflexivity.
Qed.

Lemma stored_after_set (items : list (string * string)) (property q : string)
  (value defaultValue : bool) :
  settings.stored_or_default
    (settings.setStorageItem (Some items) property (settings.string_of_boolean value))
    q defaultValue settings.fromBooleanString
  = if (property =? q)%string then value
    else settings.stored_or_default (Some items) q defaultValue settings.fromBooleanString.
Proof.
  unfold settings.stored_or_default, settings.setStorageItem, settings.getStorageItem.
  rewrite lookup_assign. destruct (property =? q)%string; [|reflexivity].
  destruct value; reflexivity.
Qed.

(** A setting survives the reload of the page: once a property is set,
    its getter returns the new value; where the store of the browser
    works, the module loaded again from that store starts with this
    value, and with the values it would have had for the other
    properties.  Every callback registered is called once. *)
Theorem settings_survive_reload :
  forall (s : settings.state) (items : list (string * string)) (property : string)
         (value : bool),
    In property settings.properties ->
    settings.localStorage s = Some items ->
    settings.get (settings.set s property value) property = Some value /\
    settings.get (settings.load (settings.localStorage (settings.set s property value)))
      property = Some value /\
    (forall q, In q settings.properties -> q <> property ->
       settings.get (settings.load (settings.localStorage (settings.set s property value))) q
       = settings.get (settings.load (settings.localStorage s)) q) /\
    settings.calls (settings.set s property value)
    = (settings.calls s ++ repeat property (settings.settingsChangedEvents s))%list.
Proof.
  intros s items property value Hin Hst. split; [|split; [|split]].
  - unfold settings.get, settings.set. cbn [settings.root].
    rewrite lookup_assign, String.eqb_refl. reflexivity.
  - rewrite (settings_get_load _ _ Hin). unfold settings.set. cbn [settings.localStorage].
    rewrite Hst, stored_after_set, String.eqb_refl. reflexivity.
  - intros q Hq Hne. rewrite !(settings_get_load _ _ Hq).
    unfold settings.set. cbn [settings.localStorage].
    rewrite Hst, stored_after_set.
    destruct (String.eqb_spec property q) as [E|_]; [congruence|reflexivity].
  - reflexivity.
Qed.

Lemma settings_survive_reload_witness :
  settings.get (settings.set (settings.load (Some [])) "enableFormatting" false)
    "enableFormatting" = Some false /\
  settings.get
    (settings.load
       (settings.localStorage
          (settings.set (settings.load (Some [])) "enableFormatting" false)))
    "enableFormatting" = Some false.
Proof.
  destruct (settings_survive_reload (settings.load (Some [])) [] "enableFormatting" false)
    as (H1 & H2 & _).
  - simpl. auto.
  - reflexivity.
  - auto.
Defined.

(** Without a usable value in the store of the browser every setting is
    on: when the store cannot be read, when it holds no item for the
    property, and when the item is neither [true] nor [false]. *)
Theorem settings_defaults :
  forall property : string,
    In property settings.properties ->
    settings.get (settings.load None) property = Some true /\
    (forall items,
       match lookup property items with
       | Some stored => stored <> "true"%string /\ stored <> "false"%string
       | None => True
       end ->
       settings.get (settings.load (Some items)) property = Some true).
Proof.
  intros property Hin. split.
  - rewrite (settings_get_load _ _ Hin). reflexivity.
  - intros items Hitem. rewrite (settings_get_load _ _ Hin).
    unfold settings.stored_or_default, settings.getStorageItem.
    destruct (lookup property items) as [stored|]; [|reflexivity].
    destruct Hitem as [Ht Hf]. unfold settings.fromBooleanString.
    destruct (String.eqb_spec stored "true"); [congruence|].
    destruct (String.eqb_spec stored "false"); [congruence|reflexivity].
Qed.

Lemma settings_defaults_witness :
  settings.get (settings.load None) "enableFormatting" = Some true.
Proof.
  apply (settings_defaults "enableFormatting"). simpl. auto.
Defined.

(** ** Texts that the renderer leaves as they are *)

Lemma all_ascii_in (c : ascii) : In c Shape.all_ascii.
Proof.
  unfold Shape.all_ascii. apply in_map_iff. exists (nat_of_ascii c). split.
  - apply ascii_nat_embedding.
  - apply in_seq. pose proof (nat_ascii_bounded c). lia.
Qed.

Lemma strip_prefix_app (t s s' : string) :
  strip_prefix t s = Some s' -> s = (t ++ s')%string.
Proof.
  revert s. induction t as [|a t IH]; intros s; simpl.
  - intros H. injection H as ->. reflexivity.
  - destruct s as [|b s]; [discriminate|].
    destruct (Ascii.eqb_spec a b) as [->|_]; [|discriminate].
    intros H. rewrite (IH s H). reflexivity.
Qed.

(** A match of an expression that needs a character the text does not
    hold fails; so does every match whose continuation fails on such
    texts. *)
Lemma rmatch_needs (p : ascii -> bool) (r : regex) :
  forall (prev : option ascii) (s : string) (caps : captures)
         (k : option ascii -> string -> captures -> option (string * captures)),
    Shape.free_of p s = true ->
    Shape.needs p r = true \/
    (forall prev' s' caps', Shape.free_of p s' = true -> k prev' s' caps' = None) ->
    rmatch r prev s caps k = None.
Proof.
  induction r as [ |q|r1 IH1 r2 IH2|r1 IH1 r2 IH2|greedy r1 IH1|n r1 IH1|n|r1 IH1| ];
    intros prev s caps k Hs Hk; [cbn [rmatch]..| |cbn [rmatch]|cbn [rmatch]|cbn [rmatch]|cbn [rmatch]].
  - destruct Hk as [Hk|Hk]; [discriminate Hk|apply Hk, Hs].
  - destruct s as [|c s]; [reflexivity|].
    unfold Shape.free_of in Hs. cbn [Inv.all_chars] in Hs.
    apply andb_true_iff in Hs. destruct Hs as [Hc Hs].
    destruct (q c) eqn:Hq; [|reflexivity].
    destruct Hk as [Hk|Hk]; [|apply Hk, Hs].
    cbn [Shape.needs] in Hk. rewrite forallb_forall in Hk.
    specialize (Hk c (all_ascii_in c)). rewrite Hq in Hk. simpl in Hk.
    rewrite Hk in Hc. discriminate Hc.
  - apply IH1; [exact Hs|].
    destruct Hk as [Hk|Hk].
    + cbn [Shape.needs] in Hk. apply orb_true_iff in Hk. destruct Hk as [Hk|Hk]; [auto|].
      right. intros prev' s' caps' Hs'. apply IH2; auto.
    + right. intros prev' s' caps' Hs'. apply IH2; auto.
  - assert (Hk1 : Shape.needs p r1 = true \/
                  (forall prev' s' caps', Shape.free_of p s' = true -> k prev' s' caps' = None)).
    { destruct Hk as [Hk|Hk]; [|auto]. cbn [Shape.needs] in Hk.
      apply andb_true_iff in Hk. tauto. }
    assert (Hk2 : Shape.needs p r2 = true \/
                  (forall prev' s' caps', Shape.free_of p s' = true -> k prev' s' caps' = None)).
    { destruct Hk as [Hk|Hk]; [|auto]. cbn [Shape.needs] in Hk.
      apply andb_true_iff in Hk. tauto. }
    rewrite (IH1 _ _ _ _ Hs Hk1). apply IH2; assumption.
  - destruct Hk as [Hk|Hk]; [discriminate Hk|].
    change (Shape.star_loop greedy (rmatch r1) k (S (String.length s)) prev s caps = None).
    generalize (S (String.length s)) as fuel. intros fuel.
    revert prev s caps Hs. induction fuel as [|fuel IHf]; intros prev s caps Hs.
    + apply Hk, Hs.
    + cbn [Shape.star_loop]. rewrite (IH1 prev s caps); [| exact Hs |].
      * rewrite (Hk _ _ _ Hs). destruct greedy; reflexivity.
      * right. intros prev' s' caps' Hs'.
        destruct (String.length s' <? String.length s)%nat; [apply IHf, Hs'|reflexivity].
  - apply IH1; [exact Hs|].
    destruct Hk as [Hk|Hk]; [left; exact Hk|].
    right. intros prev' s' caps' Hs'. apply Hk, Hs'.
  - destruct Hk as [Hk|Hk]; [discriminate Hk|].
    destruct (strip_prefix (group n caps) s) as [s'|] eqn:E; [|reflexivity].
    apply Hk. apply strip_prefix_app in E. rewrite E in Hs.
    unfold Shape.free_of in *. rewrite all_chars_app in Hs.
    apply andb_true_iff in Hs. apply Hs.
  - destruct Hk as [Hk|Hk]; [discriminate Hk|].
    rewrite (Hk _ _ _ Hs). destruct (rmatch r1 prev s caps _); reflexivity.
  - destruct Hk as [Hk|Hk]; [discriminate Hk|].
    rewrite (Hk _ _ _ Hs). destruct (xorb _ _); reflexivity.
Qed.

(** A replacement by an expression that needs a character the text does
    not hold leaves the text as it is. *)
Lemma replace_needs (p : ascii -> bool) (r : regex) (f : string -> captures -> string)
  (s : string) :
  Shape.needs p r = true -> Shape.free_of p s = true -> replace r f s = s.
Proof.
  intros Hr Hs. unfold replace.
  generalize (S (String.length s)) as fuel. generalize (@None ascii) as prev.
  intros prev fuel. revert prev s Hs.
  induction fuel as [|fuel IH]; intros prev s Hs; [reflexivity|].
  cbn [replace_from]. rewrite (rmatch_needs p r prev s [] accept Hs (or_introl Hr)).
  destruct s as [|c s]; [reflexivity|].
  unfold Shape.free_of in Hs. cbn [Inv.all_chars] in Hs.
  apply andb_true_iff in Hs. destruct Hs as [_ Hs].
  rewrite (IH _ _ Hs). reflexivity.
Qed.

Lemma free_of_rendering (a : ascii) (s : string) :
  Shape.is_rendering_char a = true ->
  Shape.free_of Shape.is_rendering_char s = true ->
  Shape.free_of (is_char a) s = true.
Proof.
  intros Ha. unfold Shape.free_of. apply all_chars_impl. intros c Hc.
  apply negb_true_iff. apply negb_true_iff in Hc.
  unfold is_char. destruct (Ascii.eqb_spec a c) as [<-|_]; [congruence|reflexivity].
Qed.

Ltac unchanged r a :=
  rewrite (replace_needs (is_char a) r);
  [ | vm_compute; reflexivity | apply (free_of_rendering a); [reflexivity|assumption] ].

Lemma applyFormatting_plain (s : string) :
  Shape.free_of Shape.is_rendering_char s = true -> discord.applyFormatting s = s.
Proof.
  intros Hs. unfold discord.applyFormatting. cbv zeta.
  unchanged discord.specialEscapedBacktick "\"%char.
  unchanged discord.formatCodeBlock "`"%char.
  unchanged discord.formatCodeInline "`"%char.
  unchanged discord.specialEscapedSingle "\"%char.
  unchanged discord.specialEscapedDouble "\"%char.
  unchanged discord.formatBold "*"%char.
  unchanged discord.formatUnderline "_"%char.
  unchanged discord.formatItalic1 "*"%char.
  unchanged discord.formatItalic2 "_"%char.
  unchanged discord.formatStrike "~"%char.
  reflexivity.
Qed.

Lemma applyLinks_plain (env : discord.environment) (s : string) :
  Shape.free_of Shape.is_rendering_char s = true -> discord.applyLinks env s = s.
Proof.
  intros Hs. unfold discord.applyLinks. cbv zeta.
  unchanged discord.formatUrl ":"%char.
  unchanged discord.mentionChannel "&"%char.
  unchanged discord.mentionUser "&"%char.
  unchanged discord.customEmojiStatic "&"%char.
  unchanged discord.customEmojiAnimated "&"%char.
  reflexivity.
Qed.

Lemma escapeHTML_plain (s : string) :
  Shape.free_of dom.is_html_special s = true -> dom.escapeHTML s = s.
Proof.
  intros Hs. unfold dom.escapeHTML.
  apply (replace_needs dom.is_html_special); [vm_compute; reflexivity|exact Hs].
Qed.

(** A text without any character that means something to the renderer
    is shown as it is, between the tags of a paragraph, whatever the
    settings: nothing is escaped, formatted or linked. *)
Theorem processMessageContents_plain :
  forall (env : discord.environment) (contents : string),
    Shape.free_of Shape.is_rendering_char contents = true ->
    discord.processMessageContents env contents = ("<p>" ++ contents ++ "</p>")%string.
Proof.
  intros env contents Hs. unfold discord.processMessageContents, discord.unwrapNoEmbed.
  cbv zeta.
  unchanged discord.formatUrlNoEmbed "<"%char.
  rewrite escapeHTML_plain.
  - rewrite applyFormatting_plain by exact Hs.
    destruct (discord.enableFormatting env);
      rewrite applyLinks_plain by exact Hs; reflexivity.
  - revert Hs. unfold Shape.free_of. apply all_chars_impl. intros c Hc.
    apply negb_true_iff. apply negb_true_iff in Hc.
    unfold Shape.is_rendering_char in Hc. apply orb_false_iff in Hc. apply Hc.
Qed.

Lemma processMessageContents_plain_witness :
  discord.processMessageContents Sample.render_env "hello, world"
  = ("<p>" ++ "hello, world" ++ "</p>")%string.
Proof.
  apply (processMessageContents_plain Sample.render_env "hello, world"). reflexivity.
Defined.

(** ** [escapeHTML] as a code *)

Lemma map_chars_app (g : ascii -> string) (a b : string) :
  Inv.map_chars g (a ++ b) = (Inv.map_chars g a ++ Inv.map_chars g b)%string.
Proof.
  induction a as [|c a IH]; simpl; [reflexivity|].
  rewrite IH, string_app_assoc. reflexivity.
Qed.

Lemma unescape_head_entity (c : ascii) (rest : string) :
  Shape.unescape_head (dom.HTML_ENTITY_MAP c ++ rest) = Some (c, rest).
Proof.
  destruct c as [[] [] [] [] [] [] [] []]; vm_compute; reflexivity.
Qed.

Lemma entity_length (c : ascii) :
  (if dom.is_html_special c then 1 <? String.length (dom.HTML_ENTITY_MAP c)
   else String.length (dom.HTML_ENTITY_MAP c) =? 1)%nat = true.
Proof.
  destruct c as [[] [] [] [] [] [] [] []]; vm_compute; reflexivity.
Qed.

Lemma map_entities_inj (a b : string) :
  Inv.map_chars dom.HTML_ENTITY_MAP a = Inv.map_chars dom.HTML_ENTITY_MAP b -> a = b.
Proof.
  revert b. induction a as [|c a IH]; intros [|d b]; simpl; intros H.
  - reflexivity.
  - apply (f_equal Shape.unescape_head) in H.
    rewrite unescape_head_entity in H. discriminate H.
  - apply (f_equal Shape.unescape_head) in H.
    rewrite unescape_head_entity in H. discriminate H.
  - apply (f_equal Shape.unescape_head) in H.
    rewrite !unescape_head_entity in H. injection H as -> H.
    rewrite (IH b H). reflexivity.
Qed.

Lemma map_entities_length (s : string) :
  (String.length s <= String.length (Inv.map_chars dom.HTML_ENTITY_MAP s))%nat /\
  (Shape.free_of dom.is_html_special s = false ->
   (String.length s < String.length (Inv.map_chars dom.HTML_ENTITY_MAP s))%nat).
Proof.
  induction s as [|c s [IH1 IH2]]; simpl; [split; [lia|discriminate]|].
  rewrite string_length_app. pose proof (entity_length c) as Hc.
  unfold Shape.free_of in *. cbn [Inv.all_chars].
  destruct (dom.is_html_special c); simpl.
  - apply Nat.ltb_lt in Hc. split; [lia|]. intros _. lia.
  - apply Nat.eqb_eq in Hc. split; [lia|]. intros H. specialize (IH2 H). lia.
Qed.

(** [escapeHTML] works character by character, so it goes through a
    concatenation; it loses nothing, since two texts with the same
    escaped text are the same; it never shortens a text, and it leaves a
    text as it is exactly when the text holds none of the five
    characters. *)
Theorem escapeHTML_code :
  (forall a b : string,
     dom.escapeHTML (a ++ b) = (dom.escapeHTML a ++ dom.escapeHTML b)%string) /\
  (forall a b : string, dom.escapeHTML a = dom.escapeHTML b -> a = b) /\
  (forall s : string, (String.length s <= String.length (dom.escapeHTML s))%nat) /\
  (forall s : string,
     dom.escapeHTML s = s <-> Shape.free_of dom.is_html_special s = true).
Proof.
  split; [|split; [|split]].
  - intros a b. rewrite !escapeHTML_chars. apply map_chars_app.
  - intros a b. rewrite !escapeHTML_chars. apply map_entities_inj.
  - intros s. rewrite escapeHTML_chars. apply map_entities_length.
  - intros s. split; [|apply escapeHTML_plain].
    intros H. destruct (Shape.free_of dom.is_html_special s) eqn:E; [reflexivity|].
    rewrite escapeHTML_chars in H.
    pose proof (proj2 (map_entities_length s) E) as Hlen. rewrite H in Hlen. lia.
Qed.

(** ** The inline styles *)

Section Delimited.

Variable m : ascii.

Local Abbreviation mark := (String m (String m EmptyString)).

(** What follows the text of group 1: the closing mark, not followed by
    another [m]. *)
Local Abbreviation closing := (Seq (lit mark) (NotAhead (Chr (is_char m)))).

Lemma closing_fails (prev : option ascii) (y : string) (caps : captures)
  (k : option ascii -> string -> captures -> option (string * captures)) :
  y <> EmptyString -> Shape.free_of (is_char m) y = true ->
  rmatch closing prev (y ++ mark) caps k = None.
Proof.
  intros Hy Hfree. destruct y as [|c y]; [congruence|].
  unfold Shape.free_of in Hfree. cbn [Inv.all_chars] in Hfree.
  apply andb_true_iff in Hfree. destruct Hfree as [Hc _].
  apply negb_true_iff in Hc. cbn [rmatch lit String.append]. rewrite Hc. reflexivity.
Qed.

Lemma closing_matches (prev : option ascii) (caps : captures) :
  rmatch closing prev mark caps accept = Some (EmptyString, caps).
Proof.
  cbn [rmatch lit]. unfold is_char. rewrite Ascii.eqb_refl. reflexivity.
Qed.

(** The lazy quantifier runs over a text without [m] up to the closing
    mark. *)
Lemma lazy_scan (k : option ascii -> string -> captures -> option (string * captures))
  (res : string * captures) (caps : captures) (y : string) :
  forall (fuel : nat) (prev : option ascii),
    (String.length y < fuel)%nat ->
    Shape.free_of (is_char m) y = true ->
    (forall prev' y' caps', y' <> EmptyString -> Shape.free_of (is_char m) y' = true ->
       k prev' (y' ++ mark)%string caps' = None) ->
    k (last_char prev y) mark caps = Some res ->
    Shape.star_loop false (rmatch (Chr any_char)) k fuel prev (y ++ mark) caps = Some res.
Proof.
  induction y as [|c y IH]; intros fuel prev Hfuel Hfree Hfail Hend.
  - destruct fuel as [|fuel]; [simpl in Hfuel; lia|].
    cbn [Shape.star_loop String.append]. simpl in Hend. rewrite Hend. reflexivity.
  - pose proof Hfree as Hfree'.
    unfold Shape.free_of in Hfree'. cbn [Inv.all_chars] in Hfree'.
    apply andb_true_iff in Hfree'. destruct Hfree' as [_ Hy].
    destruct fuel as [|fuel]; [simpl in Hfuel; lia|].
    cbn [Shape.star_loop].
    rewrite (Hfail prev (String c y) caps); [|discriminate|exact Hfree].
    cbn [rmatch String.append any_char String.length].
    replace (String.length (y ++ mark) <? S (String.length (y ++ mark)))%nat with true
      by (symmetry; apply Nat.ltb_lt; lia).
    apply IH; try assumption. simpl in Hfuel. lia.
Qed.

End Delimited.

Lemma rmatch_star (greedy : bool) (r : regex) (prev : option ascii) (s : string)
  (caps : captures) (k : option ascii -> string -> captures -> option (string * captures)) :
  rmatch (Star greedy r) prev s caps k
  = Shape.star_loop greedy (rmatch r) k (S (String.length s)) prev s caps.
Proof. reflexivity. Qed.

Lemma substring_start (a x : string) :
  String.substring 0 (String.length a) (a ++ x) = a.
Proof. exact (substring_middle EmptyString a x). Qed.

(** The expression of a style with a doubled mark matches the whole of
    a text between two marks, and group 1 is the text. *)
Lemma rmatch_delimited (m : ascii) (x : string) :
  let mark := String m (String m EmptyString) in
  x <> EmptyString -> Shape.free_of (is_char m) x = true ->
  rmatch (discord.delimited mark mark m) None (mark ++ x ++ mark) [] accept
  = Some (EmptyString, [(1%nat, x)]).
Proof.
  intros mark Hx Hfree. destruct x as [|c x]; [congruence|].
  pose proof Hfree as Hfree'.
  unfold Shape.free_of in Hfree'. cbn [Inv.all_chars] in Hfree'.
  apply andb_true_iff in Hfree'. destruct Hfree' as [_ Hfx].
  unfold discord.delimited, Plus, mark.
  remember (Star false (Chr any_char)) as star eqn:Estar.
  remember (Seq (lit (String m (String m EmptyString))) (NotAhead (Chr (is_char m))))
    as closing eqn:Eclosing.
  cbn [rmatch lit String.append]. unfold is_char at 1 2. rewrite Ascii.eqb_refl.
  cbn [any_char]. subst star. rewrite rmatch_star.
  apply (lazy_scan m _ (EmptyString, [(1%nat, String c x)]) [] x).
  - rewrite string_length_app. simpl. lia.
  - exact Hfx.
  - intros prev' y' caps' Hy' Hfy'. subst closing.
    apply (closing_fails m prev' y' _ accept Hy' Hfy').
  - subst closing. rewrite (closing_matches m). unfold set_capture. repeat f_equal.
    cbn [String.length].
    replace (S (String.length (x ++ String m (String m ""))) - 2)%nat
      with (String.length (String c x))
      by (rewrite string_length_app; simpl; lia).
    apply (substring_start (String c x)).
Qed.

Lemma replace_delimited (m : ascii) (f : string -> captures -> string) (x : string) :
  let mark := String m (String m EmptyString) in
  x <> EmptyString -> Shape.free_of (is_char m) x = true ->
  replace (discord.delimited mark mark m) f (mark ++ x ++ mark)
  = f (mark ++ x ++ mark)%string [(1%nat, x)].
Proof.
  intros mark Hx Hfree. unfold replace.
  remember (discord.delimited mark mark m) as r eqn:Er.
  remember (mark ++ x ++ mark)%string as s eqn:Es.
  cbn [replace_from].
  pose proof (rmatch_delimited m x Hx Hfree) as Hm. cbn zeta in Hm. fold mark in Hm.
  rewrite <- Er, <- Es in Hm. rewrite Hm.
  cbn [String.length]. rewrite Nat.sub_0_r.
  assert (Hlen : exists n, String.length s = S n).
  { subst s. unfold mark. simpl. eauto. }
  destruct Hlen as (n & Hlen). rewrite Hlen. cbn [Nat.eqb].
  rewrite <- Hlen.
  replace (String.substring 0 (String.length s) s) with s
    by (symmetry; rewrite <- (string_app_nil_r s) at 2; apply substring_start).
  rewrite Hlen. cbn [replace_from].
  assert (Hnone : forall prev, rmatch r prev EmptyString [] accept = None).
  { intros prev. subst r. reflexivity. }
  rewrite Hnone. apply string_app_nil_r.
Qed.

Lemma free_of_wrap (p : ascii -> bool) (pre x post : string) :
  Shape.free_of p pre = true -> Shape.free_of p x = true -> Shape.free_of p post = true ->
  Shape.free_of p (pre ++ x ++ post) = true.
Proof.
  unfold Shape.free_of. intros H1 H2 H3. rewrite !all_chars_app, H1, H2, H3. reflexivity.
Qed.

Ltac unchanged_in r a Hx :=
  rewrite (replace_needs (is_char a) r);
  [ | vm_compute; reflexivity
    | apply free_of_wrap;
      [reflexivity|apply (free_of_rendering a); [reflexivity|exact Hx]|reflexivity] ].

Lemma free_of_html (x : string) :
  Shape.free_of Shape.is_rendering_char x = true ->
  Shape.free_of dom.is_html_special x = true.
Proof.
  unfold Shape.free_of. apply all_chars_impl. intros c Hc.
  apply negb_true_iff. apply negb_true_iff in Hc.
  unfold Shape.is_rendering_char in Hc. apply orb_false_iff in Hc. apply Hc.
Qed.

Lemma applyLinks_wrapped (env : discord.environment) (pre x post : string) :
  Shape.free_of Shape.is_rendering_char x = true ->
  Shape.free_of (is_char ":") pre = true -> Shape.free_of (is_char ":") post = true ->
  Shape.free_of (is_char "&") pre = true -> Shape.free_of (is_char "&") post = true ->
  discord.applyLinks env (pre ++ x ++ post) = (pre ++ x ++ post)%string.
Proof.
  intros Hx Hc1 Hc2 Ha1 Ha2. unfold discord.applyLinks. cbv zeta.
  rewrite (replace_needs (is_char ":") discord.formatUrl);
    [|vm_compute; reflexivity
     |apply free_of_wrap; [exact Hc1|apply (free_of_rendering ":"); [reflexivity|exact Hx]|exact Hc2]].
  rewrite (replace_needs (is_char "&") discord.mentionChannel);
    [|vm_compute; reflexivity
     |apply free_of_wrap; [exact Ha1|apply (free_of_rendering "&"); [reflexivity|exact Hx]|exact Ha2]].
  rewrite (replace_needs (is_char "&") discord.mentionUser);
    [|vm_compute; reflexivity
     |apply free_of_wrap; [exact Ha1|apply (free_of_rendering "&"); [reflexivity|exact Hx]|exact Ha2]].
  rewrite (replace_needs (is_char "&") discord.customEmojiStatic);
    [|vm_compute; reflexivity
     |apply free_of_wrap; [exact Ha1|apply (free_of_rendering "&"); [reflexivity|exact Hx]|exact Ha2]].
  rewrite (replace_needs (is_char "&") discord.customEmojiAnimated);
    [|vm_compute; reflexivity
     |apply free_of_wrap; [exact Ha1|apply (free_of_rendering "&"); [reflexivity|exact Hx]|exact Ha2]].
  reflexivity.
Qed.

Lemma applyFormatting_bold (x : string) :
  x <> EmptyString -> Shape.free_of Shape.is_rendering_char x = true ->
  discord.applyFormatting ("**" ++ x ++ "**") = ("<b>" ++ x ++ "</b>")%string.
Proof.
  intros Hne Hx. unfold discord.applyFormatting. cbv zeta.
  unchanged_in discord.specialEscapedBacktick "\"%char Hx.
  unchanged_in discord.formatCodeBlock "`"%char Hx.
  unchanged_in discord.formatCodeInline "`"%char Hx.
  unchanged_in discord.specialEscapedSingle "\"%char Hx.
  unchanged_in discord.specialEscapedDouble "\"%char Hx.
  unfold discord.formatBold.
  rewrite (replace_delimited "*" _ x Hne (free_of_rendering "*" x eq_refl Hx)).
  cbn [group capture Nat.eqb].
  unchanged_in discord.formatUnderline "_"%char Hx.
  unchanged_in discord.formatItalic1 "*"%char Hx.
  unchanged_in discord.formatItalic2 "_"%char Hx.
  unchanged_in discord.formatStrike "~"%char Hx.
  reflexivity.
Qed.

Lemma applyFormatting_underline (x : string) :
  x <> EmptyString -> Shape.free_of Shape.is_rendering_char x = true ->
  discord.applyFormatting ("__" ++ x ++ "__") = ("<u>" ++ x ++ "</u>")%string.
Proof.
  intros Hne Hx. unfold discord.applyFormatting. cbv zeta.
  unchanged_in discord.specialEscapedBacktick "\"%char Hx.
  unchanged_in discord.formatCodeBlock "`"%char Hx.
  unchanged_in discord.formatCodeInline "`"%char Hx.
  unchanged_in discord.specialEscapedSingle "\"%char Hx.
  unchanged_in discord.specialEscapedDouble "\"%char Hx.
  unchanged_in discord.formatBold "*"%char Hx.
  unfold discord.formatUnderline.
  rewrite (replace_delimited "_" _ x Hne (free_of_rendering "_" x eq_refl Hx)).
  cbn [group capture Nat.eqb].
  unchanged_in discord.formatItalic1 "*"%char Hx.
  unchanged_in discord.formatItalic2 "_"%char Hx.
  unchanged_in discord.formatStrike "~"%char Hx.
  reflexivity.
Qed.

Lemma applyFormatting_strike (x : string) :
  x <> EmptyString -> Shape.free_of Shape.is_rendering_char x = true ->
  discord.applyFormatting ("~~" ++ x ++ "~~") = ("<s>" ++ x ++ "</s>")%string.
Proof.
  intros Hne Hx. unfold discord.applyFormatting. cbv zeta.
  unchanged_in discord.specialEscapedBacktick "\"%char Hx.
  unchanged_in discord.formatCodeBlock "`"%char Hx.
  unchanged_in discord.formatCodeInline "`"%char Hx.
  unchanged_in discord.specialEscapedSingle "\"%char Hx.
  unchanged_in discord.specialEscapedDouble "\"%char Hx.
  unchanged_in discord.formatBold "*"%char Hx.
  unchanged_in discord.formatUnderline "_"%char Hx.
  unchanged_in discord.formatItalic1 "*"%char Hx.
  unchanged_in discord.formatItalic2 "_"%char Hx.
  unfold discord.formatStrike.
  rewrite (replace_delimited "~" _ x Hne (free_of_rendering "~" x eq_refl Hx)).
  cbn [group capture Nat.eqb]. reflexivity.
Qed.

Lemma processMessageContents_wrapped (env : discord.environment) (mark x tag_open tag_close : string) :
  discord.enableFormatting env = true ->
  Shape.free_of Shape.is_rendering_char x = true ->
  Shape.free_of (is_char "<") mark = true ->
  Shape.free_of dom.is_html_special mark = true ->
  discord.applyFormatting (mark ++ x ++ mark) = (tag_open ++ x ++ tag_close)%string ->
  Shape.free_of (is_char ":") tag_open = true -> Shape.free_of (is_char ":") tag_close = true ->
  Shape.free_of (is_char "&") tag_open = true -> Shape.free_of (is_char "&") tag_close = true ->
  discord.processMessageContents env (mark ++ x ++ mark)
  = ("<p>" ++ tag_open ++ x ++ tag_close ++ "</p>")%string.
Proof.
  intros Hfmt Hx Hm1 Hm2 Happly Hc1 Hc2 Ha1 Ha2.
  unfold discord.processMessageContents, discord.unwrapNoEmbed. cbv zeta.
  rewrite (replace_needs (is_char "<") discord.formatUrlNoEmbed);
    [|vm_compute; reflexivity
     |apply free_of_wrap; [exact Hm1|apply (free_of_rendering "<"); [reflexivity|exact Hx]|exact Hm1]].
  rewrite escapeHTML_plain
    by (apply free_of_wrap; [exact Hm2|apply free_of_html, Hx|exact Hm2]).
  rewrite Hfmt, Happly, applyLinks_wrapped by assumption.
  rewrite !string_app_assoc. reflexivity.
Qed.

(** With the formatting enabled, a text without special characters
    between two asterisks on each side is shown bold, between two
    underscores underlined, and between two tildes struck through: the
    marks are removed, the text is kept as it is. *)
Theorem processMessageContents_styles :
  forall (env : discord.environment) (x : string),
    discord.enableFormatting env = true ->
    x <> EmptyString ->
    Shape.free_of Shape.is_rendering_char x = true ->
    discord.processMessageContents env ("**" ++ x ++ "**")
    = ("<p><b>" ++ x ++ "</b></p>")%string /\
    discord.processMessageContents env ("__" ++ x ++ "__")
    = ("<p><u>" ++ x ++ "</u></p>")%string /\
    discord.processMessageContents env ("~~" ++ x ++ "~~")
    = ("<p><s>" ++ x ++ "</s></p>")%string.
Proof.
  intros env x Hfmt Hne Hx. split; [|split].
  - apply (processMessageContents_wrapped env "**" x "<b>" "</b>"); try reflexivity;
      try assumption. apply applyFormatting_bold; assumption.
  - apply (processMessageContents_wrapped env "__" x "<u>" "</u>"); try reflexivity;
      try assumption. apply applyFormatting_underline; assumption.
  - apply (processMessageContents_wrapped env "~~" x "<s>" "</s>"); try reflexivity;
      try assumption. apply applyFormatting_strike; assumption.
Qed.

Lemma processMessageContents_styles_witness :
  discord.processMessageContents Sample.render_env ("**" ++ "very good" ++ "**")
  = ("<p><b>" ++ "very good" ++ "</b></p>")%string /\
  discord.processMessageContents Sample.render_env ("__" ++ "very good" ++ "__")
  = ("<p><u>" ++ "very good" ++ "</u></p>")%string /\
  discord.processMessageContents Sample.render_env ("~~" ++ "very good" ++ "~~")
  = ("<p><s>" ++ "very good" ++ "</s></p>")%string.
Proof.
  apply (processMessageContents_styles Sample.render_env "very good").
  - reflexivity.
  - discriminate.
  - reflexivity.
Defined.

(** ** The order of the keys and the order of the ids *)

Lemma digit_compare (c d : ascii) :
  is_digit c = true -> is_digit d = true ->
  Ascii.compare c d = (Shape.digit c ?= Shape.digit d) /\ 0 <= Shape.digit c <= 9.
Proof.
  intros Hc Hd.
  destruct c as [[] [] [] [] [] [] [] []]; try discriminate Hc;
    destruct d as [[] [] [] [] [] [] [] []]; try discriminate Hd;
    vm_compute; repeat split; discriminate.
Qed.

Lemma digits_value_bound (s : string) :
  Shape.is_digits s = true -> 0 <= Shape.digits_value s < 10 ^ Z.of_nat (String.length s).
Proof.
  induction s as [|c s IH]; [intros _; simpl; lia|].
  unfold Shape.is_digits. cbn [Inv.all_chars]. intros H.
  apply andb_true_iff in H. destruct H as [Hc Hs].
  destruct (digit_compare c c Hc Hc) as [_ Hd]. specialize (IH Hs).
  cbn [Shape.digits_value String.length]. rewrite Nat2Z.inj_succ, Z.pow_succ_r by lia.
  nia.
Qed.

(** Of two texts of digits of the same length, the one that comes first
    in the order of the strings denotes the smaller number. *)
Lemma digits_compare (a : string) :
  forall b : string,
    String.length a = String.length b ->
    Shape.is_digits a = true -> Shape.is_digits b = true ->
    String.compare a b = (Shape.digits_value a ?= Shape.digits_value b).
Proof.
  induction a as [|c a IH]; intros [|d b] Hlen Ha Hb; try discriminate Hlen; [reflexivity|].
  unfold Shape.is_digits in Ha, Hb. cbn [Inv.all_chars] in Ha, Hb.
  apply andb_true_iff in Ha, Hb. destruct Ha as [Hc Ha], Hb as [Hd Hb].
  injection Hlen as Hlen.
  destruct (digit_compare c d Hc Hd) as [Hcmp Hrc].
  destruct (digit_compare d c Hd Hc) as [_ Hrd].
  pose proof (digits_value_bound a Ha) as Hva.
  pose proof (digits_value_bound b Hb) as Hvb.
  cbn [String.compare Shape.digits_value]. rewrite Hcmp, <- Hlen.
  rewrite <- Hlen in Hvb.
  set (P := 10 ^ Z.of_nat (String.length a)) in *.
  destruct (Z.compare_spec (Shape.digit c) (Shape.digit d)) as [E|E|E].
  - rewrite E, (IH b Hlen Ha Hb). symmetry. apply Z.add_compare_mono_l.
  - symmetry. apply Z.compare_lt_iff. nia.
  - symmetry. apply Z.compare_gt_iff. nia.
Qed.

(** A text of digits that does not start with 0 denotes a larger number
    than every shorter text of digits. *)
Lemma digits_longer (a b : string) (c : ascii) :
  (String.length a < String.length (String c b))%nat ->
  Shape.is_digits a = true -> Shape.is_digits (String c b) = true ->
  c <> "0"%char ->
  Shape.digits_value a < Shape.digits_value (String c b).
Proof.
  intros Hlen Ha Hb Hc.
  pose proof (digits_value_bound a Ha) as Hva.
  unfold Shape.is_digits in Hb. cbn [Inv.all_chars] in Hb.
  apply andb_true_iff in Hb. destruct Hb as [Hdc Hb].
  pose proof (digits_value_bound b Hb) as Hvb.
  assert (Hd : 1 <= Shape.digit c).
  { destruct c as [[] [] [] [] [] [] [] []]; try discriminate Hdc;
      try (vm_compute; discriminate). congruence. }
  cbn [Shape.digits_value]. simpl in Hlen.
  assert (Hpow : 10 ^ Z.of_nat (String.length a) <= 10 ^ Z.of_nat (String.length b))
    by (apply Z.pow_le_mono_r; lia).
  nia.
Qed.

Lemma string_of_uint_digits (d : Decimal.uint) :
  Shape.is_digits (NilEmpty.string_of_uint d) = true.
Proof. induction d; simpl; try reflexivity; exact IHd. Qed.

Ltac digit_code :=
  match goal with
  | |- context [Z.of_nat (nat_of_ascii ?c) - 48] =>
      let v := eval vm_compute in (Z.of_nat (nat_of_ascii c) - 48) in
      change (Z.of_nat (nat_of_ascii c) - 48) with v
  end.

Lemma of_uint_acc_value (d : Decimal.uint) :
  forall acc : positive,
    Z.pos (Pos.of_uint_acc d acc)
    = Z.pos acc * 10 ^ Z.of_nat (String.length (NilEmpty.string_of_uint d))
      + Shape.digits_value (NilEmpty.string_of_uint d).
Proof.
  induction d; intros acc;
    cbn [Pos.of_uint_acc NilEmpty.string_of_uint Shape.digits_value String.length];
    [simpl; lia|..];
    rewrite IHd, Nat2Z.inj_succ, Z.pow_succ_r by lia;
    unfold Shape.digit; digit_code;
    rewrite ?Pos2Z.inj_add, ?Pos2Z.inj_mul; ring.
Qed.

Lemma of_uint_value (d : Decimal.uint) :
  Z.of_N (Pos.of_uint d) = Shape.digits_value (NilEmpty.string_of_uint d).
Proof.
  induction d;
    cbn [Pos.of_uint NilEmpty.string_of_uint Shape.digits_value];
    [reflexivity|rewrite IHd; unfold Shape.digit; digit_code; ring|..];
    simpl Z.of_N; rewrite of_uint_acc_value;
    unfold Shape.digit; digit_code; ring.
Qed.

Lemma to_uint_no_leading_zero (p : positive) (d : Decimal.uint) :
  Pos.to_uint p <> Decimal.D0 d.
Proof.
  intros E.
  pose proof (DecimalPos.Unsigned.to_of (Pos.to_uint p)) as H.
  rewrite DecimalPos.Unsigned.of_to in H. simpl in H.
  unfold Decimal.unorm in H.
  destruct (Decimal.nzhead (Pos.to_uint p)) eqn:Enz;
    try (rewrite E in H; discriminate H).
  - apply (DecimalPos.Unsigned.to_uint_nonzero p). exact H.
  - exact (DecimalFacts.nzhead_nonzero _ _ Enz).
Qed.

(** What [str] writes for a number that is not negative: digits only,
    which denote the number, with no 0 in front unless the number is 0. *)
Lemma str_int_canonical (z : Z) :
  0 <= z ->
  Shape.is_digits (Py.str_int z) = true /\
  Shape.digits_value (Py.str_int z) = z /\
  (z = 0 \/ exists c s, Py.str_int z = String c s /\ c <> "0"%char).
Proof.
  intros Hz. destruct z as [|p|p]; [| |lia].
  - repeat split. left. reflexivity.
  - assert (E : Py.str_int (Z.pos p) = NilEmpty.string_of_uint (Pos.to_uint p)).
    { unfold Py.str_int. cbn [Z.to_int NilZero.string_of_int NilZero.string_of_uint].
      destruct (Pos.to_uint p) eqn:Ep; try reflexivity.
      exfalso. exact (DecimalPos.Unsigned.to_uint_nonnil p Ep). }
    rewrite E. split; [apply string_of_uint_digits|]. split.
    + rewrite <- of_uint_value, DecimalPos.Unsigned.of_to. reflexivity.
    + right. destruct (Pos.to_uint p) eqn:Ep.
      * exfalso. exact (DecimalPos.Unsigned.to_uint_nonnil p Ep).
      * exfalso. exact (to_uint_no_leading_zero p _ Ep).
      * eexists _, _. split; [reflexivity|discriminate].
      * eexists _, _. split; [reflexivity|discriminate].
      * eexists _, _. split; [reflexivity|discriminate].
      * eexists _, _. split; [reflexivity|discriminate].
      * eexists _, _. split; [reflexivity|discriminate].
      * eexists _, _. split; [reflexivity|discriminate].
      * eexists _, _. split; [reflexivity|discriminate].
      * eexists _, _. split; [reflexivity|discriminate].
      * eexists _, _. split; [reflexivity|discriminate].
Qed.

Lemma oldestToNewest_shorter (a b : string) :
  (String.length a < String.length b)%nat -> sorter.oldestToNewest a b = -1.
Proof.
  intros Hlt. unfold sorter.oldestToNewest, JS.str_length.
  destruct (Z.eqb_spec (Z.of_nat (String.length a)) (Z.of_nat (String.length b))); [lia|].
  destruct (Z.gtb_spec (Z.of_nat (String.length a)) (Z.of_nat (String.length b))); [lia|].
  reflexivity.
Qed.

Lemma oldestToNewest_longer (a b : string) :
  (String.length b < String.length a)%nat -> sorter.oldestToNewest a b = 1.
Proof.
  intros Hlt. unfold sorter.oldestToNewest, JS.str_length.
  destruct (Z.eqb_spec (Z.of_nat (String.length a)) (Z.of_nat (String.length b))); [lia|].
  destruct (Z.gtb_spec (Z.of_nat (String.length a)) (Z.of_nat (String.length b))); [|lia].
  reflexivity.
Qed.

(** Of the texts of two numbers that are not negative, the shorter one
    is the text of the smaller number. *)
Lemma str_int_shorter (a b : Z) :
  0 <= a -> 0 <= b ->
  (String.length (Py.str_int a) < String.length (Py.str_int b))%nat -> a < b.
Proof.
  intros Ha Hb Hlen.
  destruct (str_int_canonical a Ha) as (Hda & Hva & _).
  destruct (str_int_canonical b Hb) as (Hdb & Hvb & [->|(c & s & E & Hc)]).
  - change (Py.str_int 0) with "0"%string in Hlen. simpl in Hlen.
    pose proof (str_int_nonempty a) as Hne.
    destruct (Py.str_int a); [congruence|simpl in Hlen; lia].
  - rewrite <- Hva, <- Hvb. rewrite E in Hlen, Hdb |- *.
    exact (digits_longer _ _ _ Hlen Hda Hdb Hc).
Qed.

(** On the ids the exporter writes, which are the texts of numbers
    that are not negative, the comparator of the viewer is the order of
    the numbers: it gives the sign of their difference. *)
Theorem oldestToNewest_numeric (a b : Z) :
  0 <= a -> 0 <= b ->
  sorter.oldestToNewest (Py.str_int a) (Py.str_int b) = Z.sgn (a - b).
Proof.
  intros Ha Hb.
  destruct (Nat.lt_trichotomy (String.length (Py.str_int a)) (String.length (Py.str_int b)))
    as [Hlt|[Heq|Hgt]].
  - rewrite (oldestToNewest_shorter _ _ Hlt).
    pose proof (str_int_shorter a b Ha Hb Hlt). symmetry. apply Z.sgn_neg. lia.
  - rewrite (oldestToNewest_same_length _ _ Heq).
    destruct (str_int_canonical a Ha) as (Hda & Hva & _).
    destruct (str_int_canonical b Hb) as (Hdb & Hvb & _).
    rewrite (digits_compare _ _ Heq Hda Hdb), Hva, Hvb.
    destruct (Z.compare_spec a b) as [E|E|E]; symmetry.
    + apply Z.sgn_null. lia.
    + apply Z.sgn_neg. lia.
    + apply Z.sgn_pos. lia.
  - rewrite (oldestToNewest_longer _ _ Hgt).
    pose proof (str_int_shorter b a Hb Ha Hgt). symmetry. apply Z.sgn_pos. lia.
Qed.

Lemma oldestToNewest_numeric_witness :
  0 <= 99 /\ 0 <= 100 /\
  sorter.oldestToNewest (Py.str_int 99) (Py.str_int 100) = Z.sgn (99 - 100).
Proof.
  split; [lia|]. split; [lia|].
  apply (oldestToNewest_numeric 99 100); lia.
Defined.
